(** * Chess puzzle generator: a shallow embedding of [main.py]

    The program plays weighted-random legal games, asks a UCI engine whether
    the position reached holds a short forced mate, and packages every hit as
    a directory of diagrams and text files.

    The chess rules (python-chess), the analysis engine, the SVG renderer and
    the random number generator are collaborators the program only calls; they
    are interfaces here ([RulesEngine], [Engine], [Renderer], [Rng]).  Every
    function of [main.py] that the properties below talk about is embedded as
    a function over explicit state: the random tape, the engine process, the
    file system and a log of the calls made to the collaborators. *)

From Stdlib Require Import ZArith Lia Bool Ascii String.
From stdpp Require Import base option list sorting strings pretty gmap.

Local Open Scope string_scope.
Local Open Scope Z_scope.
Local Open Scope list_scope.

(** ** Python values and exceptions *)

(** A raised [Exception]: its class name and [str(e)]. *)
Record exn := Exception { exn_class : string; exn_msg : string }.

(** The outcome of a call: a value, or an exception that unwinds to the
    nearest [except Exception]. *)
Inductive result (A : Type) : Type :=
| Ok (a : A)
| Raise (e : exn).
Arguments Ok {A} a.
Arguments Raise {A} e.

Definition is_ok {A} (r : result A) : bool :=
  match r with Ok _ => true | Raise _ => false end.

(** [l[:n]] for a Python list: a negative stop counts from the end. *)
Definition py_take {A} (n : Z) (l : list A) : list A :=
  if 0 <=? n then take (Z.to_nat n) l
  else take (length l - Z.to_nat (- n)) l.

(** [len(l)] as a Python int. *)
Definition len {A} (l : list A) : Z := Z.of_nat (length l).

(** [s * n] for a string and a non-negative count. *)
Fixpoint str_repeat (s : string) (n : nat) : string :=
  match n with
  | O => EmptyString
  | S n' => s +:+ str_repeat s n'
  end.

(** [" ".join(l)]. *)
Fixpoint str_join (sep : string) (l : list string) : string :=
  match l with
  | [] => EmptyString
  | [s] => s
  | s :: rest => s +:+ sep +:+ str_join sep rest
  end.

(** [c in s] for a one-character needle. *)
Fixpoint str_contains (c : Ascii.ascii) (s : string) : bool :=
  match s with
  | EmptyString => false
  | String c' s' => if Ascii.eqb c c' then true else str_contains c s'
  end.

(** [f"{n:03d}"]: the sign, then the digits zero-filled to a total width
    of three; longer numbers are printed whole. *)
Definition fmt_03d (n : Z) : string :=
  let digits := pretty (Z.abs n) in
  if n <? 0
  then "-" +:+ str_repeat "0" (2 - String.length digits) +:+ digits
  else str_repeat "0" (3 - String.length digits) +:+ digits.

(** ** Floats

    The scores of the move policy are Python floats.  [random.random()]
    returns [k / 2^53] for an integer [0 <= k < 2^53], and the policy adds
    [1.0] and [0.5] to it, so every score is a multiple of [2^-53] and at
    most [2.5].  Such a float is held as its numerator; addition rounds to the 53
    significant bits of a double, ties to even. *)
Module PyFloat.

Definition t := Z.

Definition one : t := 2 ^ 53.
Definition half : t := 2 ^ 52.

(** Nearest multiple of [g], a tie going to the even multiple. *)
Definition round_to (g x : Z) : Z :=
  let q := x / g in
  let r := x mod g in
  if 2 * r <? g then q * g
  else if g <? 2 * r then (q + 1) * g
  else if Z.even q then q * g else (q + 1) * g.

(** Below 1.0 every multiple of [2^-53] is a double; in [1, 2) the doubles
    are the multiples of [2^-52], in [2, 4) those of [2^-51]. *)
Definition round (x : Z) : t :=
  if x <? 2 ^ 53 then x
  else if x <? 2 ^ 54 then round_to 2 x
  else round_to 4 x.

Definition add (a b : t) : t := round (a + b).

Definition eqb (a b : t) : bool := a =? b.

End PyFloat.

(** ** The random module

    The generator state is a tape of raw draws and a cursor; each call to
    [random] consumes one cell.  Whatever sequence of in-range values Python
    produces is the reading of some tape. *)
Record Rng := mkRng { tape : nat -> N; cursor : nat }.

Definition rng_next (g : Rng) : N * Rng :=
  (tape g (cursor g), mkRng (tape g) (S (cursor g))).

(** [random.random()]: a float in [[0, 1)]. *)
Definition random (g : Rng) : PyFloat.t * Rng :=
  let '(raw, g') := rng_next g in
  (Z.of_N raw mod 2 ^ 53, g').

(** [random.randint(a, b)]: an int in [[a, b]]; [ValueError] on an empty
    range. *)
Definition randint (a b : Z) (g : Rng) : result Z * Rng :=
  if b <? a then (Raise (Exception "ValueError" "empty range for randrange()"), g)
  else let '(raw, g') := rng_next g in
       (Ok (a + Z.of_N raw mod (b - a + 1)), g').

(** [random.choice(seq)]: [seq[randbelow(len(seq))]]; [IndexError] on an
    empty sequence. *)
Definition choice_index (n : nat) (g : Rng) : nat * Rng :=
  let '(raw, g') := rng_next g in
  (N.to_nat (raw mod N.of_nat n), g').

Definition choice {A} (seq : list A) (g : Rng) : result A * Rng :=
  match seq with
  | [] => (Raise (Exception "IndexError" "Cannot choose from an empty sequence"), g)
  | x :: _ =>
      let '(i, g') := choice_index (length seq) g in
      (Ok (nth i seq x), g')
  end.

(** ** The rules engine (python-chess) *)

Inductive Color := White | Black.


Definition color_name (c : Color) : string :=
  match c with White => "White" | Black => "Black" end.

Global Instance Color_eq_dec : EqDecision Color.
Proof. solve_decision. Defined.

(** [chess.square_file] and [chess.square_rank] of a square [0..63]. *)
Definition square_file (square : Z) : Z := Z.land square 7.
Definition square_rank (square : Z) : Z := Z.shiftr square 3.

(** What the program uses of [chess.Board] and [chess.Move].  A board is a
    value here: [push] returns the position after the move, which is what
    the program sees of the in-place update since it never shares a board
    it goes on to modify ([save_puzzle] works on [board.copy()]). *)
Class RulesEngine (Board Move : Type) := {
  start_board : Board;                      (* chess.Board() *)
  legal_moves : Board -> list Move;         (* list(board.legal_moves) *)
  push : Board -> Move -> Board;            (* board.push(move) *)
  is_game_over : Board -> bool;
  is_checkmate : Board -> bool;
  is_check : Board -> bool;
  is_capture : Board -> Move -> bool;
  turn : Board -> Color;
  to_square : Move -> Z;
  fen : Board -> string;
  uci : Move -> string;
  san : Board -> Move -> result string      (* raises on a move that is not legal *)
}.

(** Applying a line of moves in order. *)
Definition push_all `{RulesEngine Board Move} (b : Board) (line : list Move) : Board :=
  foldl push b line.

(** ** Position Generator: [generate_random_game] *)

(** An entry of [move_scores]: the tuple [(score, move)]. *)
Abbreviation scored Move := (PyFloat.t * Move)%type (only parsing).

Section Generator.
Context `{RulesEngine Board Move}.

(** [chess.square_file(to_square) in [3, 4] and
    chess.square_rank(to_square) in [3, 4]] *)
Definition in_center (move : Move) : bool :=
  let to_square := to_square move in
  ((square_file to_square =? 3) || (square_file to_square =? 4))
  && ((square_rank to_square =? 3) || (square_rank to_square =? 4)).

(** The body of [for move in legal_moves]: one draw, the capture bonus,
    then the centre bonus of the opening. *)
Definition score_move (board : Board) (moves_played : Z) (move : Move)
    (g : Rng) : scored Move * Rng :=
  let '(score, g) := random g in
  let score := if is_capture board move
               then PyFloat.add score PyFloat.one else score in
  let score := if (moves_played <? 10) && in_center move
               then PyFloat.add score PyFloat.half else score in
  ((score, move), g).

Fixpoint score_moves (board : Board) (moves_played : Z) (legal : list Move)
    (g : Rng) : list (scored Move) * Rng :=
  match legal with
  | [] => ([], g)
  | move :: rest =>
      let '(entry, g) := score_move board moves_played move g in
      let '(entries, g) := score_moves board moves_played rest g in
      (entry :: entries, g)
  end.

(** Two entries with the same score. *)
Fixpoint has_tie (l : list (scored Move)) : bool :=
  match l with
  | [] => false
  | x :: rest => existsb (fun y => PyFloat.eqb x.1 y.1) rest || has_tie rest
  end.

Definition score_ge (a b : scored Move) : Prop := b.1 <= a.1.

Global Instance score_ge_dec a b : Decision (score_ge a b).
Proof. unfold score_ge. apply _. Defined.

Definition move_not_orderable : exn :=
  Exception "TypeError" "'<' not supported between instances of 'Move' and 'Move'".

(** [move_scores.sort(reverse=True)] on [(score, move)] tuples.  Tuples
    compare by score first and by move on equal scores, and [chess.Move]
    has no ordering, so comparing two entries of equal score raises
    [TypeError]; a sort cannot place two such entries without comparing
    members of their group.  With all scores distinct the result is the
    one descending arrangement. *)
Definition py_sort_reverse (l : list (scored Move)) : result (list (scored Move)) :=
  if has_tie l then Raise move_not_orderable
  else Ok (merge_sort score_ge l).

(** One pass of the loop body from [move_scores = []] to [chosen_move],
    for a non-empty [legal_moves]. *)
Definition choose_move (board : Board) (moves_played : Z) (g : Rng)
    : result Move * Rng :=
  let legal := legal_moves board in
  let '(move_scores, g) := score_moves board moves_played legal g in
  match py_sort_reverse move_scores with
  | Raise e => (Raise e, g)
  | Ok move_scores =>
      let top_moves := py_take (Z.min 5 (len move_scores)) move_scores in
      match choice top_moves g with
      | (Raise e, g) => (Raise e, g)
      | (Ok chosen, g) => (Ok chosen.2, g)
      end
  end.

(** The [while] loop.  [remaining] is [max_moves - moves_played]: the guard
    [moves_played < max_moves] holds exactly while it is not zero. *)
Fixpoint play (remaining : nat) (board : Board) (moves_played : Z) (g : Rng)
    : result Board * Rng :=
  match remaining with
  | O => (Ok board, g)
  | S remaining' =>
      if is_game_over board then (Ok board, g)
      else match legal_moves board with
           | [] => (Ok board, g)
           | _ :: _ =>
               match choose_move board moves_played g with
               | (Raise e, g) => (Raise e, g)
               | (Ok chosen_move, g) =>
                   play remaining' (push board chosen_move) (moves_played + 1) g
               end
           end
  end.

Definition generate_random_game (max_moves : Z) (g : Rng) : result Board * Rng :=
  play (Z.to_nat max_moves) start_board 0 g.

End Generator.

(** ** The engine adapter (chess.engine) *)

(** [chess.engine.Score]: centipawns, [Mate(n)] (mate in [n] for the point
    of view when [n > 0], being mated in [-n] when [n < 0], mated on the
    board for [Mate(0)]) and [MateGiven]. *)
Inductive Score :=
| Cp (cp : Z)
| Mate (moves : Z)
| MateGiven.

(** [Score.mate()] *)
Definition score_mate (s : Score) : option Z :=
  match s with
  | Cp _ => None
  | Mate moves => Some moves
  | MateGiven => Some 0
  end.

(** [Score.is_mate()] *)
Definition score_is_mate (s : Score) : bool :=
  match score_mate s with Some _ => true | None => false end.

(** [Score.__neg__] *)
Definition score_neg (s : Score) : Score :=
  match s with
  | Cp cp => Cp (- cp)
  | Mate moves => if moves =? 0 then MateGiven else Mate (- moves)
  | MateGiven => Mate 0
  end.

(** [chess.engine.PovScore]: a score relative to the side [pov_turn]. *)
Record PovScore := mkPovScore { relative : Score; pov_turn : Color }.

(** [PovScore.white()] *)
Definition pov_white (s : PovScore) : Score :=
  match pov_turn s with
  | White => relative s
  | Black => score_neg (relative s)
  end.

(** The [info] dictionary of [engine.analyse], with the two keys the program
    reads; [None] is a missing key. *)
Record Info (Move : Type) := mkInfo {
  info_score : option PovScore;
  info_pv : option (list Move)
}.
Arguments mkInfo {Move} _ _.
Arguments info_score {Move} _.
Arguments info_pv {Move} _.

(** A running engine process of state [E]: a request either answers or
    raises, and moves the process to a new state. *)
Class Engine (E Board Move : Type) := {
  analyse : E -> Board -> Z -> result (Info Move) * E;   (* Limit(depth=...) *)
  quit : E -> result () * E
}.

(** ** Files *)

(** Directories, files with their text, and the paths a write fails on
    (permissions, a full disk, ...). *)
Record FS := mkFS {
  dirs : gset string;
  files : gmap string string;
  unwritable : string -> bool
}.

(** [str(dir / name)]; the working directory ["."] adds nothing. *)
Definition path_join (dir name : string) : string :=
  if bool_decide (dir = ".") then name else dir +:+ "/" +:+ name.

Definition os_error (cls path : string) : exn := Exception cls path.

(** [(parent / name).mkdir(exist_ok=True)]; the working directory ["."]
    always exists. *)
Definition mkdir_exist_ok (parent name : string) (fs : FS) : result () * FS :=
  let p := path_join parent name in
  if bool_decide (p ∈ dirs fs) then (Ok (), fs)
  else if bool_decide (is_Some (files fs !! p)) then (Raise (os_error "FileExistsError" p), fs)
  else if negb (bool_decide (parent = "." ∨ parent ∈ dirs fs))
       then (Raise (os_error "FileNotFoundError" p), fs)
  else if unwritable fs p then (Raise (os_error "PermissionError" p), fs)
  else (Ok (), mkFS ({[ p ]} ∪ dirs fs) (files fs) (unwritable fs)).

(** [with open(dir / name, "w") as f: f.write(...)], the whole text at
    once. *)
Definition write_file (dir name content : string) (fs : FS) : result () * FS :=
  let p := path_join dir name in
  if negb (bool_decide (dir = "." ∨ dir ∈ dirs fs))
  then (Raise (os_error "FileNotFoundError" p), fs)
  else if bool_decide (p ∈ dirs fs) then (Raise (os_error "IsADirectoryError" p), fs)
  else if unwritable fs p then (Raise (os_error "OSError" p), fs)
  else (Ok (), mkFS (dirs fs) (<[ p := content ]> (files fs)) (unwritable fs)).

(** ** The renderers (chess.svg, cairosvg) *)

Class Renderer (Board Move : Type) := {
  (** [chess.svg.board(board, size=, lastmove=, orientation=, colors=...)] *)
  svg_board : Board -> Z -> option Move -> Color -> string;
  (** [import cairosvg] succeeded *)
  HAS_CAIRO : bool;
  (** the PNG that [cairosvg.svg2png(..., scale=2)] makes of an SVG text *)
  svg2png : string -> result string
}.

(** ** The state of a run *)

(** Calls to the collaborators, oldest first. *)
Inductive Event :=
| EvFind                       (* find_puzzle_position entered *)
| EvAnalyse                    (* engine.analyse *)
| EvQuit                       (* engine.quit *)
| EvWrite (path content : string).   (* a file written *)

Global Instance Event_eq_dec : EqDecision Event.
Proof. solve_decision. Defined.

Record World (E : Type) := mkWorld {
  w_engine : E;
  w_rng : Rng;
  w_fs : FS;
  w_log : list Event
}.
Arguments mkWorld {E} _ _ _ _.
Arguments w_engine {E} _.
Arguments w_rng {E} _.
Arguments w_fs {E} _.
Arguments w_log {E} _.

Definition set_engine {E} (e : E) (w : World E) : World E :=
  mkWorld e (w_rng w) (w_fs w) (w_log w).
Definition set_rng {E} (g : Rng) (w : World E) : World E :=
  mkWorld (w_engine w) g (w_fs w) (w_log w).
Definition set_fs {E} (fs : FS) (w : World E) : World E :=
  mkWorld (w_engine w) (w_rng w) fs (w_log w).
Definition log_event {E} (ev : Event) (w : World E) : World E :=
  mkWorld (w_engine w) (w_rng w) (w_fs w) (w_log w ++ [ev])%list.

(** ** Configuration constants *)

Definition MATE_DEPTH : Z := 10.
Definition NUM_PUZZLES : Z := 200.
Definition EXPORT_PNG : bool := true.
Definition OUTPUT_DIR : string := "generated_puzzles".

(** ** Mate Finder: [analyze_for_mate], [find_puzzle_position] *)

Section Finder.
Context `{RulesEngine Board Move} `{Engine E Board Move}.

(** The Python function returns the pair [(mate_in, line)] or
    [(None, None)]; the two are [Some] and [None] here.  Everything sits
    inside [try ... except Exception], so a raising engine gives
    [(None, None)] as well. *)
Definition analyze_for_mate (board : Board) (max_mate : Z) (w : World E)
    : option (Z * list Move) * World E :=
  let '(r, e) := analyse (w_engine w) board MATE_DEPTH in
  let w := log_event EvAnalyse (set_engine e w) in
  match r with
  | Raise _ => (None, w)
  | Ok info =>
      match info_score info with
      | None => (None, w)
      | Some score =>
          match score_mate (pov_white score) with
          | None => (None, w)                       (* not is_mate() *)
          | Some moves =>
              let mate_in := Z.abs moves in
              if mate_in <=? max_mate then
                let pv := default [] (info_pv info) in
                if mate_in * 2 - 1 <=? len pv
                then (Some (mate_in, py_take (mate_in * 2) pv), w)
                else (None, w)
              else (None, w)
          end
      end
  end.

(** A found puzzle: [(board, mate_in, solution)]. *)
Definition puzzle : Type := Board * Z * list Move.

(** [for attempt in range(max_attempts)], [attempts] iterations to go.
    [None] is the [(None, None, None)] returned after the loop. *)
Fixpoint find_attempts (attempts : nat) (w : World E)
    : result (option puzzle) * World E :=
  match attempts with
  | O => (Ok None, w)
  | S attempts' =>
      match randint 15 35 (w_rng w) with
      | (Raise e, g) => (Raise e, set_rng g w)
      | (Ok max_moves, g) =>
          match generate_random_game max_moves g with
          | (Raise e, g) => (Raise e, set_rng g w)
          | (Ok board, g) =>
              let w := set_rng g w in
              if is_game_over board then find_attempts attempts' w
              else
                let '(found, w) := analyze_for_mate board 3 w in
                match found with
                | Some (mate_in, solution) =>
                    (* if mate_in and solution *)
                    if negb (mate_in =? 0) && negb (bool_decide (solution = []))
                    then (Ok (Some (board, mate_in, solution)), w)
                    else find_attempts attempts' w
                | None => find_attempts attempts' w
                end
          end
      end
  end.

Definition find_puzzle_position (max_attempts : Z) (w : World E)
    : result (option puzzle) * World E :=
  find_attempts (Z.to_nat max_attempts) (log_event EvFind w).

End Finder.

(** ** Text of the artifacts *)

Definition nl : string := String "010"%char EmptyString.
Definition dq : string := String "034"%char EmptyString.

(** [pathlib.Path] of a directory entry: where it lives and its [.name]. *)
Record Path := mkPath { path_parent : string; path_name : string }.

Definition path_str (p : Path) : string := path_join (path_parent p) (path_name p).

(** The dictionary [save_puzzle] returns. *)
Record PuzzleResult := mkPuzzleResult {
  success : bool;
  mate_in : Z;
  solution_moves : Z;
  folder : Path
}.

Definition rule60 : string := str_repeat "=" 60.
Definition rule70 : string := str_repeat "=" 70.

(** The body of the thread loop of [tweet.txt] for entry [i]. *)
Definition thread_color (i : Z) : string :=
  if i mod 2 =? 0 then "White" else "Black".

Definition thread_entry (i : Z) (san : string) : string :=
  let step_num := i + 1 in
  let move_color := thread_color i in
  let is_checkmate := str_contains "#"%char san in
  nl +:+ "Tweet " +:+ pretty (step_num + 2) +:+ ":" +:+ nl
  +:+ (if is_checkmate
       then "✓ " +:+ move_color +:+ ": " +:+ san +:+ " - Checkmate!" +:+ nl
       else move_color +:+ ": " +:+ san +:+ nl)
  +:+ "[Attach: solution_step" +:+ pretty step_num +:+ ".png]" +:+ nl +:+ nl.

(** [for i, san in enumerate(solution_san)], from index [i] on. *)
Fixpoint thread_entries (i : Z) (solution_san : list string) : string :=
  match solution_san with
  | [] => EmptyString
  | san :: rest => thread_entry i san +:+ thread_entries (i + 1) rest
  end.

(** Everything written to [tweet.txt]. *)
Definition tweet_text (puzzle_number : Z) (title_text : string)
    (solution_san : list string) : string :=
  let solution_text := str_join " " solution_san in
  rule60 +:+ nl
  +:+ "TWEET 1: PUZZLE (Main Tweet)" +:+ nl
  +:+ rule60 +:+ nl
  +:+ "Attach: puzzle.png" +:+ nl +:+ nl
  +:+ "🧩 Daily Chess Puzzle #" +:+ pretty puzzle_number +:+ nl +:+ nl
  +:+ title_text +:+ nl
  +:+ "Generated by Stockfish AI ⭐" +:+ nl +:+ nl
  +:+ "Can you solve it? 🤔" +:+ nl +:+ nl
  +:+ "#ChessPuzzle #Chess #Tactics" +:+ nl +:+ nl
  +:+ rule60 +:+ nl
  +:+ "TWEET 2: SOLUTION SUMMARY" +:+ nl
  +:+ rule60 +:+ nl
  +:+ "✅ Solution: " +:+ solution_text +:+ nl +:+ nl
  +:+ "See step-by-step images below! 👇" +:+ nl +:+ nl
  +:+ rule60 +:+ nl
  +:+ "TWEETS 3+: STEP-BY-STEP THREAD" +:+ nl
  +:+ rule60 +:+ nl
  +:+ thread_entries 0 solution_san.

(** One entry of the puzzle list of [puzzle_index.txt]. *)
Definition index_entry (i : Z) (r : PuzzleResult) : string :=
  "Day " +:+ fmt_03d i +:+ ":" +:+ nl
  +:+ "  Mate in: " +:+ pretty (mate_in r) +:+ nl
  +:+ "  Solution Moves: " +:+ pretty (solution_moves r) +:+ nl
  +:+ "  Folder: " +:+ path_name (folder r) +:+ nl +:+ nl.

Fixpoint index_entries (i : Z) (rs : list PuzzleResult) : string :=
  match rs with
  | [] => EmptyString
  | r :: rest => index_entry i r +:+ index_entries (i + 1) rest
  end.

(** Everything written to [puzzle_index.txt]; [now] is the formatted
    [datetime.now()]. *)
Definition index_text (now : string) (successes : list PuzzleResult) : string :=
  "STOCKFISH GENERATED PUZZLE COLLECTION" +:+ nl
  +:+ rule70 +:+ nl +:+ nl
  +:+ "Generated: " +:+ now +:+ nl
  +:+ "Total Puzzles: " +:+ pretty (len successes) +:+ nl
  +:+ "Engine: Stockfish" +:+ nl +:+ nl
  +:+ rule70 +:+ nl
  +:+ "PUZZLE LIST:" +:+ nl
  +:+ rule70 +:+ nl +:+ nl
  +:+ index_entries 1 successes.

(** ** Puzzle Renderer and Packager: [save_puzzle] *)

Section Packager.
Context `{RulesEngine Board Move} `{Renderer Board Move} {E : Type}.

Definition get_title_text (board : Board) (mate_in : Z) : string :=
  let color := if decide (turn board = White) then "White" else "Black" in
  if negb (mate_in =? 0)
  then color +:+ " to move and mate in " +:+ pretty mate_in
  else color +:+ " to move and win".

Definition create_board_svg_with_title (board : Board) (title : string)
    (last_move : option Move) (orientation : Color) (size : Z) : string :=
  let board_svg := svg_board board size last_move orientation in
  "<svg width=" +:+ dq +:+ pretty size +:+ dq
  +:+ " height=" +:+ dq +:+ pretty (size + 40) +:+ dq
  +:+ " xmlns=" +:+ dq +:+ "http://www.w3.org/2000/svg" +:+ dq +:+ ">" +:+ nl
  +:+ "  <text x=" +:+ dq +:+ pretty (size / 2) +:+ dq
  +:+ " y=" +:+ dq +:+ "25" +:+ dq
  +:+ " text-anchor=" +:+ dq +:+ "middle" +:+ dq
  +:+ " font-size=" +:+ dq +:+ "18" +:+ dq +:+ nl
  +:+ "        font-family=" +:+ dq +:+ "Arial, sans-serif" +:+ dq
  +:+ " fill=" +:+ dq +:+ "white" +:+ dq
  +:+ " font-weight=" +:+ dq +:+ "bold" +:+ dq +:+ ">" +:+ nl
  +:+ "    " +:+ title +:+ nl
  +:+ "  </text>" +:+ nl
  +:+ "  " +:+ nl
  +:+ "  <g transform=" +:+ dq +:+ "translate(0,40)" +:+ dq +:+ ">" +:+ nl
  +:+ "    " +:+ board_svg +:+ nl
  +:+ "  </g>" +:+ nl
  +:+ "</svg>".

(** A write that is also entered in the log. *)
Definition w_write (dir name content : string) (w : World E)
    : result () * World E :=
  match write_file dir name content (w_fs w) with
  | (Ok tt, fs) =>
      (Ok tt, log_event (EvWrite (path_join dir name) content) (set_fs fs w))
  | (Raise e, fs) => (Raise e, set_fs fs w)
  end.

(** [svg_to_png]: [cairosvg] reads the SVG file and writes the PNG; any
    exception is caught and gives [False]. *)
Definition svg_to_png (dir svg_name png_name : string) (w : World E)
    : bool * World E :=
  if negb HAS_CAIRO then (false, w)
  else match files (w_fs w) !! path_join dir svg_name with
       | None => (false, w)
       | Some svg =>
           match svg2png svg with
           | Raise _ => (false, w)
           | Ok png =>
               match w_write dir png_name png w with
               | (Ok _, w) => (true, w)
               | (Raise _, w) => (false, w)
               end
           end
       end.

Definition step_title (step_num : Z) (move_color san_notation : string)
    (is_checkmate is_check : bool) : string :=
  if is_checkmate
  then "Step " +:+ pretty step_num +:+ ": " +:+ move_color +:+ " plays "
       +:+ san_notation +:+ " - Checkmate! ✓"
  else if is_check
  then "Step " +:+ pretty step_num +:+ ": " +:+ move_color +:+ " plays "
       +:+ san_notation +:+ " +"
  else "Step " +:+ pretty step_num +:+ ": " +:+ move_color +:+ " plays "
       +:+ san_notation.

Definition step_svg_name (step_num : Z) : string :=
  "solution_step" +:+ pretty step_num +:+ ".svg".
Definition step_png_name (step_num : Z) : string :=
  "solution_step" +:+ pretty step_num +:+ ".png".

(** [for i, move in enumerate(solution)] with its [try/except ... break],
    from index [i] on; the loop's variables are [solve_board] and
    [solution_san], and the latter is what the code after the loop reads. *)
Fixpoint render_steps (puzzle_dir : string) (board_orientation : Color)
    (export_png : bool) (i : Z) (solution : list Move) (solve_board : Board)
    (solution_san : list string) (w : World E) : list string * World E :=
  match solution with
  | [] => (solution_san, w)
  | move :: rest =>
      match san solve_board move with
      | Raise _ => (solution_san, w)
      | Ok san_notation =>
          let solution_san := (solution_san ++ [san_notation])%list in
          let move_color :=
            if decide (turn solve_board = White) then "White" else "Black" in
          let solve_board := push solve_board move in
          let step_num := i + 1 in
          let title := step_title step_num move_color san_notation
                         (is_checkmate solve_board) (is_check solve_board) in
          let step_svg_content :=
            create_board_svg_with_title solve_board title (Some move)
              board_orientation 400 in
          match w_write puzzle_dir (step_svg_name step_num) step_svg_content w with
          | (Raise _, w) => (solution_san, w)
          | (Ok _, w) =>
              let w := if export_png && HAS_CAIRO
                       then (svg_to_png puzzle_dir (step_svg_name step_num)
                               (step_png_name step_num) w).2
                       else w in
              render_steps puzzle_dir board_orientation export_png (i + 1)
                rest solve_board solution_san w
          end
      end
  end.

Definition base_name (puzzle_number : Z) : string :=
  "day" +:+ fmt_03d puzzle_number +:+ "_generated".

Definition puzzle_data_text (board : Board) (mate_in : Z) (solution : list Move)
    : string :=
  "FEN: " +:+ fen board +:+ nl
  +:+ "Mate in: " +:+ pretty mate_in +:+ nl
  +:+ "Solution (UCI): " +:+ str_join " " (uci <$> solution) +:+ nl +:+ nl.

Definition save_puzzle (board : Board) (mate_in : Z) (solution : list Move)
    (puzzle_number : Z) (output_dir : string) (export_png : bool)
    (w : World E) : result PuzzleResult * World E :=
  let puzzle_dir := path_join output_dir (base_name puzzle_number) in
  match mkdir_exist_ok output_dir (base_name puzzle_number) (w_fs w) with
  | (Raise e, fs) => (Raise e, set_fs fs w)
  | (Ok _, fs) =>
      let w := set_fs fs w in
      let board_orientation := turn board in
      let title_text := get_title_text board mate_in in
      match w_write puzzle_dir "puzzle_data.txt"
              (puzzle_data_text board mate_in solution) w with
      | (Raise e, w) => (Raise e, w)
      | (Ok _, w) =>
          let puzzle_svg_content :=
            create_board_svg_with_title board title_text None
              board_orientation 400 in
          match w_write puzzle_dir "puzzle.svg" puzzle_svg_content w with
          | (Raise e, w) => (Raise e, w)
          | (Ok _, w) =>
              let w := if export_png && HAS_CAIRO
                       then (svg_to_png puzzle_dir "puzzle.svg" "puzzle.png" w).2
                       else w in
              let '(solution_san, w) :=
                render_steps puzzle_dir board_orientation export_png 0
                  solution board [] w in
              match w_write puzzle_dir "tweet.txt"
                      (tweet_text puzzle_number title_text solution_san) w with
              | (Raise e, w) => (Raise e, w)
              | (Ok _, w) =>
                  (Ok (mkPuzzleResult true mate_in (len solution_san)
                         (mkPath output_dir (base_name puzzle_number))), w)
              end
          end
      end
  end.

End Packager.

(** ** Orchestrator: [main] *)

(** The accumulators of the main loop. *)
Record RunState := mkRun {
  puzzle_count : Z;
  attempts : Z;
  successes : list PuzzleResult;      (* results['success'] *)
  failures : list string              (* results['failed'], the 'error' texts *)
}.

Section Orchestrator.
Context `{RulesEngine Board Move} `{Renderer Board Move} `{Engine E Board Move}.

Definition record_failure (e : exn) (st : RunState) : RunState :=
  mkRun (puzzle_count st) (attempts st) (successes st)
    (failures st ++ [exn_msg e])%list.

(** The [try] block of one pass of the main loop and its
    [except Exception]. *)
Definition iteration (st : RunState) (w : World E) : RunState * World E :=
  match find_puzzle_position 50 w with
  | (Raise e, w) => (record_failure e st, w)
  | (Ok None, w) => (st, w)
  | (Ok (Some (board, mate_in, solution)), w) =>
      (* if board and mate_in and solution *)
      if negb (mate_in =? 0) && negb (bool_decide (solution = [])) then
        let st := mkRun (puzzle_count st + 1) (attempts st) (successes st)
                    (failures st) in
        match save_puzzle board mate_in solution (puzzle_count st)
                OUTPUT_DIR EXPORT_PNG w with
        | (Raise e, w) => (record_failure e st, w)
        | (Ok result, w) =>
            (mkRun (puzzle_count st) (attempts st)
               (successes st ++ [result])%list (failures st), w)
        end
      else (st, w)
  end.

(** [while puzzle_count < NUM_PUZZLES and attempts < max_total_attempts].
    [remaining] is [max_total_attempts - attempts]. *)
Fixpoint main_loop (remaining : nat) (num_puzzles : Z) (st : RunState)
    (w : World E) : RunState * World E :=
  match remaining with
  | O => (st, w)
  | S remaining' =>
      if puzzle_count st <? num_puzzles then
        let st := mkRun (puzzle_count st) (attempts st + 1) (successes st)
                    (failures st) in
        let '(st, w) := iteration st w in
        main_loop remaining' num_puzzles st w
      else (st, w)
  end.

(** [main] from [results = {...}] to its end, for a target of
    [num_puzzles] puzzles: the loop, [engine.quit()], the index file. *)
Definition run (num_puzzles : Z) (now : string) (w : World E)
    : result RunState * World E :=
  let max_total_attempts := num_puzzles * 100 in
  let '(st, w) :=
    main_loop (Z.to_nat max_total_attempts) num_puzzles (mkRun 0 0 [] []) w in
  let '(r, e) := quit (w_engine w) in
  let w := log_event EvQuit (set_engine e w) in
  match r with
  | Raise ex => (Raise ex, w)
  | Ok _ =>
      match w_write OUTPUT_DIR "puzzle_index.txt"
              (index_text now (successes st)) w with
      | (Raise ex, w) => (Raise ex, w)
      | (Ok _, w) => (Ok st, w)
      end
  end.

(** How a call of [main] ends. *)
Inductive MainOutcome :=
| NoStockfish                                   (* binary not found: return *)
| EngineFailed (fs : FS)                        (* popen_uci raised: return *)
| Crashed (e : exn) (fs : FS) (log : list Event)  (* an exception left main *)
| Finished (st : RunState) (w : World E).

(** [stockfish_exists] is [STOCKFISH_PATH.exists()] and [popen_uci] what
    starting the engine gives. *)
Definition main (stockfish_exists : bool) (popen_uci : result E)
    (now : string) (g : Rng) (fs : FS) : MainOutcome :=
  if negb stockfish_exists then NoStockfish
  else match mkdir_exist_ok "." OUTPUT_DIR fs with
       | (Raise e, fs) => Crashed e fs []
       | (Ok _, fs) =>
           match popen_uci with
           | Raise _ => EngineFailed fs
           | Ok engine =>
               match run NUM_PUZZLES now (mkWorld engine g fs []) with
               | (Raise e, w) => Crashed e (w_fs w) (w_log w)
               | (Ok st, w) => Finished st w
               end
           end
       end.

End Orchestrator.

(** ** A toy world

    A small rules engine, engine and renderer to run the program on.  Moves
    are their destination squares; Black to move may always play to h8 (63),
    which is checkmate, and White has no mating move.  So a position with
    Black to move is a mate in one for the side to move, and a position with
    White to move is lost in one. *)
Module Toy.

Definition Board : Type := list Z.        (* the moves played, latest first *)
Definition Move : Type := Z.

Definition side_to_move (b : Board) : Color :=
  if Nat.even (length b) then White else Black.

Definition mated (b : Board) : bool :=
  match b with
  | 63 :: _ => true
  | _ => false
  end.

(** d4, e4, d5 (a capture), a2, and h8 for Black. *)
Definition moves_of (b : Board) : list Move :=
  if mated b then []
  else match side_to_move b with
       | White => [27; 28; 35; 8]
       | Black => [27; 28; 35; 8; 63]
       end.

Definition notation (b : Board) (m : Move) : result string :=
  if bool_decide (m ∈ moves_of b)
  then Ok (if m =? 63 then "Qh8#" else "M" +:+ pretty m)
  else Raise (Exception "IllegalMoveError" (pretty m)).

Global Instance rules : RulesEngine Board Move := {|
  start_board := [];
  legal_moves := moves_of;
  push b m := m :: b;
  is_game_over := mated;
  is_checkmate := mated;
  is_check := mated;
  is_capture b m := m =? 35;
  turn := side_to_move;
  to_square m := m;
  fen b := "toy " +:+ pretty (length b);
  uci m := pretty m;
  san := notation
|}.

Global Instance renderer : Renderer Board Move := {|
  svg_board b size last_move orientation := "<svg/>";
  HAS_CAIRO := true;
  svg2png svg := Ok ("PNG " +:+ svg)
|}.

(** An engine that tells the truth about the toy game; its state counts
    the requests served. *)
Definition truthful_analyse (e : nat) (b : Board) (depth : Z)
    : result (Info Move) * nat :=
  (Ok (if mated b
       then mkInfo (Some (mkPovScore (Mate 0) (side_to_move b))) (Some [])
       else match side_to_move b with
            | Black => mkInfo (Some (mkPovScore (Mate 1) Black)) (Some [63])
            | White => mkInfo (Some (mkPovScore (Mate (-1)) White)) (Some [8; 63])
            end), S e).

Global Instance truthful : Engine nat Board Move := {|
  analyse := truthful_analyse;
  quit e := (Ok (), e)
|}.

(** An engine that raises on every request. *)
Definition broken : Engine nat Board Move := {|
  analyse e b depth := (Raise (Exception "EngineTerminatedError" "engine process died"), S e);
  quit e := (Ok (), e)
|}.

(** A tape whose draws never collide, and the tape of zeros. *)
Definition spread (offset : nat) : Rng :=
  mkRng (fun i => N.of_nat (i + offset) * 2 ^ 40)%N 0.
Definition zeros : Rng := mkRng (fun _ => 0%N) 0.

(** A tape that plays the top-scored move at every ply: after the first
    cell, read by [randint], White's four score draws and choice and
    Black's five score draws and choice repeat. *)
Definition steady_cells : list N := [1; 2; 3; 4; 0; 1; 2; 3; 4; 5; 0]%N.
Definition steady (first : N) : Rng :=
  mkRng (fun i => match i with
                  | O => first
                  | S j => (nth (j mod 11) steady_cells 0 * 2 ^ 40)%N
                  end) 0.

Definition disk : FS := mkFS {[ OUTPUT_DIR ]} ∅ (fun _ => false).

(** The same disk with one path that cannot be written. *)
Definition disk_failing (path : string) : FS :=
  mkFS {[ OUTPUT_DIR ]} ∅ (fun p => bool_decide (p = path)).

(** The position after fifteen and sixteen captures on d5. *)
Definition board15 : Board := replicate 15 35.
Definition board16 : Board := replicate 16 35.

Definition world (g : Rng) : World nat := mkWorld 0%nat g disk [].

End Toy.

(** ** Vocabulary of the properties *)

(** The [i]-th next draw of the tape, read as [random.random()] reads it. *)
Definition draw (g : Rng) (i : nat) : PyFloat.t :=
  Z.of_N (tape g (cursor g + i)) mod 2 ^ 53.

(** The tape after [n] more cells were consumed. *)
Definition advance (n : nat) (g : Rng) : Rng := mkRng (tape g) (cursor g + n).

(** d4, e4, d5, e5: files d/e, ranks 4/5. *)
Definition central_squares : list Z := [27; 28; 35; 36].

Section Vocabulary.
Context `{RulesEngine Board Move}.

(** The score the policy gives a move for the draw [r]: the draw, plus 1.0
    for a capture, plus 0.5 for a central destination during the first ten
    plies (float additions, in this order). *)
Definition spec_score (board : Board) (ply : Z) (move : Move) (r : PyFloat.t)
    : PyFloat.t :=
  let s := if is_capture board move then PyFloat.add r PyFloat.one else r in
  if bool_decide (ply < 10 ∧ to_square move ∈ central_squares)
  then PyFloat.add s PyFloat.half else s.

(** Strictly descending by score. *)
Definition score_gt (a b : scored Move) : Prop := b.1 < a.1.

(** A position the generator does not move on from. *)
Definition terminal (b : Board) : Prop :=
  is_game_over b = true ∨ legal_moves b = [].

(** [played b line b']: [line] is a game from [b] to [b'] in which every
    move is legal where it is made and no position moved on from is
    game-over. *)
Inductive played : Board -> list Move -> Board -> Prop :=
| played_nil b : played b [] b
| played_cons b m line b' :
    is_game_over b = false ->
    m ∈ legal_moves b ->
    played (push b m) line b' ->
    played b (m :: line) b'.


(** The positive mate distance and the line an engine answer reports, if
    any: the size of the score's mate count (which is signed by the side
    to move) and the principal variation. *)
Definition reports_mate (r : result (Info Move)) (M : Z) (pv : list Move) : Prop :=
  ∃ info score moves,
    r = Ok info ∧ info_score info = Some score
    ∧ score_mate (relative score) = Some moves
    ∧ M = Z.abs moves ∧ pv = default [] (info_pv info).

End Vocabulary.

(** The events of a log that are [ev]. *)
Definition count_event (ev : Event) (log : list Event) : nat :=
  length (List.filter (fun x => bool_decide (x = ev)) log).

(** The path an event wrote to. *)
Definition event_path (ev : Event) : option string :=
  match ev with
  | EvWrite path _ => Some path
  | _ => None
  end.

Section PackagerVocabulary.
Context `{RulesEngine Board Move} `{Renderer Board Move}.

Definition step_svg_path (puzzle_dir : string) (step_num : Z) : string :=
  path_join puzzle_dir (step_svg_name step_num).

(** A write of the diagram of one of the steps 1..n. *)
Definition is_step_diagram (puzzle_dir : string) (n : nat) (ev : Event) : bool :=
  match event_path ev with
  | Some p =>
      bool_decide (p ∈ (fun j => step_svg_path puzzle_dir (Z.of_nat j)) <$> seq 1 n)
  | None => false
  end.

(** How many step diagrams a log shows as written. *)
Definition diagrams_rendered (puzzle_dir : string) (n : nat)
    (log : list Event) : nat :=
  length (List.filter (is_step_diagram puzzle_dir n) log).

(** A write to [dir / name] goes through on this disk. *)
Definition can_write (fs : FS) (dir name : string) : bool :=
  bool_decide (dir = "." ∨ dir ∈ dirs fs)
  && negb (bool_decide (path_join dir name ∈ dirs fs))
  && negb (unwritable fs (path_join dir name)).

(** [(parent / name).mkdir(exist_ok=True)] goes through on this disk. *)
Definition can_mkdir (fs : FS) (parent name : string) : bool :=
  bool_decide (path_join parent name ∈ dirs fs)
  || (negb (bool_decide (is_Some (files fs !! path_join parent name)))
      && bool_decide (parent = "." ∨ parent ∈ dirs fs)
      && negb (unwritable fs (path_join parent name))).

(** The colour named in the title of the diagram of step [i] (from 0):
    the side to move before the step's move. *)
Definition title_color (board : Board) (solution : list Move) (i : nat) : string :=
  let solve_board := push_all board (take i solution) in
  if decide (turn solve_board = White) then "White" else "Black".

(** The algebraic notation of the moves of a line, up to the first that
    does not convert. *)
Fixpoint san_line (b : Board) (line : list Move) : list string :=
  match line with
  | [] => []
  | m :: rest =>
      match san b m with
      | Ok s => s :: san_line (push b m) rest
      | Raise _ => []
      end
  end.

End PackagerVocabulary.

(** ** Vocabulary of the proofs *)

Section ProofVocabulary.
Context `{RulesEngine Board Move} `{Renderer Board Move}.

(** The candidates of a step: every legal move with its score. *)
Definition candidates (board : Board) (ply : Z) (g : Rng) : list (scored Move) :=
  imap (fun i mv => (spec_score board ply mv (draw g i), mv)) (legal_moves board).

(** The diagram the loop writes for step [j] (from 0) of a line started
    at [solve_board], numbered from [i + 1]. *)
Definition step_diagram (orientation : Color) (i : Z) (solve_board : Board)
    (solution : list Move) (j : nat) (san_notation : string) : string :=
  let after_move := push_all solve_board (take (S j) solution) in
  create_board_svg_with_title after_move
    (step_title (i + Z.of_nat j + 1) (title_color solve_board solution j)
       san_notation (is_checkmate after_move) (is_check after_move))
    (solution !! j) orientation 400.

End ProofVocabulary.

(** The world after more files [O] were written over the old ones and the
    events [L] were logged. *)
Definition after {E} (w : World E) (O : gmap string string) (L : list Event)
    : World E :=
  mkWorld (w_engine w) (w_rng w)
    (mkFS (dirs (w_fs w)) (O ∪ files (w_fs w)) (unwritable (w_fs w)))
    (w_log w ++ L)%list.

(** Two worlds whose disks have the same directories and the same faults. *)
Definition same_disk {E} (w0 w : World E) : Prop :=
  dirs (w_fs w) = dirs (w_fs w0) ∧ unwritable (w_fs w) = unwritable (w_fs w0).

Section PngEffect.
Context `{Renderer Board Move}.

(** What [svg_to_png] adds for an SVG text [svg]. *)
Definition png_effect (fs : FS) (dir png_name svg : string)
    : gmap string string * list Event :=
  if negb HAS_CAIRO then (∅, [])
  else match svg2png svg with
       | Raise _ => (∅, [])
       | Ok png =>
           if can_write fs dir png_name
           then ({[ path_join dir png_name := png ]},
                 [EvWrite (path_join dir png_name) png])
           else (∅, [])
       end.
End PngEffect.

Section BaseOk.
Context `{RulesEngine Board Move} `{Renderer Board Move}.
(** The three files outside the step loop can be written. *)
Definition base_ok (fs : FS) (puzzle_dir : string) : bool :=
  can_write fs puzzle_dir "puzzle_data.txt"
  && can_write fs puzzle_dir "puzzle.svg"
  && can_write fs puzzle_dir "tweet.txt".
End BaseOk.

(** The disk once the directory [p] exists. *)
Definition fs_with_dir (fs : FS) (p : string) : FS :=
  mkFS ({[ p ]} ∪ dirs fs) (files fs) (unwritable fs).

(** [OUTPUT_DIR / "puzzle_index.txt"] *)
Definition index_path : string := path_join OUTPUT_DIR "puzzle_index.txt".

(** An event of the main loop: a search started, an evaluation requested, or
    a file written inside a puzzle directory. *)
Definition loop_event (ev : Event) : Prop :=
  ev = EvFind ∨ ev = EvAnalyse
  ∨ ∃ number name content,
      ev = EvWrite (path_join (path_join OUTPUT_DIR (base_name number)) name) content.

(** A write inside the directory [dir]. *)
Definition under (dir : string) (ev : Event) : Prop :=
  ∃ name content, ev = EvWrite (path_join dir name) content.

(** A function on worlds that only adds writes inside [dir] to the log. *)
Definition logs_under {E A} (dir : string) (f : World E -> A * World E) : Prop :=
  ∀ w, ∃ L, w_log (f w).2 = (w_log w ++ L)%list ∧ Forall (under dir) L.

(** The search of the toy world with the truthful engine. *)
Definition toy_find (g : Rng)
    : result (option (Toy.Board * Z * list Toy.Move)) * World nat :=
  @find_puzzle_position _ _ Toy.rules _ Toy.truthful 50 (Toy.world g).

(** Packaging puzzle number 1 of the toy world on the disk [fs]. *)
Definition toy_save (fs : FS) (board : Toy.Board) (mate_in : Z)
    (solution : list Toy.Move) : result PuzzleResult * World nat :=
  @save_puzzle _ _ Toy.rules Toy.renderer nat board mate_in solution 1
    OUTPUT_DIR true (mkWorld 0%nat Toy.zeros fs []).

Definition toy_dir : string := path_join OUTPUT_DIR (base_name 1).

(** A run of the toy world for a target of [num_puzzles] puzzles. *)
Definition toy_run (num_puzzles : Z) (g : Rng) : result RunState * World nat :=
  @run _ _ Toy.rules Toy.renderer _ Toy.truthful num_puzzles
    "2026-01-01 00:00:00" (Toy.world g).

(** ** Vocabulary of the further properties *)

(** The number a string of decimal digits denotes, together with the
    weight [10 ^ length] of its first digit's left neighbour. *)
Definition digit_value (c : ascii) : N := (N_of_ascii c - 48)%N.

Fixpoint digits_value (s : string) : N * N :=
  match s with
  | EmptyString => (0, 1)%N
  | String c rest =>
      let '(v, weight) := digits_value rest in
      (digit_value c * weight + v, 10 * weight)%N
  end.

(** The names of the files of a puzzle directory: the three fixed files,
    the diagrams of the steps [1..steps] and, when PNG export is on, the
    PNG of each diagram. *)
Definition artifact_name (png : bool) (steps : Z) (name : string) : Prop :=
  name = "puzzle_data.txt" ∨ name = "puzzle.svg" ∨ name = "tweet.txt"
  ∨ (∃ k, 1 <= k <= steps ∧ name = step_svg_name k)
  ∨ (png = true
     ∧ (name = "puzzle.png" ∨ ∃ k, 1 <= k <= steps ∧ name = step_png_name k)).

(** [w'] is [w] after some files at paths in [P] were written: nothing
    else changed, and no file went away. *)
Definition writes_only {E} (P : string -> Prop) (w w' : World E) : Prop :=
  w_engine w' = w_engine w ∧ w_rng w' = w_rng w
  ∧ dirs (w_fs w') = dirs (w_fs w)
  ∧ unwritable (w_fs w') = unwritable (w_fs w)
  ∧ (∀ p, files (w_fs w') !! p = files (w_fs w) !! p
          ∨ (P p ∧ is_Some (files (w_fs w') !! p)))
  ∧ ∃ L, w_log w' = (w_log w ++ L)%list
         ∧ Forall (fun ev => ∃ p c, ev = EvWrite p c ∧ P p) L.

(** An entry of the success list as the loop makes them. *)
Definition result_ok (r : PuzzleResult) : Prop :=
  success r = true ∧ 1 <= mate_in r <= 3
  ∧ 0 <= solution_moves r <= 2 * mate_in r.

(** The folder of puzzle number [n]. *)
Definition folder_of (n : Z) : Path := mkPath OUTPUT_DIR (base_name n).

(** What the accumulators of the main loop satisfy between two passes;
    [numbers] are the puzzle numbers of the successes, in order. *)
Definition accounted (st : RunState) (numbers : list Z) : Prop :=
  len (successes st) <= puzzle_count st
                     <= len (successes st) + len (failures st)
  ∧ len (successes st) + len (failures st) <= attempts st
  ∧ Forall result_ok (successes st)
  ∧ folder <$> successes st = folder_of <$> numbers
  ∧ StronglySorted Z.lt numbers
  ∧ ∀ i n, numbers !! i = Some n ->
      Z.of_nat i + 1 <= n
      <= puzzle_count st - (len (successes st) - 1 - Z.of_nat i).

Ltac in_list := apply list_elem_of_In; simpl; tauto.

(** * Properties *)

(** ** Python values *)

Lemma py_take_nonneg {A} (n : Z) (l : list A) :
  0 <= n -> py_take n l = take (Z.to_nat n) l.
Proof. intros Hn. unfold py_take. case_match; [done | lia]. Qed.

Lemma len_nonneg {A} (l : list A) : 0 <= len l.
Proof. unfold len. lia. Qed.

Lemma top_slice {A} (l : list A) :
  py_take (Z.min 5 (len l)) l = take (5 `min` length l) l.
Proof.
  rewrite py_take_nonneg by (pose proof (len_nonneg l); lia).
  f_equal. unfold len. lia.
Qed.

(** Ordinals below 1000 are printed on exactly three digits. *)
Lemma fmt_03d_width (n : Z) : 0 <= n < 1000 -> String.length (fmt_03d n) = 3%nat.
Proof.
  intros Hn.
  assert (forallb (fun k => String.length (fmt_03d (Z.of_nat k)) =? 3)%nat
            (seq 0 1000) = true) as Hall by (vm_compute; reflexivity).
  rewrite forallb_forall in Hall.
  specialize (Hall (Z.to_nat n)). rewrite Z2Nat.id in Hall by lia.
  apply Nat.eqb_eq, Hall, in_seq. lia.
Qed.

Example fmt_03d_examples :
  fmt_03d 7 = "007" ∧ fmt_03d 42 = "042" ∧ fmt_03d 200 = "200"
  ∧ fmt_03d 1234 = "1234" ∧ fmt_03d (-5) = "-05".
Proof. repeat split; vm_compute; reflexivity. Qed.

(** ** Floats *)

(** The largest draw plus [1.0] rounds up to [2.0]; an odd draw plus [1.0]
    falls half-way between two doubles and goes to the one with the even
    significand. *)
Example add_exact_below_two : PyFloat.add (2 ^ 53 - 2) PyFloat.one = 2 ^ 54 - 2.
Proof. reflexivity. Qed.

Example add_reaches_two : PyFloat.add (2 ^ 53 - 1) PyFloat.one = 2 ^ 54.
Proof. reflexivity. Qed.

Example add_tie_to_even_up : PyFloat.add 3 PyFloat.one = 2 ^ 53 + 4.
Proof. reflexivity. Qed.

Example add_tie_to_even_down : PyFloat.add 1 PyFloat.one = 2 ^ 53.
Proof. reflexivity. Qed.

Lemma round_to_near (g x : Z) :
  0 < g -> 2 * Z.abs (PyFloat.round_to g x - x) <= g.
Proof.
  intros Hg. unfold PyFloat.round_to.
  pose proof (Z.div_mod x g ltac:(lia)) as Hdm.
  pose proof (Z.mod_pos_bound x g Hg) as Hm.
  repeat case_match; lia.
Qed.

Lemma round_to_multiple (g x : Z) : 0 < g -> (g | PyFloat.round_to g x).
Proof.
  intros Hg. unfold PyFloat.round_to.
  repeat case_match; apply Z.divide_factor_r.
Qed.

(** A sum below 1.0 is exact; any other sum that occurs is off by at most
    two units of [2^-53]. *)
Lemma round_exact (x : Z) : x < 2 ^ 53 -> PyFloat.round x = x.
Proof. intros Hx. unfold PyFloat.round. case_match; lia. Qed.

Lemma round_near (x : Z) : Z.abs (PyFloat.round x - x) <= 2.
Proof.
  unfold PyFloat.round. case_match; [lia|]. case_match.
  - pose proof (round_to_near 2 x ltac:(lia)). lia.
  - pose proof (round_to_near 4 x ltac:(lia)). lia.
Qed.

Lemma round_to_mono (g x y : Z) :
  0 < g -> x <= y -> PyFloat.round_to g x <= PyFloat.round_to g y.
Proof.
  intros Hg Hxy.
  destruct (decide (x / g = y / g)) as [Heq|Hne].
  - unfold PyFloat.round_to. rewrite Heq.
    pose proof (Z.div_mod x g ltac:(lia)) as Hx.
    pose proof (Z.div_mod y g ltac:(lia)) as Hy.
    rewrite Heq in Hx.
    assert (x mod g <= y mod g) by lia.
    repeat case_match; nia.
  - assert (x / g < y / g).
    { pose proof (Z.div_le_mono x y g Hg Hxy). lia. }
    assert (PyFloat.round_to g x <= (x / g + 1) * g).
    { unfold PyFloat.round_to. repeat case_match; nia. }
    assert (y / g * g <= PyFloat.round_to g y).
    { unfold PyFloat.round_to. repeat case_match; nia. }
    nia.
Qed.

(** Rounding keeps the order of the exact sums. *)
Lemma round_mono (x y : Z) : x <= y -> PyFloat.round x <= PyFloat.round y.
Proof.
  intros Hxy. unfold PyFloat.round.
  destruct (x <? 2 ^ 53) eqn:Hx53, (y <? 2 ^ 53) eqn:Hy53; try lia.
  - (* x below 1.0, y not *)
    assert (2 ^ 53 <= PyFloat.round_to 2 y ∨ 2 ^ 54 <= y) as Hy.
    { destruct (decide (y < 2 ^ 54)); [left|right; lia].
      pose proof (round_to_mono 2 (2 ^ 53) y ltac:(lia) ltac:(lia)) as Hm.
      replace (PyFloat.round_to 2 (2 ^ 53)) with (2 ^ 53) in Hm by (vm_compute; reflexivity).
      exact Hm. }
    destruct (y <? 2 ^ 54) eqn:Hy54.
    + destruct Hy; lia.
    + pose proof (round_to_mono 4 (2 ^ 54) y ltac:(lia) ltac:(lia)) as Hm.
      replace (PyFloat.round_to 4 (2 ^ 54)) with (2 ^ 54) in Hm by (vm_compute; reflexivity).
      lia.
  - destruct (x <? 2 ^ 54) eqn:Hx54, (y <? 2 ^ 54) eqn:Hy54; try lia.
    + by apply round_to_mono.
    + pose proof (round_to_mono 2 x (2 ^ 54) ltac:(lia) ltac:(lia)) as Hm1.
      replace (PyFloat.round_to 2 (2 ^ 54)) with (2 ^ 54) in Hm1 by (vm_compute; reflexivity).
      pose proof (round_to_mono 4 (2 ^ 54) y ltac:(lia) ltac:(lia)) as Hm2.
      replace (PyFloat.round_to 4 (2 ^ 54)) with (2 ^ 54) in Hm2 by (vm_compute; reflexivity).
      lia.
    + by apply round_to_mono.
Qed.

Section ScoreFacts.
Context `{RulesEngine Board Move}.

(** The score is the draw plus the two bonuses, up to the rounding of the
    two additions: four units of [2^-53] at most. *)
Lemma spec_score_near (board : Board) (ply : Z) (move : Move) (r : PyFloat.t) :
  let capture := if is_capture board move then PyFloat.one else 0 in
  let centre := if bool_decide (ply < 10 ∧ to_square move ∈ central_squares)
                then PyFloat.half else 0 in
  Z.abs (spec_score board ply move r - (r + capture + centre)) <= 4.
Proof.
  cbv zeta. unfold spec_score, PyFloat.add.
  destruct (is_capture board move); case_bool_decide.
  - pose proof (round_near (r + PyFloat.one)).
    pose proof (round_near (PyFloat.round (r + PyFloat.one) + PyFloat.half)). lia.
  - pose proof (round_near (r + PyFloat.one)). lia.
  - pose proof (round_near (r + PyFloat.half)). lia.
  - lia.
Qed.

End ScoreFacts.

(** ** The random module *)

Lemma random_spec g : random g = (draw g 0, advance 1 g).
Proof.
  unfold random, rng_next, draw, advance. simpl.
  by rewrite !Nat.add_0_r, Nat.add_1_r.
Qed.

Lemma draw_range g i : 0 <= draw g i < PyFloat.one.
Proof. unfold draw, PyFloat.one. apply Z.mod_pos_bound. lia. Qed.

Lemma draw_advance n g i : draw (advance n g) i = draw g (n + i).
Proof. unfold draw, advance. simpl. by rewrite Nat.add_assoc. Qed.

Lemma advance_advance n m g : advance n (advance m g) = advance (m + n) g.
Proof. unfold advance. simpl. by rewrite Nat.add_assoc. Qed.

Lemma advance_0 g : advance 0 g = g.
Proof. destruct g. unfold advance. simpl. by rewrite Nat.add_0_r. Qed.

Lemma randint_range a b g :
  a <= b -> ∃ n, (randint a b g).1 = Ok n ∧ a <= n <= b ∧ (randint a b g).2 = advance 1 g.
Proof.
  intros Hab. unfold randint, rng_next.
  destruct (b <? a) eqn:E; [lia|]. simpl.
  eexists. split; [done|]. split.
  - pose proof (Z.mod_pos_bound (Z.of_N (tape g (cursor g))) (b - a + 1)). lia.
  - unfold advance. by rewrite Nat.add_1_r.
Qed.

Lemma choice_spec {A} (seq : list A) g :
  seq ≠ [] ->
  ∃ k x, (k < length seq)%nat ∧ seq !! k = Some x
         ∧ k = N.to_nat (tape g (cursor g) mod N.of_nat (length seq))
         ∧ choice seq g = (Ok x, advance 1 g).
Proof.
  intros Hne. destruct seq as [|x0 rest]; [done|].
  unfold choice, choice_index, rng_next.
  set (n := length (x0 :: rest)).
  set (k := N.to_nat (tape g (cursor g) mod N.of_nat n)).
  assert (Hk : (k < n)%nat).
  { subst k. assert (N.of_nat n ≠ 0%N) by (subst n; simpl; lia).
    pose proof (N.mod_lt (tape g (cursor g)) (N.of_nat n) H). lia. }
  destruct (lookup_lt_is_Some_2 (x0 :: rest) k Hk) as [x Hx].
  exists k, x. repeat split; try done.
  f_equal; [|unfold advance; by rewrite Nat.add_1_r].
  f_equal. by apply nth_lookup_Some.
Qed.

Lemma choice_any {A} (seq : list A) (tp : nat -> N) (c k : nat) :
  (k < length seq)%nat ->
  tp c = N.of_nat k ->
  ∃ x, seq !! k = Some x ∧ (choice seq (mkRng tp c)).1 = Ok x.
Proof.
  intros Hk Htp.
  destruct (choice_spec seq (mkRng tp c)) as (k' & x & Hk' & Hx & Hkk & Hc).
  { intros ->. simpl in Hk. lia. }
  simpl in Hkk. rewrite Htp in Hkk.
  rewrite N.mod_small in Hkk by lia. rewrite Nat2N.id in Hkk. subst k'.
  exists x. by rewrite Hc.
Qed.

(** ** The Position Generator *)

Section GeneratorFacts.
Context `{RulesEngine Board Move}.

Lemma in_center_iff (move : Move) :
  in_center move = true ↔ to_square move ∈ central_squares.
Proof.
  unfold in_center, central_squares, square_file, square_rank.
  set (sq := to_square move).
  change 7 with (Z.ones 3). rewrite Z.land_ones by lia.
  rewrite Z.shiftr_div_pow2 by lia.
  change (2 ^ 3) with 8.
  rewrite andb_true_iff, !orb_true_iff, !Z.eqb_eq.
  rewrite !elem_of_cons, elem_of_nil.
  pose proof (Z.div_mod sq 8 ltac:(lia)).
  pose proof (Z.mod_pos_bound sq 8 ltac:(lia)).
  lia.
Qed.

Lemma score_move_spec board ply move g :
  score_move board ply move g
  = ((spec_score board ply move (draw g 0), move), advance 1 g).
Proof.
  unfold score_move, spec_score. rewrite random_spec.
  f_equal. f_equal.
  destruct (ply <? 10) eqn:Hp; simpl.
  - destruct (in_center move) eqn:Hc.
    + rewrite bool_decide_eq_true_2; [done|].
      split; [lia|]. by apply in_center_iff.
    + rewrite bool_decide_eq_false_2; [done|].
      intros [_ Hin]. apply in_center_iff in Hin. congruence.
  - rewrite bool_decide_eq_false_2; [done|]. lia.
Qed.

Lemma score_moves_spec board ply legal g :
  score_moves board ply legal g
  = (imap (fun i mv => (spec_score board ply mv (draw g i), mv)) legal,
     advance (length legal) g).
Proof.
  revert g. induction legal as [|mv rest IH]; intros g; cbn [score_moves].
  - by rewrite advance_0.
  - rewrite score_move_spec. rewrite IH. simpl. f_equal.
    + f_equal. apply imap_ext. intros i x _. simpl.
      by rewrite draw_advance.
    + by rewrite advance_advance.
Qed.

Lemma has_tie_false (l : list (scored Move)) :
  has_tie l = false ↔ NoDup (l.*1).
Proof.
  induction l as [|x rest IH]; simpl.
  - split; [constructor | done].
  - rewrite orb_false_iff, IH, NoDup_cons. 
    assert (existsb (fun y => PyFloat.eqb x.1 y.1) rest = false ↔ x.1 ∉ rest.*1) as ->; [|done].
    rewrite <- not_true_iff_false, existsb_exists.
    split.
    + intros Hn Hin. apply list_elem_of_fmap in Hin as (y & Hy & Hin).
      apply Hn. exists y. split; [by apply list_elem_of_In|].
      unfold PyFloat.eqb. rewrite Hy. apply Z.eqb_refl.
    + intros Hn (y & Hin & Hy). apply Hn.
      unfold PyFloat.eqb in Hy. apply Z.eqb_eq in Hy. rewrite Hy.
      apply list_elem_of_fmap. exists y. split; [done|]. by apply list_elem_of_In.
Qed.

Global Instance score_ge_trans : Transitive (@score_ge Move).
Proof. intros a b c. unfold score_ge. lia. Qed.

Global Instance score_ge_total : Total (@score_ge Move).
Proof. intros a b. unfold score_ge. lia. Qed.

Lemma strictly_sorted (l : list (scored Move)) :
  StronglySorted score_ge l -> NoDup (l.*1) -> StronglySorted score_gt l.
Proof.
  induction 1 as [|x rest Hs IH Hall]; intros Hnd; [constructor|].
  simpl in Hnd. apply NoDup_cons in Hnd as [Hx Hnd].
  constructor; [by apply IH|].
  apply Forall_forall. intros y Hy.
  rewrite Forall_forall in Hall. specialize (Hall y Hy).
  unfold score_ge in Hall. unfold score_gt.
  assert (y.1 ≠ x.1); [|lia].
  intros Heq. apply Hx. rewrite <- Heq.
  apply list_elem_of_fmap. eauto.
Qed.

Lemma py_sort_reverse_ok (l s : list (scored Move)) :
  py_sort_reverse l = Ok s -> s ≡ₚ l ∧ StronglySorted score_gt s.
Proof.
  unfold py_sort_reverse. destruct (has_tie l) eqn:Ht; [done|].
  intros [= <-]. split; [apply merge_sort_Permutation|].
  apply strictly_sorted.
  - apply (StronglySorted_merge_sort _).
  - apply has_tie_false in Ht. by rewrite merge_sort_Permutation.
Qed.

Lemma py_sort_reverse_tie (l : list (scored Move)) :
  is_ok (py_sort_reverse l) = negb (has_tie l).
Proof. unfold py_sort_reverse. by destruct (has_tie l). Qed.

Lemma py_sort_reverse_raise (l : list (scored Move)) e :
  py_sort_reverse l = Raise e -> e = move_not_orderable ∧ has_tie l = true.
Proof.
  unfold py_sort_reverse. destruct (has_tie l); [|done].
  by intros [= <-].
Qed.

End GeneratorFacts.

Section GeneratorProps.
Context `{RulesEngine Board Move}.


Lemma candidates_length board ply g :
  length (candidates board ply g) = length (legal_moves board).
Proof. unfold candidates. apply length_imap. Qed.

Lemma choose_move_unfold board ply g :
  choose_move board ply g =
  let n := length (legal_moves board) in
  match py_sort_reverse (candidates board ply g) with
  | Raise e => (Raise e, advance n g)
  | Ok ranked =>
      match choice (take (5 `min` length ranked) ranked) (advance n g) with
      | (Raise e, g) => (Raise e, g)
      | (Ok chosen, g) => (Ok chosen.2, g)
      end
  end.
Proof.
  unfold choose_move. rewrite score_moves_spec. fold (candidates board ply g).
  simpl. destruct (py_sort_reverse _); [|done].
  by rewrite top_slice.
Qed.

Lemma choose_move_ok board ply g m g' :
  choose_move board ply g = (Ok m, g') ->
  let n := length (legal_moves board) in
  ∃ ranked,
    ranked ≡ₚ candidates board ply g
    ∧ StronglySorted score_gt ranked
    ∧ let top := take (5 `min` n) ranked in
      let k := N.to_nat (tape g (cursor g + n) mod N.of_nat (length top)) in
      length top = (5 `min` n)%nat
      ∧ (k < length top)%nat
      ∧ top.*2 !! k = Some m
      ∧ g' = advance (n + 1) g.
Proof.
  rewrite choose_move_unfold. cbv zeta.
  destruct (py_sort_reverse _) as [ranked|] eqn:Hs; [|done].
  apply py_sort_reverse_ok in Hs as [Hp Hsorted].
  assert (Hlen : length ranked = length (legal_moves board)).
  { by rewrite Hp, candidates_length. }
  rewrite Hlen.
  set (top := take _ ranked).
  destruct (decide (top = [])) as [Hnil|Hne].
  { rewrite Hnil. simpl. done. }
  destruct (choice_spec top (advance (length (legal_moves board)) g) Hne)
    as (k & x & Hk & Hx & Hkk & Hc).
  rewrite Hc. intros [= <- <-].
  exists ranked. split; [done|]. split; [done|].
  simpl in Hkk. cbv zeta. fold top. rewrite <- Hkk.
  split; [|split; [done|split]].
  - subst top. rewrite length_take. lia.
  - by rewrite list_lookup_fmap, Hx.
  - by rewrite advance_advance.
Qed.

Lemma choose_move_raise board ply g e g' :
  legal_moves board ≠ [] ->
  choose_move board ply g = (Raise e, g') ->
  e = move_not_orderable ∧ has_tie (candidates board ply g) = true.
Proof.
  intros Hlegal. rewrite choose_move_unfold. cbv zeta.
  destruct (py_sort_reverse _) as [ranked|e'] eqn:Hs.
  - apply py_sort_reverse_ok in Hs as [Hp _].
    set (top := take _ ranked).
    assert (Hne : top ≠ []).
    { subst top. intros Hnil. apply (f_equal length) in Hnil.
      rewrite length_take in Hnil. change (length []) with 0%nat in Hnil.
      assert (length ranked = length (legal_moves board))
        by (by rewrite Hp, candidates_length).
      assert (length (legal_moves board) ≠ 0%nat)
        by (destruct (legal_moves board); simpl; [done|lia]).
      lia. }
    destruct (choice_spec top (advance (length (legal_moves board)) g) Hne)
      as (k & x & _ & _ & _ & Hc).
    by rewrite Hc.
  - intros [= <- <-]. by apply py_sort_reverse_raise.
Qed.

Lemma choose_move_returns board ply g :
  legal_moves board ≠ [] ->
  has_tie (candidates board ply g) = false ->
  ∃ m, (choose_move board ply g).1 = Ok m.
Proof.
  intros Hlegal Htie.
  destruct (choose_move board ply g) as [[m|e] g'] eqn:Hc; [by exists m|].
  apply choose_move_raise in Hc as [_ Hc]; [congruence | done].
Qed.

Lemma choose_move_legal board ply g m g' :
  choose_move board ply g = (Ok m, g') -> m ∈ legal_moves board.
Proof.
  intros Hc. apply choose_move_ok in Hc as (ranked & Hp & _ & Htop).
  cbv zeta in Htop. destruct Htop as (_ & _ & Hm & _).
  apply list_elem_of_lookup_2 in Hm.
  apply list_elem_of_fmap in Hm as ([s m'] & -> & Hin).
  apply elem_of_take in Hin as (i & Hin & _).
  apply list_elem_of_lookup_2 in Hin. rewrite Hp in Hin.
  unfold candidates in Hin. apply elem_of_lookup_imap in Hin as (i' & mv & [= _ ->] & Hmv).
  simpl. by eapply list_elem_of_lookup_2.
Qed.

Lemma played_snoc b line b' m :
  played b line b' -> is_game_over b' = false -> m ∈ legal_moves b' ->
  played b (line ++ [m]) (push b' m).
Proof.
  induction 1; intros Hover Hm; simpl.
  - apply played_cons; [done..|constructor].
  - apply played_cons; auto.
Qed.

Lemma played_push_all b line b' : played b line b' -> b' = push_all b line.
Proof. induction 1; [done|]. simpl. done. Qed.

(** The loop, from any position. *)
Lemma play_outcome remaining board ply g :
  match play remaining board ply g with
  | (Ok b', _) =>
      ∃ line, played board line b'
              ∧ (length line <= remaining)%nat
              ∧ ((length line < remaining)%nat -> terminal b')
  | (Raise e, _) =>
      e = move_not_orderable
      ∧ ∃ line b1 g1, played board line b1
                      ∧ has_tie (candidates b1 (ply + len line) g1) = true
  end.
Proof.
  revert board ply g. induction remaining as [|r IH]; intros board ply g; simpl.
  - exists []. split; [constructor|]. simpl. split; lia.
  - destruct (is_game_over board) eqn:Hover.
    { exists []. split; [constructor|]. simpl. split; [lia|]. intros _. by left. }
    destruct (legal_moves board) as [|m0 rest] eqn:Hlegal.
    { exists []. split; [constructor|]. simpl. split; [lia|]. intros _. by right. }
    destruct (choose_move board ply g) as [[m|e] g1] eqn:Hc.
    + pose proof (choose_move_legal _ _ _ _ _ Hc) as Hm.
      specialize (IH (push board m) (ply + 1) g1).
      destruct (play r (push board m) (ply + 1) g1) as [[b'|e] g2].
      * destruct IH as (line & Hpl & Hlen & Hterm).
        exists (m :: line). split; [by apply played_cons|].
        simpl. split; [lia|]. intros ?. apply Hterm. lia.
      * destruct IH as (-> & line & b1 & g3 & Hpl & Htie).
        split; [done|]. exists (m :: line), b1, g3.
        split; [by apply played_cons|].
        replace (ply + len (m :: line)) with (ply + 1 + len line); [done|].
        unfold len. simpl. lia.
    + apply choose_move_raise in Hc as [-> Htie]; [|by rewrite Hlegal].
      split; [done|]. exists [], board, g. split; [constructor|].
      replace (ply + len []) with ply by (unfold len; simpl; lia). done.
Qed.

End GeneratorProps.

(** ** The Mate Finder *)

(** *** The engine's scores *)

Lemma abs_mate_neg (s : Score) :
  Z.abs <$> score_mate (score_neg s) = Z.abs <$> score_mate s.
Proof.
  destruct s as [cp|moves|]; simpl; [done| |done].
  destruct (moves =? 0) eqn:E; simpl.
  - apply Z.eqb_eq in E. by subst.
  - by rewrite Z.abs_opp.
Qed.

(** The distance the program reads off the white-relative score is the
    size of the score relative to the side to move: the sign is dropped. *)
Lemma abs_mate_white (s : PovScore) :
  Z.abs <$> score_mate (pov_white s) = Z.abs <$> score_mate (relative s).
Proof. unfold pov_white. destruct (pov_turn s); [done|apply abs_mate_neg]. Qed.

Section FinderProps.
Context `{RulesEngine Board Move} `{Engine E Board Move}.

Lemma reports_mate_unique (r : result (Info Move)) M pv M' pv' :
  reports_mate r M pv -> reports_mate r M' pv' -> M = M' ∧ pv = pv'.
Proof.
  intros (i & s & m & -> & Hs & Hm & -> & ->) (i' & s' & m' & [= <-] & Hs' & Hm' & -> & ->).
  rewrite Hs in Hs'. injection Hs' as <-. rewrite Hm in Hm'. by injection Hm' as <-.
Qed.

(** What an accepted evaluation looks like. *)
Lemma analyze_for_mate_some board max_mate w M line w' :
  analyze_for_mate board max_mate w = (Some (M, line), w') ->
  ∃ info e' pv,
    analyse (w_engine w) board MATE_DEPTH = (Ok info, e')
    ∧ reports_mate (Ok info) M pv
    ∧ 0 <= M <= max_mate ∧ 2 * M - 1 <= len pv
    ∧ line = take (Z.to_nat (2 * M)) pv
    ∧ w' = log_event EvAnalyse (set_engine e' w).
Proof.
  unfold analyze_for_mate.
  destruct (analyse (w_engine w) board MATE_DEPTH) as [[info|e] e'] eqn:Ha; [|done].
  destruct (info_score info) as [score|] eqn:Hs; [|done].
  pose proof (abs_mate_white score) as Habs.
  destruct (score_mate (pov_white score)) as [moves|] eqn:Hm; [|done].
  destruct (score_mate (relative score)) as [rel|] eqn:Hr; [|done].
  simpl in Habs. injection Habs as Habs.
  destruct (Z.abs moves <=? max_mate) eqn:Hle; [|done].
  destruct (Z.abs moves * 2 - 1 <=? len (default [] (info_pv info))) eqn:Hpv; [|done].
  intros [= <- <- <-].
  exists info, e', (default [] (info_pv info)).
  split; [done|]. split.
  { exists info, score, rel. by rewrite Habs. }
  split; [lia|]. split; [lia|]. split; [|done].
  rewrite py_take_nonneg by lia. f_equal. lia.
Qed.

Lemma analyze_for_mate_world board max_mate w :
  ∃ e', (analyze_for_mate board max_mate w).2 = log_event EvAnalyse (set_engine e' w).
Proof.
  unfold analyze_for_mate.
  destruct (analyse (w_engine w) board MATE_DEPTH) as [r e'].
  exists e'. repeat case_match; done.
Qed.

(** C2.  If the engine's answer reports a mate distance [M <= 3] (the size
    of its mate score) and a principal variation of at least [2M - 1]
    moves, [analyze_for_mate] returns [M] with the first [2M] moves of the
    variation, a line of [2M - 1] or [2M] moves; in every other case (no
    answer, no score, no mate score, a longer mate, a shorter variation)
    it returns no mate and no line. *)
Theorem analyze_for_mate_spec board w :
  let r := (analyse (w_engine w) board MATE_DEPTH).1 in
  let out := (analyze_for_mate board 3 w).1 in
  (∀ M pv, reports_mate r M pv -> M <= 3 -> 2 * M - 1 <= len pv ->
     let line := take (Z.to_nat (2 * M)) pv in
     out = Some (M, line) ∧ 2 * M - 1 <= len line <= 2 * M)
  ∧ ((¬ ∃ M pv, reports_mate r M pv ∧ M <= 3 ∧ 2 * M - 1 <= len pv) ->
     out = None).
Proof.
  cbv zeta. split.
  - intros M pv (info & score & rel & Hr & Hs & Hm & -> & ->) HM Hpv.
    unfold analyze_for_mate.
    destruct (analyse (w_engine w) board MATE_DEPTH) as [r e']. simpl in Hr. subst r.
    rewrite Hs. pose proof (abs_mate_white score) as Habs. rewrite Hm in Habs.
    destruct (score_mate (pov_white score)) as [moves|]; [|done].
    simpl in Habs. injection Habs as Habs. rewrite Habs.
    rewrite (proj2 (Z.leb_le _ _) HM).
    rewrite (proj2 (Z.leb_le (Z.abs rel * 2 - 1) _)) by lia.
    simpl. rewrite py_take_nonneg by lia.
    replace (Z.abs rel * 2) with (2 * Z.abs rel) by lia.
    split; [done|]. unfold len in *. rewrite length_take. lia.
  - intros Hno.
    destruct (analyze_for_mate board 3 w) as [[[M line]|] w'] eqn:Ha; [|done].
    exfalso. apply Hno.
    apply analyze_for_mate_some in Ha as (info & e' & pv & Han & Hrep & HM & Hpv & _).
    exists M, pv. rewrite Han. simpl. split; [done|]. lia.
Qed.

(** Where a found puzzle comes from: a generated position that is not
    game-over and the engine's answer for it. *)
Lemma find_attempts_found attempts w board N solution w' :
  find_attempts attempts w = (Ok (Some (board, N, solution)), w') ->
  is_game_over board = false
  ∧ (∃ max_moves g g', 15 <= max_moves <= 35
                       ∧ generate_random_game max_moves g = (Ok board, g'))
  ∧ ∃ e info e' pv,
      analyse e board MATE_DEPTH = (Ok info, e')
      ∧ reports_mate (Ok info) N pv
      ∧ 1 <= N <= 3 ∧ 2 * N - 1 <= len pv
      ∧ solution = take (Z.to_nat (2 * N)) pv
      ∧ solution ≠ [].
Proof.
  revert w. induction attempts as [|n IH]; intros w; cbn [find_attempts]; [done|].
  destruct (randint_range 15 35 (w_rng w) ltac:(lia)) as (mx & Hr & Hmx & Hg).
  destruct (randint 15 35 (w_rng w)) as [r g1]. simpl in Hr, Hg. subst r g1.
  cbv beta iota.
  destruct (generate_random_game mx (advance 1 (w_rng w))) as [[b|e] g2] eqn:Hgen; [|done].
  destruct (is_game_over b) eqn:Hover; [apply IH|].
  destruct (analyze_for_mate b 3 (set_rng g2 w)) as [[[M line]|] w1] eqn:Ha; [|apply IH].
  destruct (negb (M =? 0) && negb (bool_decide (line = []))) eqn:Htruthy; [|apply IH].
  intros [= <- <- <- <-].
  apply andb_true_iff in Htruthy as [HM0 Hline].
  apply negb_true_iff, Z.eqb_neq in HM0.
  apply negb_true_iff, bool_decide_eq_false in Hline.
  apply analyze_for_mate_some in Ha as (info & e' & pv & Han & Hrep & HM & Hpv & Hl & _).
  split; [done|]. split; [by eauto 10|].
  exists (w_engine (set_rng g2 w)), info, e', pv.
  repeat split; try done; lia.
Qed.

(** Nothing but the generator's [TypeError] leaves the finder: whatever
    the engine raises is swallowed. *)
Lemma find_attempts_raise attempts w e w' :
  find_attempts attempts w = (Raise e, w') -> e = move_not_orderable.
Proof.
  revert w. induction attempts as [|n IH]; intros w; cbn [find_attempts]; [done|].
  destruct (randint_range 15 35 (w_rng w) ltac:(lia)) as (mx & Hr & Hmx & Hg).
  destruct (randint 15 35 (w_rng w)) as [r g1]. simpl in Hr, Hg. subst r g1.
  cbv beta iota.
  pose proof (play_outcome (Z.to_nat mx) start_board 0 (advance 1 (w_rng w))) as Hplay.
  fold (generate_random_game mx (advance 1 (w_rng w))) in Hplay.
  destruct (generate_random_game mx (advance 1 (w_rng w))) as [[b|e0] g2] eqn:Hgen.
  - destruct (is_game_over b) eqn:Hover; [apply IH|].
    destruct (analyze_for_mate b 3 (set_rng g2 w)) as [[[M line]|] w1] eqn:Ha; [|apply IH].
    destruct (negb (M =? 0) && negb (bool_decide (line = []))) eqn:Htruthy; [done|apply IH].
  - intros [= <- <-]. by destruct Hplay.
Qed.

(** An engine that only raises leaves the search empty-handed, and the
    search goes through its whole budget. *)
Lemma find_attempts_engine_down attempts w :
  (∀ e b d, ∃ ex e', analyse e b d = (Raise ex, e')) ->
  (find_attempts attempts w).1 = Ok None
  ∨ (find_attempts attempts w).1 = Raise move_not_orderable.
Proof.
  intros Hdown. revert w. induction attempts as [|n IH]; intros w; cbn [find_attempts]; [by left|].
  destruct (randint_range 15 35 (w_rng w) ltac:(lia)) as (mx & Hr & Hmx & Hg).
  destruct (randint 15 35 (w_rng w)) as [r g1]. simpl in Hr, Hg. subst r g1.
  cbv beta iota.
  pose proof (play_outcome (Z.to_nat mx) start_board 0 (advance 1 (w_rng w))) as Hplay.
  fold (generate_random_game mx (advance 1 (w_rng w))) in Hplay.
  destruct (generate_random_game mx (advance 1 (w_rng w))) as [[b|e0] g2] eqn:Hgen.
  - destruct (is_game_over b) eqn:Hover; [apply IH|].
    unfold analyze_for_mate.
    destruct (Hdown (w_engine (set_rng g2 w)) b MATE_DEPTH) as (ex & e' & ->).
    apply IH.
  - right. simpl. by destruct Hplay as [-> _].
Qed.

Lemma find_puzzle_position_no_budget max_attempts w :
  max_attempts <= 0 ->
  find_puzzle_position max_attempts w = (Ok None, log_event EvFind w).
Proof.
  intros Hle. unfold find_puzzle_position.
  replace (Z.to_nat max_attempts) with 0%nat by lia. done.
Qed.


End FinderProps.

(** ** Paths and files *)

(** *** Strings and paths *)

Lemma append_cons (ch : ascii) (a b : string) :
  String ch a +:+ b = String ch (a +:+ b).
Proof. reflexivity. Qed.

Lemma append_nil (b : string) : EmptyString +:+ b = b.
Proof. reflexivity. Qed.

Lemma append_assoc (a b c : string) : (a +:+ b) +:+ c = a +:+ (b +:+ c).
Proof.
  induction a as [|ch a IH]; [done|]. rewrite !append_cons. by rewrite IH.
Qed.

Lemma append_length (a b : string) :
  String.length (a +:+ b) = (String.length a + String.length b)%nat.
Proof.
  induction a as [|ch a IH]; [done|]. rewrite append_cons. simpl. by rewrite IH.
Qed.

(** A name ending in [.png] is not a name ending in [.svg]. *)
Lemma png_ne_svg (a b : string) : a +:+ ".png" ≠ b +:+ ".svg".
Proof.
  revert b. induction a as [|ch a IH]; intros b Heq.
  - destruct b as [|ch' b]; [done|].
    rewrite append_cons, append_nil in Heq.
    injection Heq as _ Heq. apply (f_equal String.length) in Heq.
    rewrite append_length in Heq. simpl in Heq. lia.
  - destruct b as [|ch' b]; rewrite ?append_cons, ?append_nil in Heq.
    + injection Heq as _ Heq. apply (f_equal String.length) in Heq.
      rewrite append_length in Heq. simpl in Heq. lia.
    + injection Heq as _ Heq. by apply IH in Heq.
Qed.

Lemma path_join_inj (dir a b : string) : path_join dir a = path_join dir b -> a = b.
Proof.
  unfold path_join. case_bool_decide; [done|].
  intros Heq. apply String.app_inj in Heq. by apply String.app_inj in Heq.
Qed.

Lemma step_png_ne_svg (dir : string) (a b : Z) :
  path_join dir (step_png_name a) ≠ path_join dir (step_svg_name b).
Proof.
  intros Heq. apply path_join_inj in Heq.
  unfold step_png_name, step_svg_name in Heq.
  rewrite <- !append_assoc in Heq. by apply png_ne_svg in Heq.
Qed.

Lemma step_svg_path_inj (dir : string) (a b : Z) :
  step_svg_path dir a = step_svg_path dir b -> a = b.
Proof.
  unfold step_svg_path. intros Heq. apply path_join_inj in Heq.
  unfold step_svg_name in Heq. apply String.app_inj in Heq.
  assert (∀ x y : string, x +:+ ".svg" = y +:+ ".svg" -> x = y) as Hcancel.
  { induction x as [|c x IH]; intros [|c' y] Hxy;
      rewrite ?append_cons, ?append_nil in Hxy; try done.
    - injection Hxy as _ Hxy. apply (f_equal String.length) in Hxy.
      rewrite append_length in Hxy. simpl in Hxy. lia.
    - injection Hxy as _ Hxy. apply (f_equal String.length) in Hxy.
      rewrite append_length in Hxy. simpl in Hxy. lia.
    - injection Hxy as Hc Hxy. subst c'. f_equal. by apply IH. }
  apply Hcancel in Heq. by apply pretty_Z_inj in Heq.
Qed.

(** The other files of a puzzle directory are not step diagrams. *)
Lemma fixed_name_ne_step (dir name : string) (b : Z) :
  name ∈ ["puzzle_data.txt"; "puzzle.svg"; "puzzle.png"; "tweet.txt"] ->
  path_join dir name ≠ step_svg_path dir b.
Proof.
  intros Hin Heq. apply path_join_inj in Heq. unfold step_svg_name in Heq.
  repeat (apply elem_of_cons in Hin as [-> | Hin]; [by simpl in Heq|]).
  by apply elem_of_nil in Hin.
Qed.

(** *** Files *)

Lemma FS_eq (a b : FS) :
  dirs a = dirs b -> files a = files b -> unwritable a = unwritable b -> a = b.
Proof. destruct a, b. simpl. by intros -> -> ->. Qed.

Lemma World_eta {E} (w : World E) :
  mkWorld (w_engine w) (w_rng w) (w_fs w) (w_log w) = w.
Proof. by destruct w. Qed.

Section Disk.
Context `{RulesEngine Board Move} `{Renderer Board Move}.

Lemma write_file_ok fs dir name content :
  can_write fs dir name = true ->
  write_file dir name content fs
  = (Ok (), mkFS (dirs fs) (<[path_join dir name := content]> (files fs)) (unwritable fs)).
Proof.
  unfold can_write, write_file. intros Hc.
  apply andb_true_iff in Hc as [Hc Hu]. apply andb_true_iff in Hc as [Hd Hp].
  rewrite Hd. simpl. apply negb_true_iff in Hp, Hu. by rewrite Hp, Hu.
Qed.

Lemma write_file_fail fs dir name content :
  can_write fs dir name = false ->
  ∃ e, write_file dir name content fs = (Raise e, fs).
Proof.
  unfold can_write, write_file. intros Hc.
  destruct (bool_decide (dir = "." ∨ dir ∈ dirs fs)); simpl in *; [|by eexists].
  destruct (bool_decide (path_join dir name ∈ dirs fs)); simpl in *; [by eexists|].
  destruct (unwritable fs (path_join dir name)); simpl in *; [by eexists|done].
Qed.

Lemma mkdir_ok fs parent name :
  can_mkdir fs parent name = true ->
  ∃ fs', mkdir_exist_ok parent name fs = (Ok (), fs')
         ∧ dirs fs' = {[ path_join parent name ]} ∪ dirs fs
         ∧ files fs' = files fs ∧ unwritable fs' = unwritable fs.
Proof.
  unfold can_mkdir, mkdir_exist_ok. intros Hc.
  destruct (bool_decide (path_join parent name ∈ dirs fs)) eqn:Hin.
  - exists fs. split; [done|]. apply bool_decide_eq_true in Hin.
    split; [|done]. symmetry. apply subseteq_union_1_L.
    by apply singleton_subseteq_l.
  - simpl in Hc. apply andb_true_iff in Hc as [Hc Hu].
    apply andb_true_iff in Hc as [Hf Hp]. apply negb_true_iff in Hf, Hu.
    rewrite Hf, Hp, Hu. simpl. by eexists.
Qed.

Lemma mkdir_fail fs parent name :
  can_mkdir fs parent name = false ->
  ∃ e, mkdir_exist_ok parent name fs = (Raise e, fs).
Proof.
  unfold can_mkdir, mkdir_exist_ok. intros Hc.
  destruct (bool_decide (path_join parent name ∈ dirs fs)); simpl in *; [done|].
  destruct (bool_decide (is_Some _)); simpl in *; [by eexists|].
  destruct (bool_decide (parent = "." ∨ _)); simpl in *; [|by eexists].
  destruct (unwritable fs _); simpl in *; [by eexists|done].
Qed.

Lemma can_write_ext fs fs' dir name :
  dirs fs' = dirs fs -> unwritable fs' = unwritable fs ->
  can_write fs' dir name = can_write fs dir name.
Proof. unfold can_write. by intros -> ->. Qed.

(** Whether a write goes through, and the exception when it does not,
    depend on the directories and the faults of the disk only. *)
Lemma write_file_outcome_same fs fs' dir name content content' :
  dirs fs' = dirs fs -> unwritable fs' = unwritable fs ->
  (write_file dir name content' fs').1 = (write_file dir name content fs).1.
Proof.
  intros Hd Hu. unfold write_file. rewrite Hd, Hu.
  repeat case_match; done.
Qed.

Lemma mkdir_raise_inv fs parent name e fs1 :
  mkdir_exist_ok parent name fs = (Raise e, fs1) -> fs1 = fs.
Proof. unfold mkdir_exist_ok. intros Hmk. repeat case_match; by simplify_eq. Qed.

End Disk.


Section WorldFacts.
Context {E : Type}.
Implicit Types w : World E.

Lemma after_nil w : after w ∅ [] = w.
Proof.
  unfold after. rewrite (left_id_L ∅ (∪)), app_nil_r.
  destruct w as [e g [d f u] l]. done.
Qed.

Lemma after_after w O1 L1 O2 L2 :
  after (after w O1 L1) O2 L2 = after w (O2 ∪ O1) (L1 ++ L2).
Proof. unfold after. simpl. by rewrite (assoc_L (∪)), <- app_assoc. Qed.

Lemma same_disk_refl w : same_disk w w.
Proof. done. Qed.

Lemma same_disk_after w0 w O L : same_disk w0 w -> same_disk w0 (after w O L).
Proof. by intros [??]. Qed.

Lemma after_idemp w O L L' : w_fs (after (after w O L) O L') = w_fs (after w O L).
Proof.
  unfold after. simpl. by rewrite (assoc_L (∪)), (idemp_L (∪)).
Qed.

End WorldFacts.

Section PackagerFacts.
Context `{RulesEngine Board Move} `{Renderer Board Move} {E : Type}.
Implicit Types w : World E.

Lemma can_write_same w0 w dir name :
  same_disk w0 w -> can_write (w_fs w) dir name = can_write (w_fs w0) dir name.
Proof. intros [??]. by apply can_write_ext. Qed.

Lemma w_write_ok w dir name content :
  can_write (w_fs w) dir name = true ->
  w_write dir name content w
  = (Ok (), after w {[ path_join dir name := content ]}
              [EvWrite (path_join dir name) content]).
Proof.
  intros Hc. unfold w_write. rewrite (write_file_ok _ _ _ _ Hc).
  unfold after, log_event, set_fs. simpl.
  by rewrite insert_union_singleton_l.
Qed.

Lemma w_write_fail w dir name content :
  can_write (w_fs w) dir name = false ->
  ∃ e, w_write dir name content w = (Raise e, w).
Proof.
  intros Hc. unfold w_write.
  destruct (write_file_fail _ _ _ content Hc) as [e ->].
  exists e. unfold set_fs. by rewrite World_eta.
Qed.

Lemma w_write_fail_same w0 w dir name content e :
  same_disk w0 w ->
  w_write dir name content w0 = (Raise e, w0) ->
  w_write dir name content w = (Raise e, w).
Proof.
  intros [Hd Hu] Hfail. unfold w_write in *.
  pose proof (write_file_outcome_same (w_fs w0) (w_fs w) dir name content content Hd Hu)
    as Hsame.
  destruct (write_file dir name content (w_fs w0)) as [[[]|e0] fs0] eqn:Hw0; [done|].
  injection Hfail as ->.
  destruct (can_write (w_fs w) dir name) eqn:Hc.
  - rewrite (write_file_ok _ _ _ content Hc) in Hsame. done.
  - destruct (write_file_fail _ _ _ content Hc) as [e' He']. rewrite He' in Hsame |- *.
    simpl in Hsame. injection Hsame as ->. unfold set_fs. by rewrite World_eta.
Qed.

Lemma svg_to_png_after w dir svg_name png_name svg :
  files (w_fs w) !! path_join dir svg_name = Some svg ->
  (svg_to_png dir svg_name png_name w).2
  = after w (png_effect (w_fs w) dir png_name svg).1
            (png_effect (w_fs w) dir png_name svg).2.
Proof.
  intros Hsvg. unfold svg_to_png, png_effect.
  destruct HAS_CAIRO; simpl; [|by rewrite after_nil].
  rewrite Hsvg. destruct (svg2png svg) as [png|e]; simpl; [|by rewrite after_nil].
  destruct (can_write (w_fs w) dir png_name) eqn:Hc.
  - by rewrite (w_write_ok _ _ _ _ Hc).
  - destruct (w_write_fail _ _ _ png Hc) as [e ->]. simpl. by rewrite after_nil.
Qed.

Lemma png_effect_same (fs fs' : FS) dir png_name svg :
  dirs fs' = dirs fs -> unwritable fs' = unwritable fs ->
  png_effect fs' dir png_name svg = png_effect fs dir png_name svg.
Proof. intros Hd Hu. unfold png_effect. by rewrite (can_write_ext _ _ _ _ Hd Hu). Qed.

(** The optional PNG of a diagram, as the code after each SVG write makes
    it: its effect on a world that holds the SVG. *)
Lemma png_step_after (export_png : bool) w dir svg_name png_name svg :
  files (w_fs w) !! path_join dir svg_name = Some svg ->
  (if export_png && HAS_CAIRO
   then (svg_to_png dir svg_name png_name w).2 else w)
  = after w (if export_png then (png_effect (w_fs w) dir png_name svg).1 else ∅)
            (if export_png then (png_effect (w_fs w) dir png_name svg).2 else []).
Proof.
  intros Hsvg. destruct export_png; simpl; [|by rewrite after_nil].
  destruct HAS_CAIRO eqn:Hcairo.
  - by apply svg_to_png_after.
  - unfold png_effect. rewrite Hcairo. simpl. by rewrite after_nil.
Qed.

Lemma png_effect_events fs dir png_name svg ev :
  ev ∈ (png_effect fs dir png_name svg).2 ->
  event_path ev = Some (path_join dir png_name).
Proof.
  unfold png_effect. repeat case_match; simpl; try by intros ?%elem_of_nil.
  by intros ->%list_elem_of_singleton.
Qed.

Lemma diagrams_rendered_app dir n L1 L2 :
  diagrams_rendered dir n (L1 ++ L2)
  = (diagrams_rendered dir n L1 + diagrams_rendered dir n L2)%nat.
Proof. unfold diagrams_rendered. by rewrite List.filter_app, length_app. Qed.

Lemma diagrams_rendered_none dir n L :
  (∀ ev, ev ∈ L -> is_step_diagram dir n ev = false) ->
  diagrams_rendered dir n L = 0%nat.
Proof.
  intros Hno. unfold diagrams_rendered.
  induction L as [|ev L IH]; [done|]. simpl.
  rewrite (Hno ev) by (by left). apply IH. intros ev' Hin. apply Hno. by right.
Qed.

Lemma is_step_diagram_svg dir n (j : Z) content :
  1 <= j <= Z.of_nat n ->
  is_step_diagram dir n (EvWrite (step_svg_path dir j) content) = true.
Proof.
  intros Hj. unfold is_step_diagram. simpl. apply bool_decide_eq_true.
  apply list_elem_of_fmap. exists (Z.to_nat j). split.
  - f_equal. lia.
  - apply elem_of_seq. lia.
Qed.

Lemma is_step_diagram_png dir n (j : Z) ev :
  event_path ev = Some (path_join dir (step_png_name j)) ->
  is_step_diagram dir n ev = false.
Proof.
  intros Hp. unfold is_step_diagram. rewrite Hp. apply bool_decide_eq_false.
  intros Hin. apply list_elem_of_fmap in Hin as (j' & Heq & _).
  by apply step_png_ne_svg in Heq.
Qed.

Lemma is_step_diagram_fixed dir n name ev :
  name ∈ ["puzzle_data.txt"; "puzzle.svg"; "puzzle.png"; "tweet.txt"] ->
  event_path ev = Some (path_join dir name) ->
  is_step_diagram dir n ev = false.
Proof.
  intros Hname Hp. unfold is_step_diagram. rewrite Hp. apply bool_decide_eq_false.
  intros Hin. apply list_elem_of_fmap in Hin as (j' & Heq & _).
  by apply fixed_name_ne_step in Heq.
Qed.

End PackagerFacts.

(** ** The step loop and the Packager *)

Section StepLoop.
Context `{RulesEngine Board Move} `{Renderer Board Move} {E : Type}.
Implicit Types w : World E.


Lemma render_steps_run puzzle_dir orientation export_png (n : nat) solution :
  ∀ i solve_board acc w0,
    0 <= i -> (Z.to_nat i + length solution <= n)%nat ->
    ∃ (k m : nat) O L,
      (k <= length solution)%nat
      ∧ (∀ j, (j < k)%nat ->
           ∃ mv s, solution !! j = Some mv
                   ∧ san_line solve_board solution !! j = Some s
                   ∧ EvWrite (step_svg_path puzzle_dir (i + Z.of_nat j + 1))
                       (step_diagram orientation i solve_board solution j s) ∈ L)
      ∧ diagrams_rendered puzzle_dir n L = k
      ∧ (m <= length (san_line solve_board solution))%nat
      ∧ ((m = k ∧ (k = length solution
                   ∨ ∃ mv e, solution !! k = Some mv
                             ∧ san (push_all solve_board (take k solution)) mv = Raise e))
         ∨ (m = S k ∧ (k < length solution)%nat
            ∧ can_write (w_fs w0) puzzle_dir
                (step_svg_name (i + Z.of_nat k + 1)) = false))
      ∧ ∀ w, same_disk w0 w ->
          render_steps puzzle_dir orientation export_png i solution
            solve_board acc w
          = ((acc ++ take m (san_line solve_board solution))%list, after w O L).
Proof.
  induction solution as [|mv rest IH]; intros i solve_board acc w0 Hi Hn.
  { exists 0%nat, 0%nat, ∅, []. split; [done|]. split; [intros; lia|].
    split; [done|]. split; [done|]. split; [left; split; [done|by left]|].
    intros w _. simpl. by rewrite app_nil_r, after_nil. }
  cbn [render_steps san_line]. cbn [length] in Hn.
  destruct (san solve_board mv) as [s|e] eqn:Hsan.
  2:{ exists 0%nat, 0%nat, ∅, []. split; [simpl; lia|]. split; [intros; lia|].
      split; [done|]. split; [done|].
      split; [left; split; [done|]; right; by exists mv, e|].
      intros w _. simpl. by rewrite app_nil_r, after_nil. }
  set (svg := create_board_svg_with_title _ _ _ _ _).
  destruct (can_write (w_fs w0) puzzle_dir (step_svg_name (i + 1))) eqn:Hcw.
  2:{ exists 0%nat, 1%nat, ∅, []. split; [simpl; lia|]. split; [intros; lia|].
      split; [done|]. split; [simpl; lia|].
      split.
      { right. split; [done|]. split; [simpl; lia|].
        by replace (i + Z.of_nat 0 + 1) with (i + 1) by lia. }
      intros w Hsame. rewrite <- (can_write_same _ _ _ _ Hsame) in Hcw.
      destruct (w_write_fail _ _ _ svg Hcw) as [e' ->].
      simpl. by rewrite after_nil. }
  set (pngO := if export_png
               then (png_effect (w_fs w0) puzzle_dir (step_png_name (i + 1)) svg).1
               else ∅).
  set (pngL := if export_png
               then (png_effect (w_fs w0) puzzle_dir (step_png_name (i + 1)) svg).2
               else []).
  destruct (IH (i + 1) (push solve_board mv) (acc ++ [s])%list w0 ltac:(lia))
    as (k & m & O & L & Hk & Hsteps & Hcount & Hm & Hstop & Hrun).
  { lia. }
  exists (S k), (S m),
    (O ∪ (pngO ∪ {[ path_join puzzle_dir (step_svg_name (i + 1)) := svg ]})),
    (([EvWrite (path_join puzzle_dir (step_svg_name (i + 1))) svg] ++ pngL) ++ L)%list.
  split; [simpl; lia|]. split; [|split; [|split; [simpl; lia|split]]].
  - intros [|j] Hj.
    + exists mv, s. split; [done|]. split; [done|].
      apply elem_of_app. left. apply elem_of_app. left.
      apply list_elem_of_singleton. unfold step_svg_path, step_diagram.
      replace (i + Z.of_nat 0 + 1) with (i + 1) by lia. done.
    + destruct (Hsteps j ltac:(lia)) as (mv' & s' & Hl & Hs' & Hev).
      exists mv', s'. split; [done|]. split; [done|].
      apply elem_of_app. right.
      replace (i + Z.of_nat (S j) + 1) with (i + 1 + Z.of_nat j + 1) by lia.
      unfold step_diagram in *. 
      replace (i + Z.of_nat (S j) + 1) with (i + 1 + Z.of_nat j + 1) by lia.
      exact Hev.
  - rewrite !diagrams_rendered_app, Hcount.
    unfold diagrams_rendered at 1. simpl.
    fold (step_svg_path puzzle_dir (i + 1)).
    rewrite is_step_diagram_svg by lia. simpl.
    rewrite diagrams_rendered_none; [lia|].
    intros ev Hev. apply (is_step_diagram_png _ _ (i + 1)).
    subst pngL. destruct export_png; [|by apply elem_of_nil in Hev].
    by eapply png_effect_events.
  - destruct Hstop as [[-> Hstop]|(-> & Hlt & Hstop)].
    + left. split; [done|]. destruct Hstop as [->|(mv' & e & Hl & Hs')].
      * by left.
      * right. by exists mv', e.
    + right. split; [done|]. split; [simpl; lia|].
      by replace (i + Z.of_nat (S k) + 1) with (i + 1 + Z.of_nat k + 1) by lia.
  - intros w Hsame.
    rewrite <- (can_write_same _ _ _ _ Hsame) in Hcw.
    rewrite (w_write_ok _ _ _ svg Hcw).
    rewrite (png_step_after export_png _ _ _ _ svg).
    2:{ unfold after. simpl. apply lookup_union_Some_l, lookup_singleton_eq. }
    assert (w_fs_after : ∀ (w1 : World E) O1 L1,
               same_disk w0 w1 ->
               png_effect (w_fs (after w1 O1 L1)) puzzle_dir (step_png_name (i + 1)) svg
               = png_effect (w_fs w0) puzzle_dir (step_png_name (i + 1)) svg).
    { intros w1 O1 L1 [Hd Hu]. by apply png_effect_same. }
    rewrite w_fs_after by done. fold pngO pngL.
    rewrite Hrun by (by do 2 apply same_disk_after).
    rewrite !after_after. f_equal.
    + by rewrite <- app_assoc.
    + f_equal. by rewrite !(assoc_L (∪)).
Qed.

End StepLoop.


Section SavePuzzle.
Context `{RulesEngine Board Move} `{Renderer Board Move} {E : Type}.
Implicit Types w : World E.

Lemma set_fs_same w0 w fs1 :
  dirs fs1 = dirs (w_fs w0) -> unwritable fs1 = unwritable (w_fs w0) ->
  same_disk w0 (set_fs fs1 w).
Proof. by intros ??. Qed.

Lemma save_puzzle_run board mate_in solution number output_dir export_png w0 :
  let puzzle_dir := path_join output_dir (base_name number) in
  let title_text := get_title_text board mate_in in
  base_ok (w_fs w0) puzzle_dir = true ->
  ∃ (k m : nat) O L,
    let sans := take m (san_line board solution) in
    (k <= length solution)%nat
    ∧ (m <= length (san_line board solution))%nat
    ∧ (∀ j, (j < k)%nat ->
         ∃ mv s, solution !! j = Some mv
                 ∧ san_line board solution !! j = Some s
                 ∧ EvWrite (step_svg_path puzzle_dir (Z.of_nat j + 1))
                     (step_diagram (turn board) 0 board solution j s) ∈ L)
    ∧ diagrams_rendered puzzle_dir (length solution) L = k
    ∧ ((m = k ∧ (k = length solution
                 ∨ ∃ mv e, solution !! k = Some mv
                           ∧ san (push_all board (take k solution)) mv = Raise e))
       ∨ (m = S k ∧ (k < length solution)%nat
          ∧ can_write (w_fs w0) puzzle_dir
              (step_svg_name (Z.of_nat k + 1)) = false))
    ∧ O !! path_join puzzle_dir "tweet.txt"
      = Some (tweet_text number title_text sans)
    ∧ ∀ w fs1,
        mkdir_exist_ok output_dir (base_name number) (w_fs w) = (Ok (), fs1) ->
        dirs fs1 = dirs (w_fs w0) -> unwritable fs1 = unwritable (w_fs w0) ->
        save_puzzle board mate_in solution number output_dir export_png w
        = (Ok (mkPuzzleResult true mate_in (len sans)
                 (mkPath output_dir (base_name number))),
           after (set_fs fs1 w) O L).
Proof.
  intros puzzle_dir title_text Hbase.
  apply andb_true_iff in Hbase as [Hbase Htweet].
  apply andb_true_iff in Hbase as [Hdata Hsvg].
  set (data := puzzle_data_text board mate_in solution).
  set (svg := create_board_svg_with_title board title_text None (turn board) 400).
  set (pngO := if export_png
               then (png_effect (w_fs w0) puzzle_dir "puzzle.png" svg).1 else ∅).
  set (pngL := if export_png
               then (png_effect (w_fs w0) puzzle_dir "puzzle.png" svg).2 else []).
  destruct (render_steps_run puzzle_dir (turn board) export_png (length solution)
              solution 0 board [] w0 ltac:(lia) ltac:(lia))
    as (k & m & O & L & Hk & Hsteps & Hcount & Hm & Hstop & Hrun).
  set (sans := take m (san_line board solution)).
  set (tweet := tweet_text number title_text sans).
  exists k, m,
    ({[ path_join puzzle_dir "tweet.txt" := tweet ]}
     ∪ (O ∪ (pngO ∪ ({[ path_join puzzle_dir "puzzle.svg" := svg ]}
                      ∪ {[ path_join puzzle_dir "puzzle_data.txt" := data ]})))),
    (((([EvWrite (path_join puzzle_dir "puzzle_data.txt") data]
        ++ [EvWrite (path_join puzzle_dir "puzzle.svg") svg]) ++ pngL) ++ L)
     ++ [EvWrite (path_join puzzle_dir "tweet.txt") tweet])%list.
  cbv zeta. fold sans.
  split; [done|]. split; [done|]. split; [|split; [|split; [|split]]].
  - intros j Hj. destruct (Hsteps j Hj) as (mv & s & Hl & Hs & Hev).
    exists mv, s. split; [done|]. split; [done|].
    apply elem_of_app. left. apply elem_of_app. right.
    by replace (Z.of_nat j + 1) with (0 + Z.of_nat j + 1) by lia.
  - rewrite !diagrams_rendered_app, Hcount.
    rewrite (diagrams_rendered_none _ _ [_]), (diagrams_rendered_none _ _ [_]),
      (diagrams_rendered_none _ _ pngL), (diagrams_rendered_none _ _ [_]); [lia|..].
    + intros ev ->%list_elem_of_singleton.
      apply (is_step_diagram_fixed _ _ "tweet.txt"); [in_list|done].
    + intros ev Hev. apply (is_step_diagram_fixed _ _ "puzzle.png"); [in_list|].
      subst pngL. destruct export_png; [|by apply elem_of_nil in Hev].
      by eapply png_effect_events.
    + intros ev ->%list_elem_of_singleton.
      apply (is_step_diagram_fixed _ _ "puzzle.svg"); [in_list|done].
    + intros ev ->%list_elem_of_singleton.
      apply (is_step_diagram_fixed _ _ "puzzle_data.txt"); [in_list|done].
  - destruct Hstop as [[-> Hstop]|(-> & Hlt & Hstop)]; [left|right]; done.
  - apply lookup_union_Some_l, lookup_singleton_eq.
  - intros w fs1 Hmk Hd Hu. unfold save_puzzle. rewrite Hmk.
    fold puzzle_dir title_text data svg.
    pose proof (set_fs_same w0 w fs1 Hd Hu) as Hsame.
    rewrite (w_write_ok _ _ _ data)
      by (by rewrite (can_write_same w0)).
    rewrite (w_write_ok _ _ _ svg)
      by (by rewrite (can_write_same w0) by (by apply same_disk_after)).
    rewrite (png_step_after export_png _ _ _ _ svg).
    2:{ unfold after. simpl. apply lookup_union_Some_l, lookup_singleton_eq. }
    rewrite (png_effect_same (w_fs w0)) by (simpl; done).
    fold pngO pngL.
    rewrite Hrun by (by do 3 apply same_disk_after).
    simpl app. fold sans tweet.
    rewrite (w_write_ok _ _ _ tweet)
      by (by rewrite (can_write_same w0) by (by do 4 apply same_disk_after)).
    rewrite !after_after. f_equal. unfold after. f_equal.
    + f_equal. by rewrite !(assoc_L (∪)).
    + simpl. by rewrite <- !app_assoc.
Qed.

(** A call that returns got past the directory and the three files
    outside the loop. *)
Lemma save_puzzle_ok_inv board mate_in solution number output_dir export_png
    w r w' :
  save_puzzle board mate_in solution number output_dir export_png w = (Ok r, w') ->
  ∃ fs1, mkdir_exist_ok output_dir (base_name number) (w_fs w) = (Ok (), fs1)
         ∧ base_ok fs1 (path_join output_dir (base_name number)) = true.
Proof.
  unfold save_puzzle.
  destruct (mkdir_exist_ok output_dir (base_name number) (w_fs w))
    as [[[]|e] fs1] eqn:Hmk; [|done].
  intros Hsave. exists fs1. split; [done|].
  set (puzzle_dir := path_join output_dir (base_name number)) in *.
  set (w1 := set_fs fs1 w) in *.
  unfold base_ok.
  destruct (can_write fs1 puzzle_dir "puzzle_data.txt") eqn:Hdata.
  2:{ destruct (w_write_fail w1 puzzle_dir "puzzle_data.txt"
                  (puzzle_data_text board mate_in solution) Hdata) as [e He].
      by rewrite He in Hsave. }
  rewrite (w_write_ok w1 _ _ _ Hdata) in Hsave.
  set (w2 := after w1 _ _) in *.
  set (svg := create_board_svg_with_title _ _ _ _ _) in *.
  destruct (can_write fs1 puzzle_dir "puzzle.svg") eqn:Hsvg.
  2:{ destruct (w_write_fail w2 puzzle_dir "puzzle.svg" svg) as [e He]; [done|].
      by rewrite He in Hsave. }
  rewrite (w_write_ok w2 _ _ _ Hsvg) in Hsave.
  set (w3 := after w2 _ _) in *.
  rewrite (png_step_after export_png _ _ _ _ svg) in Hsave.
  2:{ unfold w3, after. simpl. apply lookup_union_Some_l, lookup_singleton_eq. }
  set (w4 := after w3 _ _) in *.
  destruct (render_steps_run puzzle_dir (turn board) export_png (length solution)
              solution 0 board [] w4 ltac:(lia) ltac:(lia))
    as (k & m & O & L & _ & _ & _ & _ & _ & Hrun).
  rewrite (Hrun w4 (same_disk_refl _)) in Hsave.
  set (w5 := after w4 _ _) in *.
  destruct (can_write fs1 puzzle_dir "tweet.txt") eqn:Htweet; [done|].
  match type of Hsave with
  | context [w_write puzzle_dir "tweet.txt" ?c w5] =>
      destruct (w_write_fail w5 puzzle_dir "tweet.txt" c) as [e He]; [done|];
      by rewrite He in Hsave
  end.
Qed.

(** Past the directory, [save_puzzle] never looks at what the files hold:
    on all disks with the same directories and faults it has the same
    outcome, writes the same files and logs the same events. *)
Lemma save_puzzle_uniform board mate_in solution number output_dir export_png w0 :
  ∃ res O L,
    ∀ w fs1,
      mkdir_exist_ok output_dir (base_name number) (w_fs w) = (Ok (), fs1) ->
      dirs fs1 = dirs (w_fs w0) -> unwritable fs1 = unwritable (w_fs w0) ->
      save_puzzle board mate_in solution number output_dir export_png w
      = (res, after (set_fs fs1 w) O L).
Proof.
  set (puzzle_dir := path_join output_dir (base_name number)).
  destruct (base_ok (w_fs w0) puzzle_dir) eqn:Hbase.
  { destruct (save_puzzle_run board mate_in solution number output_dir export_png
                w0 Hbase) as (k & m & O & L & _ & _ & _ & _ & _ & _ & Hrun).
    by eexists _, O, L. }
  set (data := puzzle_data_text board mate_in solution).
  set (title_text := get_title_text board mate_in).
  set (svg := create_board_svg_with_title board title_text None (turn board) 400).
  destruct (can_write (w_fs w0) puzzle_dir "puzzle_data.txt") eqn:Hdata.
  2:{ destruct (w_write_fail w0 puzzle_dir "puzzle_data.txt" data Hdata) as [e He].
      exists (Raise e), ∅, []. intros w fs1 Hmk Hd Hu.
      unfold save_puzzle. rewrite Hmk. fold puzzle_dir data.
      rewrite (w_write_fail_same w0 (set_fs fs1 w) _ _ _ e) by done.
      by rewrite after_nil. }
  set (O1 := {[ path_join puzzle_dir "puzzle_data.txt" := data ]} : gmap string string).
  set (L1 := [EvWrite (path_join puzzle_dir "puzzle_data.txt") data]).
  destruct (can_write (w_fs w0) puzzle_dir "puzzle.svg") eqn:Hsvg.
  2:{ destruct (w_write_fail w0 puzzle_dir "puzzle.svg" svg Hsvg) as [e He].
      exists (Raise e), O1, L1. intros w fs1 Hmk Hd Hu.
      unfold save_puzzle. rewrite Hmk. fold puzzle_dir data title_text svg.
      pose proof (set_fs_same w0 w fs1 Hd Hu) as Hsame.
      rewrite (w_write_ok _ _ _ data) by (by rewrite (can_write_same w0)).
      fold O1 L1.
      by rewrite (w_write_fail_same w0 (after (set_fs fs1 w) O1 L1) _ _ _ e)
        by (done || by apply same_disk_after). }
  set (pngO := if export_png
               then (png_effect (w_fs w0) puzzle_dir "puzzle.png" svg).1 else ∅).
  set (pngL := if export_png
               then (png_effect (w_fs w0) puzzle_dir "puzzle.png" svg).2 else []).
  destruct (render_steps_run puzzle_dir (turn board) export_png (length solution)
              solution 0 board [] w0 ltac:(lia) ltac:(lia))
    as (k & m & O & L & _ & _ & _ & _ & _ & Hrun).
  set (sans := take m (san_line board solution)).
  set (tweet := tweet_text number title_text sans).
  assert (can_write (w_fs w0) puzzle_dir "tweet.txt" = false) as Htweet.
  { unfold base_ok in Hbase. rewrite Hdata, Hsvg in Hbase. exact Hbase. }
  destruct (w_write_fail w0 puzzle_dir "tweet.txt" tweet Htweet) as [e He].
  exists (Raise e),
    (O ∪ (pngO ∪ ({[ path_join puzzle_dir "puzzle.svg" := svg ]} ∪ O1))),
    (((L1 ++ [EvWrite (path_join puzzle_dir "puzzle.svg") svg]) ++ pngL) ++ L).
  intros w fs1 Hmk Hd Hu.
  unfold save_puzzle. rewrite Hmk. fold puzzle_dir data title_text svg.
  pose proof (set_fs_same w0 w fs1 Hd Hu) as Hsame.
  rewrite (w_write_ok _ _ _ data) by (by rewrite (can_write_same w0)).
  rewrite (w_write_ok _ _ _ svg)
    by (by rewrite (can_write_same w0) by (by apply same_disk_after)).
  rewrite (png_step_after export_png _ _ _ _ svg).
  2:{ unfold after. simpl. apply lookup_union_Some_l, lookup_singleton_eq. }
  rewrite (png_effect_same (w_fs w0)) by (simpl; done).
  fold pngO pngL.
  rewrite Hrun by (by do 3 apply same_disk_after).
  simpl app. fold sans tweet.
  rewrite (w_write_fail_same w0 _ _ _ _ e) by (done || by do 4 apply same_disk_after).
  rewrite !after_after. f_equal. unfold after. f_equal.
  f_equal. by rewrite !(assoc_L (∪)).
Qed.

End SavePuzzle.

(** ** The logs of the Orchestrator *)


Lemma count_event_app ev L1 L2 :
  count_event ev (L1 ++ L2) = (count_event ev L1 + count_event ev L2)%nat.
Proof. unfold count_event. by rewrite List.filter_app, length_app. Qed.

Lemma count_event_cons_eq ev L : count_event ev (ev :: L) = S (count_event ev L).
Proof. unfold count_event. simpl. by rewrite bool_decide_eq_true_2. Qed.

Lemma count_event_none ev L : ev ∉ L -> count_event ev L = 0%nat.
Proof.
  intros Hnot. unfold count_event. induction L as [|x L IH]; [done|]. simpl.
  rewrite bool_decide_eq_false_2.
  - apply IH. intros Hin. apply Hnot. by right.
  - intros ->. apply Hnot. by left.
Qed.

Lemma puzzle_file_not_index number name :
  path_join (path_join OUTPUT_DIR (base_name number)) name ≠ index_path.
Proof.
  unfold index_path, path_join, OUTPUT_DIR, base_name.
  rewrite (bool_decide_eq_false_2 ("generated_puzzles" = ".")) by done.
  case_bool_decide as Hdot; [done|].
  rewrite !append_assoc. intros Heq. apply String.app_inj in Heq. done.
Qed.

Lemma loop_event_not_quit ev : loop_event ev -> ev ≠ EvQuit.
Proof. intros [->|[->|(?&?&?&->)]]; done. Qed.

Lemma loop_event_not_index ev content :
  loop_event ev -> ev ≠ EvWrite index_path content.
Proof.
  intros [->|[->|(n&name&c&->)]]; done.
Qed.

Section Logs.
Context `{RulesEngine Board Move} `{Renderer Board Move} `{Engine E Board Move}.
Implicit Types w : World E.

Lemma analyze_for_mate_log board max_mate w :
  w_log (analyze_for_mate board max_mate w).2 = (w_log w ++ [EvAnalyse])%list
  ∧ w_fs (analyze_for_mate board max_mate w).2 = w_fs w.
Proof.
  destruct (analyze_for_mate_world board max_mate w) as [e' ->]. done.
Qed.

Lemma find_attempts_log attempts w :
  ∃ L, w_log (find_attempts attempts w).2 = (w_log w ++ L)%list
       ∧ Forall (fun ev => ev = EvAnalyse) L
       ∧ w_fs (find_attempts attempts w).2 = w_fs w.
Proof.
  revert w. induction attempts as [|n IH]; intros w; cbn [find_attempts].
  { exists []. by rewrite app_nil_r. }
  destruct (randint 15 35 (w_rng w)) as [[mx|e] g1].
  2:{ exists []. by rewrite app_nil_r. }
  destruct (generate_random_game mx g1) as [[b|e] g2].
  2:{ exists []. by rewrite app_nil_r. }
  destruct (is_game_over b); [apply (IH (set_rng g2 w))|].
  destruct (analyze_for_mate_log b 3 (set_rng g2 w)) as [Hl Hf].
  destruct (analyze_for_mate b 3 (set_rng g2 w)) as [found w1]. simpl in Hl, Hf.
  assert (∃ L, w_log (find_attempts n w1).2 = (w_log w ++ L)%list
               ∧ Forall (fun ev => ev = EvAnalyse) L
               ∧ w_fs (find_attempts n w1).2 = w_fs w) as Hrest.
  { destruct (IH w1) as (L & HL & Hall & Hfs).
    exists (EvAnalyse :: L). rewrite HL, Hl, Hfs, Hf. simpl.
    rewrite <- app_assoc. split; [done|]. split; [by constructor|done]. }
  destruct found as [[M line]|]; [|done].
  destruct (negb (M =? 0) && negb (bool_decide (line = []))); [|done].
  exists [EvAnalyse]. simpl. rewrite Hl, Hf. split; [done|]. split; [|done].
  by constructor.
Qed.

Lemma find_puzzle_position_log max_attempts w :
  ∃ L, w_log (find_puzzle_position max_attempts w).2
       = w_log w ++ (EvFind :: L)
       ∧ Forall (fun ev => ev = EvAnalyse) L
       ∧ w_fs (find_puzzle_position max_attempts w).2 = w_fs w.
Proof.
  unfold find_puzzle_position.
  destruct (find_attempts_log (Z.to_nat max_attempts) (log_event EvFind w))
    as (L & HL & Hall & Hfs).
  exists L. rewrite HL, Hfs. simpl. by rewrite <- app_assoc.
Qed.

End Logs.


Section SaveLogs.
Context `{RulesEngine Board Move} `{Renderer Board Move} {E : Type}.
Implicit Types w : World E.

Lemma logs_under_step {A B} dir (f : World E -> A * World E)
    (k : A -> World E -> B * World E) :
  logs_under dir f -> (∀ a, logs_under dir (k a)) ->
  logs_under dir (fun w => let '(a, w1) := f w in k a w1).
Proof.
  intros Hf Hk w. destruct (Hf w) as (L1 & HL1 & Hall1).
  destruct (f w) as [a w1]. simpl in HL1.
  destruct (Hk a w1) as (L2 & HL2 & Hall2).
  exists (L1 ++ L2)%list. rewrite HL2, HL1, <- app_assoc.
  split; [done|]. by apply Forall_app.
Qed.

Lemma logs_under_ret {A} dir (a : A) : logs_under dir (fun w : World E => (a, w)).
Proof. intros w. exists []. by rewrite app_nil_r. Qed.

Lemma w_write_logs dir name content :
  logs_under dir (w_write (E:=E) dir name content).
Proof.
  intros w. destruct (can_write (w_fs w) dir name) eqn:Hc.
  - rewrite (w_write_ok _ _ _ content Hc). eexists. split; [done|].
    constructor; [|constructor]. by eexists _, _.
  - destruct (w_write_fail _ _ _ content Hc) as [e ->].
    exists []. by rewrite app_nil_r.
Qed.

Lemma svg_to_png_logs dir svg_name png_name :
  logs_under dir (svg_to_png (E:=E) dir svg_name png_name).
Proof.
  intros w. unfold svg_to_png.
  destruct HAS_CAIRO; simpl; [|apply (logs_under_ret dir false w)].
  destruct (files (w_fs w) !! path_join dir svg_name) as [svg|];
    [|apply (logs_under_ret dir false w)].
  destruct (svg2png svg) as [png|e]; [|apply (logs_under_ret dir false w)].
  destruct (w_write_logs dir png_name png w) as (L & HL & Hall).
  destruct (w_write dir png_name png w) as [[[]|e] w1]; by exists L.
Qed.

Lemma png_step_logs (export_png : bool) dir svg_name png_name w :
  ∃ L, w_log (if export_png && HAS_CAIRO
              then (svg_to_png dir svg_name png_name w).2 else w)
       = (w_log w ++ L)%list ∧ Forall (under dir) L.
Proof.
  destruct (export_png && HAS_CAIRO).
  - apply svg_to_png_logs.
  - exists []. by rewrite app_nil_r.
Qed.

Lemma render_steps_logs dir orientation export_png solution :
  ∀ i solve_board acc,
    logs_under dir
      (render_steps (E:=E) dir orientation export_png i solution solve_board acc).
Proof.
  induction solution as [|mv rest IH]; intros i solve_board acc w;
    cbn [render_steps].
  { exists []. by rewrite app_nil_r. }
  destruct (san solve_board mv) as [s|e].
  2:{ exists []. by rewrite app_nil_r. }
  set (svg := create_board_svg_with_title _ _ _ _ _).
  destruct (w_write_logs dir (step_svg_name (i + 1)) svg w) as (L1 & HL1 & Hall1).
  destruct (w_write dir (step_svg_name (i + 1)) svg w) as [[[]|e] w1];
    simpl in HL1; [|by exists L1].
  destruct (png_step_logs export_png dir (step_svg_name (i + 1))
              (step_png_name (i + 1)) w1) as (L2 & HL2 & Hall2).
  set (w2 := if export_png && HAS_CAIRO then _ else w1) in *.
  destruct (IH (i + 1) (push solve_board mv) (acc ++ [s])%list w2)
    as (L3 & HL3 & Hall3).
  exists (L1 ++ L2 ++ L3)%list. rewrite HL3, HL2, HL1, <- !app_assoc.
  split; [done|]. by repeat apply Forall_app_2.
Qed.

Lemma save_puzzle_logs board mate_in solution number output_dir export_png :
  logs_under (path_join output_dir (base_name number))
    (save_puzzle (E:=E) board mate_in solution number output_dir export_png).
Proof.
  intros w. unfold save_puzzle.
  set (dir := path_join output_dir (base_name number)).
  destruct (mkdir_exist_ok output_dir (base_name number) (w_fs w)) as [[[]|e] fs1].
  2:{ exists []. by rewrite app_nil_r. }
  set (w0 := set_fs fs1 w).
  change (w_log w) with (w_log w0).
  destruct (w_write_logs dir "puzzle_data.txt"
              (puzzle_data_text board mate_in solution) w0) as (L1 & HL1 & Hall1).
  destruct (w_write dir "puzzle_data.txt" _ w0) as [[[]|e] w1];
    simpl in HL1; [|by exists L1].
  set (svg := create_board_svg_with_title _ _ _ _ _).
  destruct (w_write_logs dir "puzzle.svg" svg w1) as (L2 & HL2 & Hall2).
  destruct (w_write dir "puzzle.svg" svg w1) as [[[]|e] w2]; simpl in HL2.
  2:{ exists (L1 ++ L2)%list. simpl. rewrite HL2, HL1, <- app_assoc.
      split; [done|]. by apply Forall_app_2. }
  destruct (png_step_logs export_png dir "puzzle.svg" "puzzle.png" w2)
    as (L3 & HL3 & Hall3).
  set (w3 := if export_png && HAS_CAIRO then _ else w2) in *.
  destruct (render_steps_logs dir (turn board) export_png solution 0 board [] w3)
    as (L4 & HL4 & Hall4).
  destruct (render_steps dir (turn board) export_png 0 solution board [] w3)
    as [sans w4]. simpl in HL4.
  set (tweet := tweet_text _ _ _).
  destruct (w_write_logs dir "tweet.txt" tweet w4) as (L5 & HL5 & Hall5).
  exists (L1 ++ L2 ++ L3 ++ L4 ++ L5)%list.
  split; [|by repeat apply Forall_app_2].
  destruct (w_write dir "tweet.txt" tweet w4) as [[[]|e] w5]; simpl in *;
    by rewrite HL5, HL4, HL3, HL2, HL1, <- !app_assoc.
Qed.

End SaveLogs.

Section MainLoop.
Context `{RulesEngine Board Move} `{Renderer Board Move} `{Engine E Board Move}.
Implicit Types w : World E.

Lemma under_loop_event number ev :
  under (path_join OUTPUT_DIR (base_name number)) ev -> loop_event ev.
Proof. intros (name & c & ->). right. right. by eexists _, _, _. Qed.

Lemma under_not_find dir ev : under dir ev -> ev ≠ EvFind.
Proof. by intros (name & c & ->). Qed.

(** One pass of the loop body: one search, its evaluations, and the files
    of at most one puzzle. *)
Lemma iteration_spec st w :
  ∃ L, w_log (iteration st w).2 = w_log w ++ (EvFind :: L)
       ∧ Forall loop_event L ∧ (EvFind ∉ L)
       ∧ attempts (iteration st w).1 = attempts st
       ∧ puzzle_count st <= puzzle_count (iteration st w).1 <= puzzle_count st + 1.
Proof.
  unfold iteration.
  destruct (find_puzzle_position_log 50 w) as (L1 & HL1 & Hall1 & _).
  assert (Forall loop_event L1 ∧ EvFind ∉ L1) as [Hloop1 Hnf1].
  { split.
    - eapply Forall_impl; [exact Hall1|]. intros ev ->. right. by left.
    - intros Hin. rewrite Forall_forall in Hall1. by apply Hall1 in Hin. }
  destruct (find_puzzle_position 50 w) as [[[[[board M] line]|]|e] w1];
    simpl in HL1.
  - destruct (negb (M =? 0) && negb (bool_decide (line = []))).
    2:{ exists L1. simpl. repeat split; try done; lia. }
    cbn [puzzle_count].
    destruct (save_puzzle_logs board M line (puzzle_count st + 1) OUTPUT_DIR
                EXPORT_PNG w1) as (L2 & HL2 & Hall2).
    assert (w_log (save_puzzle board M line (puzzle_count st + 1) OUTPUT_DIR
                     EXPORT_PNG w1).2 = w_log w ++ (EvFind :: (L1 ++ L2))) as Hlog.
    { rewrite HL2, HL1, <- app_assoc. done. }
    assert (Forall loop_event (L1 ++ L2) ∧ EvFind ∉ L1 ++ L2) as [Hloop Hnf].
    { split.
      - apply Forall_app_2; [done|].
        eapply Forall_impl; [exact Hall2|]. intros ev. apply under_loop_event.
      - intros [Hin|Hin]%elem_of_app; [done|].
        rewrite Forall_forall in Hall2. by apply Hall2, under_not_find in Hin. }
    destruct (save_puzzle board M line (puzzle_count st + 1) OUTPUT_DIR
                EXPORT_PNG w1) as [[r|e] w2]; simpl in Hlog |- *;
      exists (L1 ++ L2)%list; repeat split; try done; lia.
  - exists L1. simpl. repeat split; try done; lia.
  - exists L1. simpl. repeat split; try done; lia.
Qed.

(** The loop from any state: [cap - attempts st] passes are left. *)
Lemma main_loop_spec remaining num_puzzles :
  ∀ st w,
    ∃ L, let st' := (main_loop remaining num_puzzles st w).1 in
         w_log (main_loop remaining num_puzzles st w).2 = (w_log w ++ L)%list
         ∧ Forall loop_event L
         ∧ Z.of_nat (count_event EvFind L) = attempts st' - attempts st
         ∧ attempts st <= attempts st' <= attempts st + Z.of_nat remaining
         ∧ (attempts st' < attempts st + Z.of_nat remaining ->
            num_puzzles <= puzzle_count st')
         ∧ (puzzle_count st <= num_puzzles -> puzzle_count st' <= num_puzzles).
Proof.
  induction remaining as [|r IH]; intros st w; cbn [main_loop].
  { exists []. cbv zeta. simpl. rewrite app_nil_r.
    change (count_event EvFind []) with 0%nat.
    repeat split; try done; try lia. }
  destruct (puzzle_count st <? num_puzzles) eqn:Hlt.
  2:{ exists []. cbv zeta. simpl. rewrite app_nil_r.
      change (count_event EvFind []) with 0%nat.
      repeat split; try done; lia. }
  set (st1 := mkRun (puzzle_count st) (attempts st + 1) (successes st) (failures st)).
  destruct (iteration_spec st1 w) as (L1 & HL1 & Hall1 & Hnf1 & Hatt & Hcount).
  destruct (iteration st1 w) as [st2 w2]. simpl in HL1, Hatt, Hcount.
  destruct (IH st2 w2) as (L2 & HL2 & Hall2 & Hfind & Hrange & Hearly & Hcap).
  cbv zeta in *.
  exists (EvFind :: (L1 ++ L2)).
  split; [|split; [|split; [|split; [|split]]]].
  - rewrite HL2, HL1, <- app_assoc. done.
  - constructor; [by left|]. by apply Forall_app_2.
  - rewrite count_event_cons_eq, count_event_app, (count_event_none _ L1) by done.
    lia.
  - lia.
  - intros Hless. apply Hearly. lia.
  - intros _. apply Hcap. lia.
Qed.

(** A failing search is put on the failure list and the loop goes on to
    its next pass. *)
Lemma main_loop_find_raises remaining num_puzzles st w e w' :
  puzzle_count st < num_puzzles ->
  find_puzzle_position 50 w = (Raise e, w') ->
  main_loop (S remaining) num_puzzles st w
  = main_loop remaining num_puzzles
      (mkRun (puzzle_count st) (attempts st + 1) (successes st)
         (failures st ++ [exn_msg e])) w'.
Proof.
  intros Hlt Hfind. cbn [main_loop].
  rewrite (proj2 (Z.ltb_lt _ _) Hlt). unfold iteration. by rewrite Hfind.
Qed.

(** So is a puzzle that cannot be packaged. *)
Lemma main_loop_save_raises remaining num_puzzles st w board M line w1 e w' :
  puzzle_count st < num_puzzles ->
  find_puzzle_position 50 w = (Ok (Some (board, M, line)), w1) ->
  M ≠ 0 -> line ≠ [] ->
  save_puzzle board M line (puzzle_count st + 1) OUTPUT_DIR EXPORT_PNG w1
    = (Raise e, w') ->
  main_loop (S remaining) num_puzzles st w
  = main_loop remaining num_puzzles
      (mkRun (puzzle_count st + 1) (attempts st + 1) (successes st)
         (failures st ++ [exn_msg e])) w'.
Proof.
  intros Hlt Hfind HM Hline Hsave. cbn [main_loop].
  rewrite (proj2 (Z.ltb_lt _ _) Hlt). unfold iteration. rewrite Hfind.
  rewrite (proj2 (Z.eqb_neq _ _) HM), bool_decide_eq_false_2 by done.
  simpl. by rewrite Hsave.
Qed.

(** [main] without the engine binary does nothing; a finished [main] has
    made the output directory, started the engine and gone through [run]
    for [NUM_PUZZLES] puzzles. *)
Lemma main_no_stockfish (popen_uci : result E) now g fs :
  main false popen_uci now g fs = NoStockfish.
Proof. reflexivity. Qed.

Lemma main_finished popen_uci now g fs st w :
  main true popen_uci now g fs = Finished st w ->
  ∃ engine fs1,
    popen_uci = Ok engine
    ∧ mkdir_exist_ok "." OUTPUT_DIR fs = (Ok (), fs1)
    ∧ run NUM_PUZZLES now (mkWorld engine g fs1 []) = (Ok st, w).
Proof.
  unfold main. cbn [negb].
  destruct (mkdir_exist_ok "." OUTPUT_DIR fs) as [[[]|e] fs1]; [|done].
  destruct popen_uci as [engine|e]; [|done].
  destruct (run NUM_PUZZLES now _) as [[st'|e] w'] eqn:Hrun; [|done].
  intros [= -> ->]. by exists engine, fs1.
Qed.

End MainLoop.

(** * The claims *)

Section GeneratorClaims.
Context `{RulesEngine Board Move}.

(** C5.  Whenever a step of the Position Generator chooses a move, it
    chose it this way: every legal move got one draw of [random.random()],
    a float in [0, 1), and the score [spec_score]: that draw, plus 1.0 for
    a capture, plus 0.5 when the ply index is below 10 and the destination
    is one of d4, e4, d5, e5; the candidates were ranked by strictly
    descending score; the top [min 5 n] of them were kept; and the chosen
    move is the member of that slice at the index drawn by
    [random.choice], which is below the length of the slice. *)
Theorem choose_move_policy board ply g chosen g' :
  choose_move board ply g = (Ok chosen, g') ->
  let legal := legal_moves board in
  let n := length legal in
  (∀ i, (i < n)%nat -> 0 <= draw g i < PyFloat.one)
  ∧ ∃ ranked,
      ranked ≡ₚ imap (fun i mv => (spec_score board ply mv (draw g i), mv)) legal
      ∧ StronglySorted score_gt ranked
      ∧ let top := take (5 `min` n) ranked in
        let k := N.to_nat (tape g (cursor g + n) mod N.of_nat (length top)) in
        length top = (5 `min` n)%nat
        ∧ (k < length top)%nat
        ∧ top.*2 !! k = Some chosen
        ∧ g' = advance (n + 1) g.
Proof.
  intros Hc. cbv zeta. split.
  - intros i _. apply draw_range.
  - apply choose_move_ok in Hc. exact Hc.
Qed.

Lemma generate_random_game_invariant max_moves g board g' :
  0 <= max_moves ->
  generate_random_game max_moves g = (Ok board, g') ->
  ∃ line, played start_board line board
          ∧ len line <= max_moves
          ∧ (len line < max_moves -> terminal board).
Proof.
  intros Hmax Hgen. unfold generate_random_game in Hgen.
  pose proof (play_outcome (Z.to_nat max_moves) start_board 0 g) as Hplay.
  rewrite Hgen in Hplay. destruct Hplay as (line & Hpl & Hlen & Hterm).
  exists line. split; [done|]. unfold len. split; [lia|].
  intros Hlt. apply Hterm. lia.
Qed.

Lemma generate_random_game_raise max_moves g e g' :
  generate_random_game max_moves g = (Raise e, g') ->
  e = move_not_orderable
  ∧ ∃ line board g1, played start_board line board
                     ∧ has_tie (candidates board (len line) g1) = true.
Proof.
  intros Hgen. unfold generate_random_game in Hgen.
  pose proof (play_outcome (Z.to_nat max_moves) start_board 0 g) as Hplay.
  rewrite Hgen in Hplay. destruct Hplay as (-> & line & b1 & g1 & Hpl & Htie).
  split; [done|]. exists line, b1, g1. by rewrite Z.add_0_l in Htie.
Qed.

End GeneratorClaims.

Section FinderClaims.
Context `{RulesEngine Board Move} `{Engine E Board Move}.

(** C3.  Every puzzle the Mate Finder returns has a mate distance [N] with
    [1 <= N <= 3]: never above the cap, and never 0, since game-over
    positions are skipped and a zero distance fails the finder's test. *)
Theorem mate_distance_bounds max_attempts (w : World E) board N solution w' :
  find_puzzle_position max_attempts w = (Ok (Some (board, N, solution)), w') ->
  1 <= N <= 3.
Proof.
  unfold find_puzzle_position. intros Hfind.
  apply find_attempts_found in Hfind as (_ & _ & e & info & e' & pv & _ & _ & HN & _).
  exact HN.
Qed.


End FinderClaims.


Section PackagerClaims.
Context `{RulesEngine Board Move} `{Renderer Board Move} {E : Type}.
Implicit Types w : World E.

Lemma base_ok_ext fs fs' dir :
  dirs fs' = dirs fs -> unwritable fs' = unwritable fs ->
  base_ok fs' dir = base_ok fs dir.
Proof. intros Hd Hu. unfold base_ok. by rewrite !(can_write_ext _ _ _ _ Hd Hu). Qed.

Lemma san_line_length (b : Board) line : (length (san_line b line) <= length line)%nat.
Proof.
  revert b. induction line as [|m rest IH]; intros b; simpl; [done|].
  destruct (san b m); simpl; [|lia]. specialize (IH (push b m)). lia.
Qed.



(** C7, as amended.  When the puzzle directory can be made and the three
    files outside the step loop can be written, [save_puzzle] returns
    whatever fails inside the loop (a notation that does not convert, a
    step diagram that cannot be written).  It renders the diagrams of the
    first [k] steps and no other, still writes the social-post draft, and
    the step count of its result is the number of moves converted to
    algebraic notation before the loop stopped: [k] when the loop ran to
    the end or stopped at a notation failure, [k + 1] when it stopped at
    a diagram that could not be written. *)
Theorem save_puzzle_partial board mate_in solution number output_dir export_png w :
  let puzzle_dir := path_join output_dir (base_name number) in
  let disk := fs_with_dir (w_fs w) puzzle_dir in
  can_mkdir (w_fs w) output_dir (base_name number) = true ->
  base_ok disk puzzle_dir = true ->
  ∃ r w' L (k : nat),
    save_puzzle board mate_in solution number output_dir export_png w = (Ok r, w')
    ∧ w_log w' = w_log w ++ L
    ∧ 0 <= solution_moves r <= len (san_line board solution)
    ∧ files (w_fs w') !! path_join puzzle_dir "tweet.txt"
      = Some (tweet_text number (get_title_text board mate_in)
                (take (Z.to_nat (solution_moves r)) (san_line board solution)))
    ∧ diagrams_rendered puzzle_dir (length solution) L = k
    ∧ (∀ j, (j < k)%nat ->
         ∃ content, EvWrite (step_svg_path puzzle_dir (Z.of_nat j + 1)) content ∈ L)
    ∧ ((solution_moves r = Z.of_nat k
        ∧ (k = length solution
           ∨ ∃ mv e, solution !! k = Some mv
                     ∧ san (push_all board (take k solution)) mv = Raise e))
       ∨ (solution_moves r = Z.of_nat k + 1
          ∧ (k < length solution)%nat
          ∧ can_write disk puzzle_dir (step_svg_name (Z.of_nat k + 1)) = false)).
Proof.
  intros puzzle_dir disk Hmk Hbase.
  destruct (mkdir_ok _ _ _ Hmk) as (fs1 & Hmkdir & Hd & _ & Hu).
  assert (same_disk (set_fs disk w) (set_fs fs1 w)) as Hsame by done.
  destruct (save_puzzle_run board mate_in solution number output_dir export_png
              (set_fs disk w) Hbase)
    as (k & m & O & L & Hk & Hm & Hsteps & Hcount & Hstop & Htweet & Hrun).
  specialize (Hrun w fs1 Hmkdir Hd Hu).
  eexists _, _, L, k. split; [exact Hrun|].
  assert (Z.to_nat (len (take m (san_line board solution))) = m) as Hlen.
  { unfold len. rewrite length_take. lia. }
  cbn [solution_moves]. rewrite Hlen.
  split; [done|]. split.
  { unfold len. rewrite length_take. lia. }
  split.
  { unfold after. simpl. by apply lookup_union_Some_l. }
  split; [done|]. split.
  { intros j Hj. destruct (Hsteps j Hj) as (mv & s & _ & _ & Hev). by eexists. }
  assert (len (take m (san_line board solution)) = Z.of_nat m) as Hlen'.
  { unfold len. rewrite length_take. lia. }
  rewrite Hlen'.
  destruct Hstop as [[-> Hstop]|(-> & Hlt & Hstop)]; [left|right].
  - done.
  - split; [lia|]. done.
Qed.

(** C8.  The output location of a packaged puzzle is the directory
    [base_name number] of the output directory, whatever the puzzle; and
    packaging the same puzzle under the same number a second time, from
    any state of the disk, has the outcome of the first call and leaves
    the file system exactly as the first call left it: the existing
    directory is accepted and the same files are overwritten with the same
    text. *)
Theorem save_puzzle_idempotent board mate_in solution number output_dir
    export_png w :
  let first := save_puzzle board mate_in solution number output_dir export_png w in
  let second :=
    save_puzzle board mate_in solution number output_dir export_png first.2 in
  second.1 = first.1
  ∧ w_fs second.2 = w_fs first.2
  ∧ match first.1 with
    | Ok r => folder r = mkPath output_dir (base_name number)
    | Raise _ => True
    end.
Proof.
  cbv zeta.
  set (puzzle_dir := path_join output_dir (base_name number)).
  assert (match (save_puzzle board mate_in solution number output_dir export_png w).1
          with
          | Ok r => folder r = mkPath output_dir (base_name number)
          | Raise _ => True
          end) as Hfolder.
  { destruct (save_puzzle board mate_in solution number output_dir export_png w)
      as [[r|e] w1] eqn:Hsave; [|done].
    destruct (save_puzzle_ok_inv _ _ _ _ _ _ _ _ _ Hsave) as (fs1 & Hmk & Hbase).
    destruct (save_puzzle_run board mate_in solution number output_dir export_png
                (set_fs fs1 w) Hbase)
      as (k & m & O & L & _ & _ & _ & _ & _ & _ & Hrun).
    rewrite (Hrun w fs1 Hmk eq_refl eq_refl) in Hsave. by injection Hsave as <- _. }
  split; [|split; [|exact Hfolder]]; clear Hfolder.
  all: destruct (mkdir_exist_ok output_dir (base_name number) (w_fs w))
    as [[[]|e] fs1] eqn:Hmk.
  all: try (assert (puzzle_dir ∈ dirs fs1) as Hin;
    [ unfold mkdir_exist_ok in Hmk; fold puzzle_dir in Hmk;
      destruct (bool_decide (puzzle_dir ∈ dirs (w_fs w))) eqn:Hd;
      [ injection Hmk as <-; by apply bool_decide_eq_true in Hd
      | repeat case_match; simplify_eq; cbn [dirs];
        apply elem_of_union_l; by apply elem_of_singleton ] | ];
    destruct (save_puzzle_uniform board mate_in solution number output_dir
                export_png (set_fs fs1 w)) as (res & O & L & Hrun);
    rewrite (Hrun w fs1 Hmk eq_refl eq_refl); cbn [fst snd];
    set (w1 := after (set_fs fs1 w) O L);
    assert (mkdir_exist_ok output_dir (base_name number) (w_fs w1) = (Ok (), w_fs w1))
      as Hmk2 by (unfold mkdir_exist_ok; fold puzzle_dir; by rewrite bool_decide_eq_true_2);
    rewrite (Hrun w1 (w_fs w1) Hmk2 eq_refl eq_refl); cbn [fst snd]).
  - done.
  - apply mkdir_raise_inv in Hmk as Hfs. subst fs1.
    unfold save_puzzle. rewrite Hmk. cbn [fst snd set_fs w_fs]. by rewrite Hmk.
  - replace (set_fs (w_fs w1) w1) with w1 by (unfold set_fs; by rewrite World_eta).
    apply after_idemp.
  - apply mkdir_raise_inv in Hmk as Hfs. subst fs1.
    unfold save_puzzle. rewrite Hmk. cbn [fst snd set_fs w_fs]. by rewrite Hmk.
Qed.


End PackagerClaims.

Section OrchestratorClaims.
Context `{RulesEngine Board Move} `{Renderer Board Move} `{Engine E Board Move}.
Implicit Types w : World E.

(** C9.  After the engine has started, a run for a target of [num_puzzles]
    puzzles enters the Mate Finder once per pass of the main loop and at
    most [num_puzzles * 100] times, fewer only when the target count was
    reached; an exception raised by the search or by the packaging of a
    pass is appended to the failure list and the loop goes on with the
    next pass; and after the loop the engine is shut down exactly once,
    before the index file, which nothing in the loop writes, is
    written. *)
Theorem run_schedule num_puzzles now w :
  0 <= num_puzzles ->
  ∃ st loop_log tail,
    (main_loop (Z.to_nat (num_puzzles * 100)) num_puzzles (mkRun 0 0 [] []) w).1 = st
    ∧ w_log (run num_puzzles now w).2 = w_log w ++ loop_log ++ EvQuit :: tail
    ∧ Z.of_nat (count_event EvFind loop_log) = attempts st
    ∧ attempts st <= num_puzzles * 100
    ∧ (attempts st < num_puzzles * 100 -> puzzle_count st = num_puzzles)
    ∧ count_event EvQuit (loop_log ++ EvQuit :: tail) = 1%nat
    ∧ (∀ content, EvWrite index_path content ∉ loop_log)
    ∧ (tail = [] ∨ tail = [EvWrite index_path (index_text now (successes st))])
    ∧ ((run num_puzzles now w).1 = Ok st ->
       tail = [EvWrite index_path (index_text now (successes st))])
    ∧ (∀ remaining st0 w0 e w0',
         puzzle_count st0 < num_puzzles ->
         find_puzzle_position 50 w0 = (Raise e, w0') ->
         main_loop (S remaining) num_puzzles st0 w0
         = main_loop remaining num_puzzles
             (mkRun (puzzle_count st0) (attempts st0 + 1) (successes st0)
                (failures st0 ++ [exn_msg e])) w0')
    ∧ (∀ remaining st0 w0 board M line w1 e w0',
         puzzle_count st0 < num_puzzles ->
         find_puzzle_position 50 w0 = (Ok (Some (board, M, line)), w1) ->
         M ≠ 0 -> line ≠ [] ->
         save_puzzle board M line (puzzle_count st0 + 1) OUTPUT_DIR EXPORT_PNG w1
           = (Raise e, w0') ->
         main_loop (S remaining) num_puzzles st0 w0
         = main_loop remaining num_puzzles
             (mkRun (puzzle_count st0 + 1) (attempts st0 + 1) (successes st0)
                (failures st0 ++ [exn_msg e])) w0').
Proof.
  intros Hnum.
  destruct (main_loop_spec (Z.to_nat (num_puzzles * 100)) num_puzzles
              (mkRun 0 0 [] []) w)
    as (L & HL & Hall & Hfind & Hrange & Hearly & Hcap).
  cbv zeta in *. cbn [attempts puzzle_count] in *.
  unfold run.
  destruct (main_loop (Z.to_nat (num_puzzles * 100)) num_puzzles
              (mkRun 0 0 [] []) w) as [st w1].
  cbn [fst snd] in *.
  assert (Hnoquit : EvQuit ∉ L).
  { intros Hin. rewrite Forall_forall in Hall.
    by apply Hall, loop_event_not_quit in Hin. }
  assert (Hnoindex : ∀ content, EvWrite index_path content ∉ L).
  { intros content Hin. rewrite Forall_forall in Hall.
    by apply Hall, (loop_event_not_index _ content) in Hin. }
  set (idx := index_text now (successes st)).
  assert (∃ tail,
    w_log (let '(r, e) := quit (w_engine w1) in
           match r with
           | Ok _ =>
               match w_write OUTPUT_DIR "puzzle_index.txt" idx
                       (log_event EvQuit (set_engine e w1)) with
               | (Ok _, w2) => (Ok st, w2)
               | (Raise ex, w2) => (Raise ex, w2)
               end
           | Raise ex => (Raise ex, log_event EvQuit (set_engine e w1))
           end).2 = w_log w ++ L ++ EvQuit :: tail
    ∧ (tail = [] ∨ tail = [EvWrite index_path idx])
    ∧ ((let '(r, e) := quit (w_engine w1) in
        match r with
        | Ok _ =>
            match w_write OUTPUT_DIR "puzzle_index.txt" idx
                    (log_event EvQuit (set_engine e w1)) with
            | (Ok _, w2) => (Ok st, w2)
            | (Raise ex, w2) => (Raise ex, w2)
            end
        | Raise ex => (Raise ex, log_event EvQuit (set_engine e w1))
        end).1 = Ok st -> tail = [EvWrite index_path idx])) as (tail & Hlog & Htail & Hok).
  { destruct (quit (w_engine w1)) as [[[]|ex] e1].
    2:{ exists []. simpl. rewrite HL, <- app_assoc.
        split; [done|]. split; [by left|done]. }
    set (w2 := log_event EvQuit (set_engine e1 w1)).
    destruct (can_write (w_fs w2) OUTPUT_DIR "puzzle_index.txt") eqn:Hc.
    - rewrite (w_write_ok _ _ _ idx Hc).
      exists [EvWrite index_path idx]. simpl. rewrite HL, <- !app_assoc.
      split; [done|]. split; [by right|done].
    - destruct (w_write_fail _ _ _ idx Hc) as [ex ->].
      exists []. simpl. rewrite HL, <- app_assoc.
      split; [done|]. split; [by left|done]. }
  exists st, L, tail.
  split; [done|]. split; [exact Hlog|]. split; [lia|]. split; [lia|].
  split; [intros Hlt; lia|]. split.
  { rewrite count_event_app, count_event_cons_eq, !count_event_none; [lia| |done].
    destruct Htail as [->| ->]; [by intros ?%elem_of_nil|].
    by intros ?%list_elem_of_singleton. }
  split; [done|]. split; [done|]. split; [done|]. split.
  - intros. by apply main_loop_find_raises.
  - intros. by eapply main_loop_save_raises.
Qed.

End OrchestratorClaims.

(** * Further properties *)

(** ** Ordinals and directory names *)

Section OrdinalNames.
Lemma digit_value_char (x : N) : (x < 10)%N -> digit_value (pretty_N_char x) = x.
Proof.
  intros Hx.
  assert (x ∈ [0; 1; 2; 3; 4; 5; 6; 7; 8; 9]%N) as Hin.
  { apply list_elem_of_In. simpl. lia. }
  repeat (apply elem_of_cons in Hin as [-> | Hin]; [reflexivity|]).
  by apply elem_of_nil in Hin.
Qed.

Lemma digits_value_cons c s :
  digits_value (String c s)
  = (digit_value c * (digits_value s).2 + (digits_value s).1, 10 * (digits_value s).2)%N.
Proof. simpl. by destruct (digits_value s). Qed.

Lemma digits_value_go (x : N) (s : string) :
  (digits_value (pretty_N_go x s)).1
  = (x * (digits_value s).2 + (digits_value s).1)%N.
Proof.
  revert s. induction (N.lt_wf_0 x) as [x _ IH]; intros s.
  destruct (decide (x = 0%N)) as [->|Hx].
  - rewrite pretty_N_go_0. lia.
  - rewrite pretty_N_go_step by lia.
    rewrite IH by (apply N.div_lt; lia).
    rewrite digits_value_cons. cbn [fst snd].
    rewrite digit_value_char by (apply N.mod_lt; lia).
    pose proof (N.div_mod x 10 ltac:(lia)). nia.
Qed.

Lemma digits_value_pretty (x : N) : (digits_value (pretty x)).1 = x.
Proof.
  unfold pretty, pretty_N. destruct (decide (x = 0%N)) as [->|Hx]; [done|].
  rewrite digits_value_go. simpl. lia.
Qed.

Lemma digits_value_zeros (k : nat) (s : string) :
  (digits_value (str_repeat "0" k +:+ s)).1 = (digits_value s).1.
Proof.
  induction k as [|k IH]; [done|].
  cbn [str_repeat]. rewrite append_assoc.
  change ("0" +:+ (str_repeat "0" k +:+ s))
    with (String "0"%char (str_repeat "0" k +:+ s)).
  rewrite digits_value_cons. cbn [fst]. rewrite IH.
  change (digit_value "0") with 0%N. lia.
Qed.

(** A zero-filled ordinal reads back as the number it was made from. *)
Lemma fmt_03d_value (n : Z) : 0 <= n -> (digits_value (fmt_03d n)).1 = Z.to_N n.
Proof.
  intros Hn. unfold fmt_03d.
  destruct (n <? 0) eqn:Hneg; [lia|].
  rewrite digits_value_zeros.
  destruct n as [|p|p]; [done| |lia].
  change (pretty (Z.abs (Z.pos p))) with (pretty (N.pos p)).
  by rewrite digits_value_pretty.
Qed.

Lemma fmt_03d_inj (n m : Z) : 0 <= n -> 0 <= m -> fmt_03d n = fmt_03d m -> n = m.
Proof.
  intros Hn Hm Heq. apply (f_equal (fun s => (digits_value s).1)) in Heq.
  rewrite !fmt_03d_value in Heq by done. lia.
Qed.

Lemma append_cancel_r (a b t : string) : a +:+ t = b +:+ t -> a = b.
Proof.
  revert b. induction a as [|c a IH]; intros [|c' b] Heq;
    rewrite ?append_cons, ?append_nil in Heq; try done.
  - apply (f_equal String.length) in Heq. simpl in Heq.
    rewrite append_length in Heq. lia.
  - apply (f_equal String.length) in Heq. simpl in Heq.
    rewrite append_length in Heq. lia.
  - injection Heq as -> Heq. f_equal. by apply IH.
Qed.

(** X1.  Two different puzzle numbers never share a directory. *)
Theorem puzzle_dir_distinct (output_dir : string) (n m : Z) :
  0 <= n -> 0 <= m -> n ≠ m ->
  path_join output_dir (base_name n) ≠ path_join output_dir (base_name m).
Proof.
  intros Hn Hm Hne Heq. apply Hne.
  apply path_join_inj in Heq. unfold base_name in Heq.
  apply String.app_inj in Heq. apply append_cancel_r in Heq.
  by apply fmt_03d_inj.
Qed.

End OrdinalNames.

(** ** The move policy *)

Section CaptureRank.
Context `{RulesEngine Board Move}.

(** A capture scores 1.0 or more, and a move with neither bonus scores
    its draw. *)
Lemma spec_score_capture (board : Board) ply move r :
  is_capture board move = true -> 0 <= r -> PyFloat.one <= spec_score board ply move r.
Proof.
  intros Hcap Hr. unfold spec_score. rewrite Hcap.
  assert (PyFloat.one <= PyFloat.add r PyFloat.one) as Hone.
  { unfold PyFloat.add.
    change PyFloat.one with (PyFloat.round (2 ^ 53)) at 1.
    apply round_mono. unfold PyFloat.one. lia. }
  case_bool_decide; [|done].
  unfold PyFloat.add at 1.
  change PyFloat.one with (PyFloat.round (2 ^ 53)) at 1.
  apply round_mono. unfold PyFloat.one, PyFloat.half in *. lia.
Qed.

Lemma spec_score_plain (board : Board) ply move r :
  is_capture board move = false ->
  ¬ (ply < 10 ∧ to_square move ∈ central_squares) ->
  spec_score board ply move r = r.
Proof.
  intros Hcap Hcentre. unfold spec_score. rewrite Hcap.
  by rewrite bool_decide_eq_false_2.
Qed.

Lemma captures_among_scored (board : Board) ply (legal : list Move)
    (d : nat -> PyFloat.t) :
  (∀ i, 0 <= d i) ->
  (length (List.filter (is_capture board) legal)
   <= length (List.filter (fun e : scored Move => Z.leb PyFloat.one e.1)
                (imap (fun i mv => (spec_score board ply mv (d i), mv)) legal)))%nat.
Proof.
  revert d. induction legal as [|mv rest IH]; intros d Hd; [done|].
  cbn [imap List.filter fst].
  specialize (IH (d ∘ S) (fun i => Hd (S i))).
  destruct (is_capture board mv) eqn:Hcap.
  - rewrite (proj2 (Z.leb_le _ _) (spec_score_capture board ply mv (d 0%nat) Hcap (Hd _))).
    simpl. apply le_n_S. exact IH.
  - destruct (PyFloat.one <=? _); simpl; [apply Nat.le_le_succ_r|]; exact IH.
Qed.

(** X2.  A move that gets neither bonus is chosen only if fewer than five
    legal moves are captures: the captures, which score 1.0 or more, rank
    above every such move, which scores below 1.0. *)
Theorem captures_rank_first board ply g chosen g' :
  choose_move board ply g = (Ok chosen, g') ->
  is_capture board chosen = false ->
  ¬ (ply < 10 ∧ to_square chosen ∈ central_squares) ->
  (length (List.filter (is_capture board) (legal_moves board)) < 5)%nat.
Proof.
  intros Hc Hcap Hcentre.
  apply choose_move_ok in Hc as (ranked & Hperm & Hsorted & Hlen & Hk & Hchosen & _).
  set (n := length (legal_moves board)) in *.
  set (k := N.to_nat _) in *.
  apply list_lookup_fmap_Some in Hchosen as ([s mv] & Hmv & Htop).
  simpl in Hmv. subst mv.
  apply lookup_take_Some in Htop as [Hrk _].
  (* the chosen entry scores its draw *)
  assert (s < PyFloat.one) as Hs.
  { assert ((s, chosen) ∈ candidates board ply g) as Hin.
    { rewrite <- Hperm. by eapply list_elem_of_lookup_2. }
    unfold candidates in Hin.
    apply elem_of_lookup_imap in Hin as (i & mv & Heq & _).
    injection Heq as -> <-.
    rewrite spec_score_plain by done. apply draw_range. }
  set (big := fun e : scored Move => Z.leb PyFloat.one e.1).
  (* nothing from the chosen entry on scores 1.0 *)
  assert (List.filter big (drop k ranked) = []) as Hdrop.
  { rewrite <- (take_drop k ranked) in Hsorted.
    apply StronglySorted_app_1_r in Hsorted.
    rewrite (drop_S _ _ _ Hrk) in Hsorted |- *.
    apply StronglySorted_inv in Hsorted as [_ Hall].
    assert (Forall (fun e : scored Move => big e = false) ((s, chosen) :: drop (S k) ranked))
      as Hsmall.
    { constructor.
      - unfold big. simpl. apply Z.leb_gt. exact Hs.
      - eapply Forall_impl; [exact Hall|]. intros e He.
        unfold score_gt in He. simpl in He. unfold big. apply Z.leb_gt. lia. }
    induction Hsmall as [|e l He _ IH]; [done|].
    simpl. by rewrite He. }
  assert (length (List.filter big ranked) <= k)%nat as Hbig.
  { rewrite <- (take_drop k ranked), List.filter_app, Hdrop, app_nil_r.
    etrans; [apply List.filter_length_le|]. rewrite length_take. lia. }
  assert (length (List.filter big ranked)
          = length (List.filter big (candidates board ply g))) as Hcount.
  { apply Permutation_length. clear -Hperm.
    induction Hperm as [|x l l' _ IH|x y l|l l' l'' _ IH1 _ IH2]; simpl.
    - done.
    - destruct (big x); [by constructor|done].
    - destruct (big x), (big y); try done. by constructor.
    - by etrans. }
  pose proof (captures_among_scored board ply (legal_moves board) (draw g)
                (fun i => proj1 (draw_range g i))) as Hcaps.
  fold big in Hcaps. fold (candidates board ply g) in Hcaps.
  assert (k < 5)%nat by lia. lia.
Qed.

End CaptureRank.

(** ** The search *)

Section FinderExtras.
Context `{RulesEngine Board Move} `{Engine E Board Move}.
Implicit Types w : World E.

(** X3.  The position of a puzzle the Mate Finder returns was reached from
    the starting position by a game of legal moves of between 15 and 35
    plies (when a position with no legal move is game-over, as in
    chess). *)
Theorem puzzle_position_plies max_attempts w board N solution w' :
  (∀ b : Board, legal_moves b = [] -> is_game_over b = true) ->
  find_puzzle_position max_attempts w = (Ok (Some (board, N, solution)), w') ->
  ∃ line, played start_board line board ∧ 15 <= len line <= 35.
Proof.
  intros Hlaw Hfind. unfold find_puzzle_position in Hfind.
  apply find_attempts_found in Hfind
    as (Hover & (max_moves & g & g' & Hmax & Hgen) & _).
  apply generate_random_game_invariant in Hgen as (line & Hplayed & Hlen & Hstop);
    [|lia].
  exists line. split; [done|].
  destruct (decide (len line < max_moves)) as [Hlt|Hge]; [|lia].
  destruct (Hstop Hlt) as [Hterm|Hnone]; [congruence|].
  apply Hlaw in Hnone. congruence.
Qed.

(** X4.  The solution line of a returned puzzle with mate distance [N] has
    [2N - 1] or [2N] moves: between one and six. *)
Theorem solution_length_bounds max_attempts w board N solution w' :
  find_puzzle_position max_attempts w = (Ok (Some (board, N, solution)), w') ->
  2 * N - 1 <= len solution <= 2 * N ∧ 1 <= len solution <= 6.
Proof.
  intros Hfind. unfold find_puzzle_position in Hfind.
  apply find_attempts_found in Hfind
    as (_ & _ & e & info & e' & pv & _ & _ & HN & Hpv & -> & _).
  unfold len in *. rewrite length_take. lia.
Qed.


Lemma find_attempts_budget attempts w :
  ∃ L, w_log (find_attempts attempts w).2 = (w_log w ++ L)%list
       ∧ Forall (fun ev => ev = EvAnalyse) L
       ∧ (length L <= attempts)%nat
       ∧ (∀ found, (find_attempts attempts w).1 = Ok (Some found) -> L ≠ []).
Proof.
  revert w. induction attempts as [|n IH]; intros w; cbn [find_attempts].
  { exists []. by rewrite app_nil_r. }
  destruct (randint 15 35 (w_rng w)) as [[mx|e] g1].
  2:{ exists []. rewrite app_nil_r. repeat split; simpl; try done; lia. }
  destruct (generate_random_game mx g1) as [[b|e] g2].
  2:{ exists []. rewrite app_nil_r. repeat split; simpl; try done; lia. }
  destruct (is_game_over b).
  { destruct (IH (set_rng g2 w)) as (L & HL & Hall & Hlen & Hfound).
    exists L. repeat split; try done. lia. }
  destruct (analyze_for_mate_log b 3 (set_rng g2 w)) as [Hl _].
  destruct (analyze_for_mate b 3 (set_rng g2 w)) as [found w1]. simpl in Hl.
  assert (∃ L, w_log (find_attempts n w1).2 = (w_log w ++ L)%list
               ∧ Forall (fun ev => ev = EvAnalyse) L
               ∧ (length L <= S n)%nat
               ∧ (∀ found, (find_attempts n w1).1 = Ok (Some found) -> L ≠ []))
    as Hrest.
  { destruct (IH w1) as (L & HL & Hall & Hlen & _).
    exists (EvAnalyse :: L). rewrite HL, Hl. simpl. rewrite <- app_assoc.
    repeat split; try done; [by constructor|lia]. }
  destruct found as [[M line]|]; [|done].
  destruct (negb (M =? 0) && negb (bool_decide (line = []))); [|done].
  exists [EvAnalyse]. simpl. rewrite Hl.
  repeat split; try done; [by repeat constructor|lia].
Qed.

(** X5.  A search asks the engine for at most [max_attempts] evaluations,
    at least one when it returns a puzzle, and does nothing else that is
    logged; it leaves the file system alone. *)
Theorem search_budget max_attempts w :
  let out := find_puzzle_position max_attempts w in
  ∃ L, w_log out.2 = w_log w ++ EvFind :: L
       ∧ Forall (fun ev => ev = EvAnalyse) L
       ∧ (length L <= Z.to_nat max_attempts)%nat
       ∧ w_fs out.2 = w_fs w
       ∧ ∀ found, out.1 = Ok (Some found) -> L ≠ [].
Proof.
  cbv zeta. unfold find_puzzle_position.
  destruct (find_attempts_budget (Z.to_nat max_attempts) (log_event EvFind w))
    as (L & HL & Hall & Hlen & Hfound).
  destruct (find_attempts_log (Z.to_nat max_attempts) (log_event EvFind w))
    as (_ & _ & _ & Hfs).
  exists L. rewrite HL, Hfs. simpl. rewrite <- app_assoc.
  repeat split; done.
Qed.

End FinderExtras.

Section TitleExtras.
Context `{RulesEngine Board Move} `{Renderer Board Move} `{Engine E Board Move}.

(** X6.  A puzzle the Mate Finder returns is titled with the side to move
    and its mate distance; the fallback title ("to move and win") is never
    used for it. *)
Theorem found_puzzle_title max_attempts (w : World E) board N solution w' :
  find_puzzle_position max_attempts w = (Ok (Some (board, N, solution)), w') ->
  get_title_text board N
  = color_name (turn board) +:+ " to move and mate in " +:+ pretty N.
Proof.
  intros Hfind. unfold find_puzzle_position in Hfind.
  apply find_attempts_found in Hfind
    as (_ & _ & e & info & e' & pv & _ & _ & HN & _).
  unfold get_title_text.
  destruct (N =? 0) eqn:Hzero; [lia|]. cbn [negb].
  by destruct (turn board).
Qed.

End TitleExtras.

(** ** What the packager writes *)


Section WritesOnly.
Context `{RulesEngine Board Move} `{Renderer Board Move} {E : Type}.
Implicit Types w : World E.

Lemma writes_only_refl P w : writes_only P w w.
Proof.
  repeat split; try done; [by left|].
  exists []. by rewrite app_nil_r.
Qed.

Lemma writes_only_trans P w1 w2 w3 :
  writes_only P w1 w2 -> writes_only P w2 w3 -> writes_only P w1 w3.
Proof.
  intros (He1 & Hg1 & Hd1 & Hu1 & Hf1 & L1 & HL1 & Hall1)
         (He2 & Hg2 & Hd2 & Hu2 & Hf2 & L2 & HL2 & Hall2).
  repeat split; try congruence.
  - intros p. destruct (Hf2 p) as [Heq|[HP Hsome]]; [|by right].
    rewrite Heq. destruct (Hf1 p) as [Heq1|[HP Hsome]]; [by left|right].
    by split.
  - exists (L1 ++ L2)%list. rewrite HL2, HL1, <- app_assoc.
    split; [done|]. by apply Forall_app.
Qed.

Lemma writes_only_mono (P Q : string -> Prop) w w' :
  (∀ p, P p -> Q p) -> writes_only P w w' -> writes_only Q w w'.
Proof.
  intros HPQ (He & Hg & Hd & Hu & Hf & L & HL & Hall).
  repeat split; try done.
  - intros p. destruct (Hf p) as [Heq|[HP Hsome]]; [by left|right]. auto.
  - exists L. split; [done|]. eapply Forall_impl; [exact Hall|].
    intros ev (p & c & -> & HP). eauto.
Qed.

Lemma w_write_only dir name content w :
  writes_only (fun p => p = path_join dir name) w (w_write dir name content w).2.
Proof.
  destruct (can_write (w_fs w) dir name) eqn:Hc.
  - rewrite (w_write_ok _ _ _ content Hc). unfold after. cbn [snd].
    repeat split; try done.
    + intros p. cbn [w_fs files].
      destruct (decide (p = path_join dir name)) as [->|Hne].
      * right. split; [done|].
        rewrite (lookup_union_Some_l _ _ _ content); [by eexists|].
        apply lookup_singleton_eq.
      * left. rewrite lookup_union_r; [done|]. by apply lookup_singleton_ne.
    + eexists. split; [done|]. constructor; [|constructor]. by eexists _, _.
  - destruct (w_write_fail _ _ _ content Hc) as [e ->]. apply writes_only_refl.
Qed.

Lemma svg_to_png_only dir svg_name png_name w :
  writes_only (fun p => HAS_CAIRO = true ∧ p = path_join dir png_name) w
    (svg_to_png dir svg_name png_name w).2.
Proof.
  unfold svg_to_png.
  destruct HAS_CAIRO eqn:Hcairo; cbn [negb]; [|apply writes_only_refl].
  destruct (files (w_fs w) !! path_join dir svg_name) as [svg|];
    [|apply writes_only_refl].
  destruct (svg2png svg) as [png|e]; [|apply writes_only_refl].
  pose proof (w_write_only dir png_name png w) as Hw.
  destruct (w_write dir png_name png w) as [[[]|e] w1]; cbn [snd] in *;
    (eapply writes_only_mono; [|exact Hw]); by intros p ->.
Qed.

Lemma png_step_only (export_png : bool) dir svg_name png_name w :
  writes_only (fun p => export_png && HAS_CAIRO = true ∧ p = path_join dir png_name) w
    (if export_png && HAS_CAIRO
     then (svg_to_png dir svg_name png_name w).2 else w).
Proof.
  destruct (export_png && HAS_CAIRO) eqn:Hon; [|apply writes_only_refl].
  eapply writes_only_mono; [|apply svg_to_png_only]. by intros p [_ ->].
Qed.

(** The paths the step loop may write for the steps [i + 1 .. i + n]. *)
Lemma render_steps_only dir orientation export_png solution :
  ∀ i solve_board acc w,
    writes_only
      (fun p => ∃ k, i + 1 <= k <= i + len solution
                     ∧ (p = path_join dir (step_svg_name k)
                        ∨ (export_png && HAS_CAIRO = true
                           ∧ p = path_join dir (step_png_name k))))
      w (render_steps dir orientation export_png i solution solve_board acc w).2.
Proof.
  induction solution as [|mv rest IH]; intros i solve_board acc w;
    cbn [render_steps]; [apply writes_only_refl|].
  destruct (san solve_board mv) as [s|e]; [|apply writes_only_refl].
  set (svg := create_board_svg_with_title _ _ _ _ _).
  assert (len (mv :: rest) = len rest + 1) as Hlen by (unfold len; simpl; lia).
  pose proof (len_nonneg rest) as Hpos.
  pose proof (w_write_only dir (step_svg_name (i + 1)) svg w) as H1.
  destruct (w_write dir (step_svg_name (i + 1)) svg w) as [[[]|e] w1];
    cbn [snd] in H1.
  2:{ eapply writes_only_mono; [|exact H1]. intros p ->.
      exists (i + 1). split; [lia|by left]. }
  pose proof (png_step_only export_png dir (step_svg_name (i + 1))
                (step_png_name (i + 1)) w1) as H2.
  set (w2 := if export_png && HAS_CAIRO then _ else w1) in *.
  specialize (IH (i + 1) (push solve_board mv) (acc ++ [s])%list w2).
  eapply writes_only_trans; [|eapply writes_only_trans]; cycle 2.
  - eapply writes_only_mono; [|exact IH].
    intros p (k & Hk & Hp). exists k. split; [lia|done].
  - eapply writes_only_mono; [|exact H1]. intros p ->.
    exists (i + 1). split; [lia|by left].
  - eapply writes_only_mono; [|exact H2]. intros p [Hon ->].
    exists (i + 1). split; [lia|by right].
Qed.

(** Past the directory, [save_puzzle] writes the files of the puzzle
    directory and nothing else. *)
Lemma save_puzzle_only board mate_in solution number output_dir export_png w fs1 :
  mkdir_exist_ok output_dir (base_name number) (w_fs w) = (Ok (), fs1) ->
  writes_only
    (fun p => ∃ name, p = path_join (path_join output_dir (base_name number)) name
                      ∧ artifact_name (export_png && HAS_CAIRO) (len solution) name)
    (set_fs fs1 w)
    (save_puzzle board mate_in solution number output_dir export_png w).2.
Proof.
  intros Hmk. unfold save_puzzle. rewrite Hmk.
  set (dir := path_join output_dir (base_name number)).
  set (w0 := set_fs fs1 w).
  set (P := fun p => ∃ name, p = path_join dir name ∧ _).
  assert (∀ name content w1,
            artifact_name (export_png && HAS_CAIRO) (len solution) name ->
            writes_only P w1 (w_write dir name content w1).2) as Hfixed.
  { intros name content w1 Hname. eapply writes_only_mono; [|apply w_write_only].
    intros p ->. by exists name. }
  pose proof (Hfixed "puzzle_data.txt" (puzzle_data_text board mate_in solution) w0
                ltac:(by left)) as H1.
  destruct (w_write dir "puzzle_data.txt" _ w0) as [[[]|e] w1]; cbn [snd] in *;
    [|done].
  set (svg := create_board_svg_with_title _ _ _ _ _).
  pose proof (Hfixed "puzzle.svg" svg w1 ltac:(by right; left)) as H2.
  destruct (w_write dir "puzzle.svg" svg w1) as [[[]|e] w2]; cbn [snd] in *.
  2:{ by eapply writes_only_trans. }
  assert (writes_only P w2 (if export_png && HAS_CAIRO
                            then (svg_to_png dir "puzzle.svg" "puzzle.png" w2).2
                            else w2)) as H3.
  { eapply writes_only_mono; [|apply png_step_only].
    intros p [Hon ->]. exists "puzzle.png". split; [done|].
    do 4 right. split; [done|by left]. }
  set (w3 := if export_png && HAS_CAIRO then _ else w2) in *.
  assert (writes_only P w3
            (render_steps dir (turn board) export_png 0 solution board [] w3).2) as H4.
  { eapply writes_only_mono; [|apply render_steps_only].
    intros p (k & Hk & [->|[Hon ->]]).
    - exists (step_svg_name k). split; [done|]. do 3 right. left.
      exists k. split; [lia|done].
    - exists (step_png_name k). split; [done|]. do 4 right. split; [done|].
      right. exists k. split; [lia|done]. }
  destruct (render_steps dir (turn board) export_png 0 solution board [] w3)
    as [sans w4]. cbn [snd] in H4.
  set (tweet := tweet_text _ _ _).
  pose proof (Hfixed "tweet.txt" tweet w4 ltac:(by right; right; left)) as H5.
  assert (writes_only P w0 (w_write dir "tweet.txt" tweet w4).2) as Hall.
  { eapply writes_only_trans; [exact H1|].
    eapply writes_only_trans; [exact H2|].
    eapply writes_only_trans; [exact H3|].
    eapply writes_only_trans; [exact H4|exact H5]. }
  by destruct (w_write dir "tweet.txt" tweet w4) as [[[]|e] w5].
Qed.

End WritesOnly.

Section PackagerExtras.
Context `{RulesEngine Board Move} `{Renderer Board Move} {E : Type}.
Implicit Types w : World E.

Lemma mkdir_ok_inv fs parent name fs1 :
  mkdir_exist_ok parent name fs = (Ok (), fs1) ->
  files fs1 = files fs ∧ unwritable fs1 = unwritable fs
  ∧ (dirs fs1 = dirs fs ∨ dirs fs1 = {[ path_join parent name ]} ∪ dirs fs)
  ∧ can_mkdir fs parent name = true.
Proof.
  unfold mkdir_exist_ok, can_mkdir. intros Hmk.
  destruct (bool_decide (path_join parent name ∈ dirs fs)); simpl.
  { injection Hmk as <-. repeat split; by left. }
  destruct (bool_decide (is_Some _)); [done|].
  destruct (bool_decide (parent = "." ∨ _)); [|done].
  destruct (unwritable fs _); [done|].
  simpl in Hmk. injection Hmk as <-. repeat split; by right.
Qed.


(** X8.  Whatever its outcome, [save_puzzle] leaves the engine, the random
    tape and the faults of the disk as they were, makes no directory but
    the puzzle directory, removes no file, and creates or changes only
    files of the puzzle directory that bear one of its artifact names. *)
Theorem save_puzzle_frame board mate_in solution number output_dir export_png w :
  let puzzle_dir := path_join output_dir (base_name number) in
  let w' := (save_puzzle board mate_in solution number output_dir export_png w).2 in
  w_engine w' = w_engine w ∧ w_rng w' = w_rng w
  ∧ unwritable (w_fs w') = unwritable (w_fs w)
  ∧ (dirs (w_fs w') = dirs (w_fs w)
     ∨ dirs (w_fs w') = {[ puzzle_dir ]} ∪ dirs (w_fs w))
  ∧ ∀ p, files (w_fs w') !! p = files (w_fs w) !! p
         ∨ (is_Some (files (w_fs w') !! p)
            ∧ ∃ name, p = path_join puzzle_dir name
                      ∧ artifact_name true (len solution) name).
Proof.
  cbv zeta.
  destruct (mkdir_exist_ok output_dir (base_name number) (w_fs w))
    as [[[]|e] fs1] eqn:Hmk.
  - pose proof (save_puzzle_only board mate_in solution number output_dir
                  export_png w fs1 Hmk) as (He & Hg & Hd & Hu & Hf & _).
    apply mkdir_ok_inv in Hmk as (Hfiles & Hunw & Hdirs & _).
    cbn [set_fs w_engine w_rng w_fs] in *.
    rewrite He, Hg, Hd, Hu. repeat split; try done.
    intros p. destruct (Hf p) as [Heq|[(name & -> & Hname) Hsome]].
    + left. by rewrite Heq, Hfiles.
    + right. split; [done|]. exists name. split; [done|].
      destruct Hname as [?|[?|[?|[?|[_ ?]]]]]; unfold artifact_name; auto 10.
  - apply mkdir_raise_inv in Hmk as Hfs. subst fs1.
    unfold save_puzzle. rewrite Hmk. cbn [snd set_fs w_engine w_rng w_fs].
    repeat split; try done; by left.
Qed.

Lemma step_png_name_ne_svg (a b : Z) : step_png_name a ≠ step_svg_name b.
Proof.
  unfold step_png_name, step_svg_name. intros Heq.
  rewrite <- !append_assoc in Heq. by apply png_ne_svg in Heq.
Qed.

(** X9.  With PNG export switched off, or without the converter, no PNG
    file of the puzzle directory is created or changed. *)
Theorem png_export_switch board mate_in solution number output_dir export_png w name :
  export_png && HAS_CAIRO = false ->
  name = "puzzle.png" ∨ (∃ k, name = step_png_name k) ->
  let p := path_join (path_join output_dir (base_name number)) name in
  files (w_fs (save_puzzle board mate_in solution number output_dir export_png w).2)
    !! p = files (w_fs w) !! p.
Proof.
  intros Hoff Hname p.
  destruct (mkdir_exist_ok output_dir (base_name number) (w_fs w))
    as [[[]|e] fs1] eqn:Hmk.
  - pose proof (save_puzzle_only board mate_in solution number output_dir
                  export_png w fs1 Hmk) as (_ & _ & _ & _ & Hf & _).
    apply mkdir_ok_inv in Hmk as (Hfiles & _).
    cbn [set_fs w_fs] in Hf. rewrite <- Hfiles.
    destruct (Hf p) as [Heq|[(name' & Hp & Hart) _]]; [done|exfalso].
    apply path_join_inj in Hp. subst name'. rewrite Hoff in Hart.
    destruct Hart as [Hn|[Hn|[Hn|[(k & _ & Hn)|[? _]]]]]; [| | | |done];
      destruct Hname as [->|[j ->]]; try done.
    by apply step_png_name_ne_svg in Hn.
  - apply mkdir_raise_inv in Hmk as Hfs. subst fs1.
    unfold save_puzzle. by rewrite Hmk.
Qed.

(** X10.  [save_puzzle] returns exactly when the puzzle directory can be
    made and the three files outside the step loop can be written. *)
Theorem save_puzzle_returns_iff board mate_in solution number output_dir
    export_png w :
  let puzzle_dir := path_join output_dir (base_name number) in
  is_ok (save_puzzle board mate_in solution number output_dir export_png w).1
  = can_mkdir (w_fs w) output_dir (base_name number)
    && base_ok (fs_with_dir (w_fs w) puzzle_dir) puzzle_dir.
Proof.
  intros puzzle_dir.
  destruct (can_mkdir (w_fs w) output_dir (base_name number)) eqn:Hcan.
  - destruct (mkdir_ok _ _ _ Hcan) as (fs1 & Hmk & Hd & _ & Hu). cbn [andb].
    destruct (base_ok (fs_with_dir (w_fs w) puzzle_dir) puzzle_dir) eqn:Hbase.
    + destruct (save_puzzle_run board mate_in solution number output_dir
                  export_png (set_fs (fs_with_dir (w_fs w) puzzle_dir) w) Hbase)
        as (k & m & O & L & _ & _ & _ & _ & _ & _ & Hrun).
      by rewrite (Hrun w fs1 Hmk Hd Hu).
    + destruct (save_puzzle board mate_in solution number output_dir export_png w)
        as [[r|e] w'] eqn:Hsave; [|done].
      apply save_puzzle_ok_inv in Hsave as (fs2 & Hmk2 & Hbase2).
      rewrite Hmk in Hmk2. injection Hmk2 as <-.
      fold puzzle_dir in Hbase2.
      rewrite (base_ok_ext (fs_with_dir (w_fs w) puzzle_dir) fs1) in Hbase2 by done.
      congruence.
  - destruct (mkdir_fail _ _ _ Hcan) as [e Hmk]. unfold save_puzzle.
    by rewrite Hmk.
Qed.

End PackagerExtras.

Section PackagedFiles.
Context `{RulesEngine Board Move} `{Renderer Board Move} {E : Type}.
Implicit Types w : World E.

(** The step loop leaves the files with a fixed name alone. *)
Lemma render_steps_keeps dir orientation export_png i solution solve_board acc w name :
  name ∈ ["puzzle_data.txt"; "puzzle.svg"; "puzzle.png"; "tweet.txt"] ->
  files (w_fs (render_steps dir orientation export_png i solution solve_board
                 acc w).2) !! path_join dir name
  = files (w_fs w) !! path_join dir name.
Proof.
  intros Hname.
  destruct (render_steps_only dir orientation export_png solution i solve_board
              acc w) as (_ & _ & _ & _ & Hf & _).
  destruct (Hf (path_join dir name)) as [Heq|[(k & _ & Hp) _]]; [done|exfalso].
  destruct Hp as [Hp|[_ Hp]]; apply path_join_inj in Hp;
    unfold step_svg_name, step_png_name in Hp;
    repeat (apply elem_of_cons in Hname as [-> | Hname]; [by simpl in Hp|]);
    by apply elem_of_nil in Hname.
Qed.

(** X11.  After a call of [save_puzzle] that returns, the puzzle directory
    holds the record of the puzzle and its diagram as the call built
    them.  [puzzle.png] is the conversion of that diagram when export is
    on, the converter is there, the conversion goes through and the file
    can be written; otherwise it is whatever was there before the
    call. *)
Theorem packaged_files board mate_in solution number output_dir export_png w r w' :
  save_puzzle board mate_in solution number output_dir export_png w = (Ok r, w') ->
  let puzzle_dir := path_join output_dir (base_name number) in
  let svg := create_board_svg_with_title board (get_title_text board mate_in)
               None (turn board) 400 in
  files (w_fs w') !! path_join puzzle_dir "puzzle_data.txt"
  = Some (puzzle_data_text board mate_in solution)
  ∧ files (w_fs w') !! path_join puzzle_dir "puzzle.svg" = Some svg
  ∧ files (w_fs w') !! path_join puzzle_dir "puzzle.png"
    = match svg2png svg with
      | Ok png =>
          if export_png && HAS_CAIRO && can_write (w_fs w') puzzle_dir "puzzle.png"
          then Some png
          else files (w_fs w) !! path_join puzzle_dir "puzzle.png"
      | Raise _ => files (w_fs w) !! path_join puzzle_dir "puzzle.png"
      end.
Proof.
  intros Hsave puzzle_dir svg.
  destruct (save_puzzle_ok_inv _ _ _ _ _ _ _ _ _ Hsave) as (fs1 & Hmk & Hbase).
  fold puzzle_dir in Hbase.
  apply andb_true_iff in Hbase as [Hbase Htweet].
  apply andb_true_iff in Hbase as [Hdata Hsvg].
  pose proof (mkdir_ok_inv _ _ _ _ Hmk) as (Hfiles & _).
  unfold save_puzzle in Hsave. rewrite Hmk in Hsave.
  fold puzzle_dir in Hsave. fold svg in Hsave.
  set (w0 := set_fs fs1 w) in *.
  set (data := puzzle_data_text board mate_in solution) in *.
  rewrite (w_write_ok w0 _ _ data Hdata) in Hsave.
  set (w1 := after w0 _ _) in *.
  rewrite (w_write_ok w1 _ _ svg Hsvg) in Hsave.
  set (w2 := after w1 _ _) in *.
  assert (files (w_fs w2) !! path_join puzzle_dir "puzzle.svg" = Some svg) as Hin_svg.
  { unfold w2, after. simpl. apply lookup_union_Some_l, lookup_singleton_eq. }
  rewrite (png_step_after export_png _ _ _ _ svg Hin_svg) in Hsave.
  set (w3 := after w2 _ _) in *.
  pose proof (render_steps_keeps puzzle_dir (turn board) export_png 0 solution
                board [] w3) as Hkeep.
  destruct (render_steps puzzle_dir (turn board) export_png 0 solution board [] w3)
    as [sans w4] eqn:Hsteps.
  cbn [snd] in Hkeep.
  assert (same_disk w0 w4) as Hsame4.
  { pose proof (render_steps_only puzzle_dir (turn board) export_png solution 0
                  board [] w3) as (_ & _ & Hd & Hu & _).
    rewrite Hsteps in Hd, Hu. cbn [snd] in Hd, Hu. by split. }
  rewrite (w_write_ok w4 _ _ _) in Hsave
    by (by rewrite (can_write_same w0)).
  injection Hsave as _ <-.
  assert (∀ name, name ∈ ["puzzle_data.txt"; "puzzle.svg"; "puzzle.png"] ->
            files (w_fs (after w4 {[ path_join puzzle_dir "tweet.txt" :=
                                      tweet_text number (get_title_text board mate_in) sans ]}
                           [EvWrite (path_join puzzle_dir "tweet.txt")
                              (tweet_text number (get_title_text board mate_in) sans)]))
              !! path_join puzzle_dir name
            = files (w_fs w3) !! path_join puzzle_dir name) as Hlast.
  { intros name Hname. unfold after at 1. cbn [w_fs files].
    rewrite lookup_union_r.
    - apply Hkeep. apply list_elem_of_In. apply list_elem_of_In in Hname.
      simpl in *. tauto.
    - apply lookup_singleton_ne. intros Heq%path_join_inj.
      repeat (apply elem_of_cons in Hname as [-> | Hname]; [done|]).
      by apply elem_of_nil in Hname. }
  assert (∀ name, name ∈ ["puzzle_data.txt"; "puzzle.svg"] ->
            files (w_fs w3) !! path_join puzzle_dir name
            = files (w_fs w2) !! path_join puzzle_dir name) as Hpng_keeps.
  { intros name Hname. unfold w3, after at 1. cbn [w_fs files].
    apply lookup_union_r.
    destruct export_png; [|done]. unfold png_effect.
    repeat case_match; try done. cbn [fst].
    apply lookup_singleton_ne. intros Heq%path_join_inj.
    repeat (apply elem_of_cons in Hname as [-> | Hname]; [done|]).
    by apply elem_of_nil in Hname. }
  split; [|split].
  - rewrite Hlast by in_list. rewrite Hpng_keeps by in_list.
    unfold w2, after at 1. cbn [w_fs files].
    rewrite lookup_union_r.
    + unfold w1, after. cbn [w_fs files].
      apply lookup_union_Some_l, lookup_singleton_eq.
    + apply lookup_singleton_ne. by intros Heq%path_join_inj.
  - rewrite Hlast by in_list. rewrite Hpng_keeps by in_list. exact Hin_svg.
  - rewrite Hlast by in_list.
    assert (can_write (w_fs (after w4 {[ path_join puzzle_dir "tweet.txt" :=
                                    tweet_text number (get_title_text board mate_in) sans ]}
                         [EvWrite (path_join puzzle_dir "tweet.txt")
                            (tweet_text number (get_title_text board mate_in) sans)]))
              puzzle_dir "puzzle.png"
            = can_write (w_fs w2) puzzle_dir "puzzle.png") as ->.
    { apply can_write_ext; simpl; destruct Hsame4 as [Hd Hu]; [by rewrite Hd|by rewrite Hu]. }
    assert (files (w_fs w2) !! path_join puzzle_dir "puzzle.png"
            = files (w_fs w) !! path_join puzzle_dir "puzzle.png") as Hbefore.
    { unfold w2, w1, w0, after. cbn [w_fs files set_fs].
      rewrite !lookup_union_r, Hfiles; [done|..];
        apply lookup_singleton_ne; by intros Heq%path_join_inj. }
    unfold w3, after at 1. cbn [w_fs files].
    destruct export_png; cbn [andb].
    2:{ rewrite lookup_union_r by done. rewrite Hbefore. by destruct (svg2png svg). }
    unfold png_effect. destruct HAS_CAIRO; cbn [negb fst].
    2:{ rewrite lookup_union_r by done. rewrite Hbefore. by destruct (svg2png svg). }
    destruct (svg2png svg) as [png|e]; cbn [fst].
    2:{ by rewrite lookup_union_r. }
    destruct (can_write (w_fs w2) puzzle_dir "puzzle.png"); cbn [fst].
    + apply lookup_union_Some_l, lookup_singleton_eq.
    + by rewrite lookup_union_r.
Qed.

End PackagedFiles.

(** ** Diagrams *)

Section Diagram.
Context `{RulesEngine Board Move} `{Renderer Board Move}.

(** Two texts with no [c] in them, each followed by [c]: the first [c]
    marks where each ends. *)
Lemma append_split_at (c : ascii) (t t' r r' : string) :
  str_contains c t = false -> str_contains c t' = false ->
  t +:+ String c r = t' +:+ String c r' -> t = t' ∧ r = r'.
Proof.
  revert t'. induction t as [|a t IH]; intros [|a' t'] Ht Ht' Heq;
    rewrite ?append_cons, ?append_nil in Heq; simpl in Ht, Ht'.
  - by injection Heq as ->.
  - injection Heq as <- _. by rewrite Ascii.eqb_refl in Ht'.
  - injection Heq as -> _. by rewrite Ascii.eqb_refl in Ht.
  - injection Heq as -> Heq.
    destruct (Ascii.eqb c a'); [done|].
    destruct (IH t' Ht Ht' Heq) as [-> ->]. done.
Qed.

(** X12.  A diagram with a title tells its title and its board picture:
    two calls for the same size give the same document only for the same
    title and the same picture (titles being single lines). *)
Theorem diagram_determines_title (board board' : Board) title title'
    last_move last_move' orientation orientation' size :
  str_contains "010"%char title = false ->
  str_contains "010"%char title' = false ->
  create_board_svg_with_title board title last_move orientation size
  = create_board_svg_with_title board' title' last_move' orientation' size ->
  title = title'
  ∧ svg_board board size last_move orientation
    = svg_board board' size last_move' orientation'.
Proof.
  intros Ht Ht' Heq. unfold create_board_svg_with_title in Heq.
  do 46 apply String.app_inj in Heq.
  change (nl +:+ ?x) with (String "010"%char x) in Heq.
  apply append_split_at in Heq as [-> Heq]; [|done..].
  split; [done|].
  do 11 apply String.app_inj in Heq.
  by apply append_cancel_r in Heq.
Qed.

End Diagram.

(** ** The books of a run *)


Section Accounting.
Context `{RulesEngine Board Move} `{Renderer Board Move} `{Engine E Board Move}.
Implicit Types w : World E.

Lemma save_puzzle_result board M solution number output_dir export_png w r w' :
  save_puzzle board M solution number output_dir export_png w = (Ok r, w') ->
  success r = true ∧ mate_in r = M
  ∧ folder r = mkPath output_dir (base_name number)
  ∧ 0 <= solution_moves r <= len solution.
Proof.
  intros Hsave.
  destruct (save_puzzle_ok_inv _ _ _ _ _ _ _ _ _ Hsave) as (fs1 & Hmk & Hbase).
  destruct (save_puzzle_run board M solution number output_dir export_png
              (set_fs fs1 w) Hbase)
    as (k & m & O & L & _ & Hm & _ & _ & _ & _ & Hrun).
  rewrite (Hrun w fs1 Hmk eq_refl eq_refl) in Hsave. injection Hsave as <- _.
  cbn [success mate_in folder solution_moves]. repeat split; try done.
  - apply len_nonneg.
  - pose proof (san_line_length board solution). unfold len.
    rewrite length_take. lia.
Qed.

Lemma accounted_length st numbers :
  accounted st numbers -> length numbers = length (successes st).
Proof.
  intros (_ & _ & _ & Hf & _). apply (f_equal length) in Hf.
  by rewrite !length_fmap in Hf.
Qed.

Lemma iteration_accounted st numbers w :
  accounted st numbers ->
  len (successes st) + len (failures st) < attempts st ->
  ∃ numbers', accounted (iteration st w).1 numbers'.
Proof.
  intros Hacc Hslack.
  pose proof (accounted_length _ _ Hacc) as Hlen.
  destruct Hacc as (Hcount & _ & Hres & Hfold & Hsorted & Hbounds).
  unfold iteration.
  destruct (find_puzzle_position 50 w) as [[[[[board M] line]|]|e] w1] eqn:Hfind.
  - (* a puzzle was found *)
    unfold find_puzzle_position in Hfind.
    apply find_attempts_found in Hfind
      as (_ & _ & e & info & e' & pv & _ & _ & HM & Hpv & Hline & Hne).
    assert (len line <= 2 * M) as Hshort.
    { rewrite Hline. unfold len. rewrite length_take. lia. }
    rewrite (proj2 (negb_true_iff _) (proj2 (Z.eqb_neq M 0) ltac:(lia))).
    rewrite bool_decide_eq_false_2 by done. cbn [andb negb puzzle_count].
    destruct (save_puzzle board M line (puzzle_count st + 1) OUTPUT_DIR EXPORT_PNG w1)
      as [[r|ex] w2] eqn:Hsave; cbn [fst].
    + apply save_puzzle_result in Hsave as (Hs & Hm & Hf & Hmoves).
      exists (numbers ++ [puzzle_count st + 1])%list.
      unfold accounted, len in *.
      cbn [successes failures puzzle_count attempts].
      rewrite !length_app. cbn [length].
      split; [lia|]. split; [lia|]. split.
      { apply Forall_app_2; [done|]. constructor; [|done].
        unfold result_ok. split; [exact Hs|]. rewrite Hm. lia. }
      split.
      { rewrite !fmap_app, Hfold. simpl. by rewrite Hf. }
      split.
      { apply StronglySorted_app_2; [|done|repeat constructor].
        intros n m Hn ->%list_elem_of_singleton.
        apply list_elem_of_lookup in Hn as [i Hi].
        pose proof (lookup_lt_Some _ _ _ Hi). specialize (Hbounds i n Hi). lia. }
      intros i n Hi. apply lookup_app_Some in Hi as [Hi|[Hge Hi]].
      * pose proof (lookup_lt_Some _ _ _ Hi). specialize (Hbounds i n Hi). lia.
      * apply list_lookup_singleton_Some in Hi as [Hi <-]. lia.
    + exists numbers. unfold accounted, record_failure, len in *.
      cbn [successes failures puzzle_count attempts].
      rewrite !length_app. cbn [length].
      split; [lia|]. split; [lia|]. split; [done|]. split; [done|].
      split; [done|]. intros i n Hi.
      pose proof (lookup_lt_Some _ _ _ Hi). specialize (Hbounds i n Hi). lia.
  - exists numbers. cbn [fst]. unfold accounted.
    split; [done|]. split; [lia|]. done.
  - exists numbers. cbn [fst]. unfold accounted, record_failure, len in *.
    cbn [successes failures puzzle_count attempts].
    rewrite !length_app. cbn [length].
    split; [lia|]. split; [lia|]. done.
Qed.

Lemma main_loop_accounted remaining num_puzzles :
  ∀ st numbers w,
    accounted st numbers ->
    ∃ numbers', accounted (main_loop remaining num_puzzles st w).1 numbers'.
Proof.
  induction remaining as [|n IH]; intros st numbers w Hacc; cbn [main_loop].
  { by exists numbers. }
  destruct (puzzle_count st <? num_puzzles); [|by exists numbers].
  set (st1 := mkRun (puzzle_count st) (attempts st + 1) (successes st) (failures st)).
  assert (accounted st1 numbers) as Hacc1.
  { destruct Hacc as (Hc & Ha & Hr & Hf & Hs & Hb).
    unfold accounted, st1. cbn [successes failures puzzle_count attempts].
    split; [done|]. split; [lia|]. done. }
  destruct (iteration_accounted st1 numbers w Hacc1) as (numbers1 & Hacc2).
  { destruct Hacc as (_ & ? & _). unfold st1.
    cbn [successes failures attempts]. lia. }
  destruct (iteration st1 w) as [st2 w2]. by apply (IH st2 numbers1).
Qed.

Lemma run_ok_inv num_puzzles now w st w' :
  run num_puzzles now w = (Ok st, w') ->
  st = (main_loop (Z.to_nat (num_puzzles * 100)) num_puzzles (mkRun 0 0 [] []) w).1
  ∧ files (w_fs w') !! index_path = Some (index_text now (successes st)).
Proof.
  unfold run.
  destruct (main_loop _ _ _ w) as [st1 w1]. cbn [fst].
  destruct (quit (w_engine w1)) as [[[]|ex] e1]; [|done].
  set (w2 := log_event EvQuit _).
  destruct (can_write (w_fs w2) OUTPUT_DIR "puzzle_index.txt") eqn:Hc.
  - rewrite (w_write_ok _ _ _ _ Hc). intros [= <- <-]. split; [done|].
    unfold after. cbn [w_fs files]. apply lookup_union_Some_l, lookup_singleton_eq.
  - destruct (w_write_fail _ _ _ (index_text now (successes st1)) Hc) as [ex ->].
    done.
Qed.

Lemma accounted_start : accounted (mkRun 0 0 [] []) [].
Proof.
  unfold accounted, len. simpl. repeat split; try done; try lia; constructor.
Qed.

(** X13.  The books of a finished run.  Every puzzle number handed out was
    either saved or led to a recorded failure, every saved puzzle and
    every recorded failure cost a pass of its own, every entry of the
    success list is a success with a mate distance from 1 to 3 and at
    most twice as many solution moves, and the index file on disk is the
    index of the success list. *)
Theorem run_accounting num_puzzles now w st w' :
  run num_puzzles now w = (Ok st, w') ->
  len (successes st) <= puzzle_count st
                     <= len (successes st) + len (failures st)
  ∧ len (successes st) + len (failures st) <= attempts st
  ∧ Forall result_ok (successes st)
  ∧ files (w_fs w') !! index_path = Some (index_text now (successes st)).
Proof.
  intros Hrun. apply run_ok_inv in Hrun as [-> Hindex].
  destruct (main_loop_accounted (Z.to_nat (num_puzzles * 100)) num_puzzles
              _ [] w accounted_start) as (numbers & Hc & Ha & Hr & _).
  done.
Qed.

(** X14.  The folders of a finished run.  The index lists the saved puzzles
    as Day 1, Day 2, ... in the order they were saved; the folder of the
    [i]-th of them (from 0) is the folder of a puzzle number [n >= i + 1],
    and the numbers grow strictly along the list.  When every puzzle
    number handed out was saved, the [i]-th folder is the folder of
    number [i + 1], the day the index gives it. *)
Theorem index_folders num_puzzles now w st w' :
  run num_puzzles now w = (Ok st, w') ->
  (∃ numbers : list Z,
     folder <$> successes st = folder_of <$> numbers
     ∧ StronglySorted Z.lt numbers
     ∧ ∀ i n, numbers !! i = Some n -> Z.of_nat i + 1 <= n <= puzzle_count st)
  ∧ (puzzle_count st = len (successes st) ->
     ∀ i r, successes st !! i = Some r -> folder r = folder_of (Z.of_nat i + 1)).
Proof.
  intros Hrun. apply run_ok_inv in Hrun as [-> _].
  destruct (main_loop_accounted (Z.to_nat (num_puzzles * 100)) num_puzzles
              _ [] w accounted_start) as (numbers & _ & _ & _ & Hf & Hs & Hb).
  set (st := (main_loop _ _ _ w).1) in *.
  assert (length numbers = length (successes st)) as Hlen.
  { apply (f_equal length) in Hf. by rewrite !length_fmap in Hf. }
  split.
  - exists numbers. split; [done|]. split; [done|].
    intros i n Hi. pose proof (lookup_lt_Some _ _ _ Hi).
    specialize (Hb i n Hi). unfold len in Hb. lia.
  - intros Hall i r Hr.
    assert ((folder <$> successes st) !! i = Some (folder r)) as Hfr.
    { by rewrite list_lookup_fmap, Hr. }
    rewrite Hf in Hfr. apply list_lookup_fmap_Some in Hfr as (n & -> & Hn).
    specialize (Hb i n Hn). f_equal. lia.
Qed.

End Accounting.

Section EngineBudget.
Context `{RulesEngine Board Move} `{Renderer Board Move} `{Engine E Board Move}.
Implicit Types w : World E.






End EngineBudget.

Section DistinctFolders.
Context `{RulesEngine Board Move} `{Renderer Board Move} `{Engine E Board Move}.
Implicit Types w : World E.

Lemma strictly_sorted_NoDup (l : list Z) : StronglySorted Z.lt l -> NoDup l.
Proof.
  induction 1 as [|x l _ IH Hall]; constructor; [|done].
  intros Hin. rewrite Forall_forall in Hall. apply Hall in Hin. lia.
Qed.

(** X16.  No two puzzles saved by a run share a directory. *)
Theorem saved_folders_distinct num_puzzles now w st w' :
  run num_puzzles now w = (Ok st, w') ->
  NoDup (path_str ∘ folder <$> successes st).
Proof.
  intros Hrun. apply run_ok_inv in Hrun as [-> _].
  destruct (main_loop_accounted (Z.to_nat (num_puzzles * 100)) num_puzzles
              _ [] w accounted_start) as (numbers & _ & _ & _ & Hf & Hs & Hb).
  rewrite list_fmap_compose, Hf, <- list_fmap_compose.
  apply NoDup_fmap_2_strong; [|by apply strictly_sorted_NoDup].
  intros n m Hn Hm Heq.
  apply list_elem_of_lookup in Hn as [i Hi]. apply list_elem_of_lookup in Hm as [j Hj].
  specialize (Hb i n Hi) as Hbn. specialize (Hb j m Hj) as Hbm.
  unfold compose, folder_of, path_str in Heq. cbn [path_parent path_name] in Heq.
  apply path_join_inj in Heq. unfold base_name in Heq.
  apply String.app_inj in Heq. apply append_cancel_r in Heq.
  apply fmt_03d_inj in Heq; lia.
Qed.

End DistinctFolders.

(** * Runs of the toy world *)

Section ToyRuns.
Import Toy.

(** The first step from the starting position, on the tape [spread 0]:
    the capture on d5 ranks first and is chosen. *)
Lemma choose_move_policy_witness :
  choose_move (start_board : Board) 0 (spread 0) = (Ok 35, advance 5 (spread 0))
  ∧ ∃ ranked : list (PyFloat.t * Move),
      ranked ≡ₚ imap (fun i mv => (spec_score [] 0 mv (draw (spread 0) i), mv))
                  [27; 28; 35; 8]
      ∧ StronglySorted score_gt ranked
      ∧ length (take (5 `min` 4) ranked) = (5 `min` 4)%nat.
Proof.
  assert (Hrun : choose_move (start_board : Board) 0 (spread 0)
                 = (Ok 35, advance 5 (spread 0))) by (vm_compute; reflexivity).
  split; [exact Hrun|].
  destruct (choose_move_policy _ _ _ _ _ Hrun) as (_ & ranked & Hp & Hs & Hl & _).
  exists ranked. split; [exact Hp|]. split; [exact Hs|exact Hl].
Defined.

(** The truthful engine asked about the position after fifteen plies,
    Black to move: mate in 1 by [63]. *)
Lemma analyze_for_mate_spec_witness :
  reports_mate (analyse 0%nat board15 MATE_DEPTH).1 1 [63]
  ∧ (analyze_for_mate board15 3 (world zeros)).1 = Some (1, [63]).
Proof.
  assert (Hrep : reports_mate
                   (analyse 0%nat board15 MATE_DEPTH).1 1 [63]).
  { exists (mkInfo (Some (mkPovScore (Mate 1) Black)) (Some [63])),
      (mkPovScore (Mate 1) Black), 1. repeat split; reflexivity. }
  split; [exact Hrep|].
  apply (proj1 (analyze_for_mate_spec board15 (world zeros))
           1 [63] Hrep); [lia|vm_compute; discriminate].
Defined.

(** On the tape [steady 0] the first game has fifteen plies and leaves
    Black to move, who mates in one. *)
Lemma mate_distance_bounds_witness :
  (toy_find (steady 0)).1 = Ok (Some (board15, 1, [63])) ∧ 1 <= 1 <= 3.
Proof.
  split; [vm_compute; reflexivity|].
  apply (mate_distance_bounds 50 (world (steady 0))
           board15 1 [63] (toy_find (steady 0)).2).
  vm_compute. reflexivity.
Defined.



(** C4: the finder raises.  On the tape of zeros the two central pawn
    moves of the first position both score 0.5; sorting the [(score,
    move)] tuples compares the two moves, and the [TypeError] leaves
    [generate_random_game] and [find_puzzle_position], neither of which
    catches it. *)
Theorem finder_raises_on_tied_scores :
  has_tie (candidates (start_board : Board) 0 (advance 1 zeros)) = true
  ∧ (toy_find zeros).1 = Raise move_not_orderable.
Proof. split; vm_compute; reflexivity. Qed.

(** C6: the generator does not return.  The same tie, met by
    [generate_random_game] itself: no position comes back. *)
Theorem generator_raises_on_tied_scores :
  has_tie (candidates (start_board : Board) 0 zeros) = true
  ∧ (generate_random_game (Board:=Board) 15 zeros).1 = Raise move_not_orderable.
Proof. split; vm_compute; reflexivity. Qed.

(** An engine that dies: on the tape [steady 0] the search goes through
    its fifty positions, asks for the 43 that are not game-over to be
    evaluated, and comes back empty-handed without raising. *)
Example broken_engine_finds_nothing :
  let found := @find_puzzle_position _ _ rules _ broken 50 (world (steady 0)) in
  found.1 = Ok None
  ∧ count_event EvAnalyse (w_log found.2) = 43%nat
  ∧ w_engine found.2 = 43%nat.
Proof. vm_compute. repeat split. Qed.

(** A game the generator does return, on the tape [steady 1]. *)
Lemma generate_random_game_invariant_witness :
  (generate_random_game (Board:=Board) 16 (steady 1)).1 = Ok board16
  ∧ ∃ line, played start_board line board16 ∧ len line <= 16.
Proof.
  split; [vm_compute; reflexivity|].
  destruct (generate_random_game_invariant 16 (steady 1) board16
              (generate_random_game (Board:=Board) 16 (steady 1)).2)
    as (line & Hpl & Hlen & _); [lia|vm_compute; reflexivity|].
  exists line. split; [exact Hpl|exact Hlen].
Defined.

(** C7 fails as stated.  The diagram of the only step cannot be written:
    the move was converted to notation before the write was tried, so the
    result counts one step while no step diagram was rendered. *)
Lemma step_count_counterexample :
  let saved := toy_save (disk_failing (step_svg_path toy_dir 1)) board15 1 [63] in
  ∃ r, saved.1 = Ok r
       ∧ solution_moves r = 1
       ∧ diagrams_rendered toy_dir 1 (w_log saved.2) = 0%nat.
Proof.
  exists (mkPuzzleResult true 1 1 (mkPath OUTPUT_DIR (base_name 1))).
  repeat split; vm_compute; reflexivity.
Qed.

Lemma save_puzzle_partial_witness :
  let fs := disk_failing (step_svg_path toy_dir 1) in
  can_mkdir fs OUTPUT_DIR (base_name 1) = true
  ∧ base_ok (fs_with_dir fs toy_dir) toy_dir = true
  ∧ ∃ r w', toy_save fs board15 1 [63] = (Ok r, w')
            ∧ 0 <= solution_moves r <= len (san_line board15 [63]).
Proof.
  cbv zeta.
  assert (H1 : can_mkdir (disk_failing (step_svg_path toy_dir 1)) OUTPUT_DIR
                 (base_name 1) = true) by (vm_compute; reflexivity).
  assert (H2 : base_ok (fs_with_dir (disk_failing (step_svg_path toy_dir 1)) toy_dir)
                 toy_dir = true) by (vm_compute; reflexivity).
  split; [exact H1|]. split; [exact H2|].
  destruct (save_puzzle_partial board15 1 [63] 1 OUTPUT_DIR
              true (mkWorld 0%nat zeros (disk_failing (step_svg_path toy_dir 1)) [])
              H1 H2)
    as (r & w' & L & k & Hsave & _ & Hcount & _).
  exists r, w'. split; [exact Hsave|exact Hcount].
Defined.

Lemma save_puzzle_idempotent_witness :
  let r := mkPuzzleResult true 1 1 (mkPath OUTPUT_DIR (base_name 1)) in
  let first := toy_save disk board15 1 [63] in
  let second := save_puzzle board15 1 [63] 1 OUTPUT_DIR true first.2 in
  first.1 = Ok r
  ∧ second.1 = first.1
  ∧ w_fs second.2 = w_fs first.2.
Proof.
  intros r first second.
  split; [vm_compute; reflexivity|].
  destruct (save_puzzle_idempotent board15 1 [63] 1 OUTPUT_DIR true
              (mkWorld 0%nat zeros disk [])) as (Hres & Hfs & _).
  split; [exact Hres|exact Hfs].
Defined.



(** A run for one puzzle on the tape [steady 0]: one search, one puzzle,
    one shutdown, then the index. *)
Lemma run_schedule_witness :
  0 <= 1
  ∧ ∃ st loop_log tail,
      (toy_run 1 (steady 0)).1 = Ok st
      ∧ w_log (toy_run 1 (steady 0)).2 = loop_log ++ EvQuit :: tail
      ∧ Z.of_nat (count_event EvFind loop_log) = attempts st
      ∧ attempts st <= 1 * 100
      ∧ count_event EvQuit (loop_log ++ EvQuit :: tail) = 1%nat.
Proof.
  split; [lia|].
  destruct (run_schedule 1 "2026-01-01 00:00:00"
              (world (steady 0)))
    as (st & loop_log & tail & Hst & Hlog & Hfind & Hcap & _ & Hquit & _);
    [lia|].
  exists st, loop_log, tail.
  split.
  { rewrite <- Hst. vm_compute. reflexivity. }
  split; [exact Hlog|]. split; [exact Hfind|]. split; [exact Hcap|exact Hquit].
Defined.

End ToyRuns.

(** * Further runs of the toy world *)

Section FurtherRuns.
Import Toy.

(** The puzzle found on the tape [steady 0]: Black to move, mate in one. *)
Lemma found_puzzle_title_witness :
  (toy_find (steady 0)).1 = Ok (Some (board15, 1, [63]))
  ∧ get_title_text board15 1
    = color_name (turn board15) +:+ " to move and mate in " +:+ pretty 1
  ∧ get_title_text board15 1 = "Black to move and mate in 1".
Proof.
  split; [vm_compute; reflexivity|]. split; [|vm_compute; reflexivity].
  apply (found_puzzle_title 50 (world (steady 0)) board15 1 [63]
           (toy_find (steady 0)).2).
  vm_compute. reflexivity.
Defined.

(** At ply 12 on a tape that makes [random.choice] take the second of the
    ranking: the capture ranks first, and the quiet move to a2 is chosen. *)
Lemma captures_rank_first_witness :
  let g := mkRng (fun i => N.of_nat (S i)) 0 in
  choose_move ([] : Board) 12 g = (Ok 8, advance 5 g)
  ∧ (length (List.filter (is_capture ([] : Board)) (legal_moves ([] : Board))) < 5)%nat.
Proof.
  intros g.
  assert (Hrun : choose_move ([] : Board) 12 g = (Ok 8, advance 5 g))
    by (vm_compute; reflexivity).
  split; [exact Hrun|].
  apply (captures_rank_first ([] : Board) 12 g 8 (advance 5 g) Hrun).
  - reflexivity.
  - intros [Hply _]. lia.
Defined.

Lemma toy_no_move_is_over (b : Board) : legal_moves b = [] -> is_game_over b = true.
Proof.
  simpl. unfold moves_of. destruct (mated b); [done|].
  by destruct (side_to_move b).
Qed.

Lemma puzzle_position_plies_witness :
  (toy_find (steady 0)).1 = Ok (Some (board15, 1, [63]))
  ∧ ∃ line, played start_board line board15 ∧ 15 <= len line <= 35.
Proof.
  split; [vm_compute; reflexivity|].
  apply (puzzle_position_plies 50 (world (steady 0)) board15 1 [63]
           (toy_find (steady 0)).2 toy_no_move_is_over).
  vm_compute. reflexivity.
Defined.

Lemma solution_length_bounds_witness :
  (toy_find (steady 0)).1 = Ok (Some (board15, 1, [63]))
  ∧ 2 * 1 - 1 <= len [63] <= 2 * 1 ∧ 1 <= len [63] <= 6.
Proof.
  split; [vm_compute; reflexivity|].
  apply (solution_length_bounds 50 (world (steady 0)) board15 1 [63]
           (toy_find (steady 0)).2).
  vm_compute. reflexivity.
Defined.

(** Puzzles 1 and 2. *)
Lemma puzzle_dir_distinct_witness :
  path_join OUTPUT_DIR (base_name 1) ≠ path_join OUTPUT_DIR (base_name 2).
Proof. apply (puzzle_dir_distinct OUTPUT_DIR 1 2); lia. Defined.

(** Packaging with export switched off: no [puzzle.png]. *)
Lemma png_export_switch_witness :
  files (w_fs (save_puzzle board15 1 [63] 1 OUTPUT_DIR false
                 (mkWorld 0%nat zeros disk [])).2) !! path_join toy_dir "puzzle.png"
  = files disk !! path_join toy_dir "puzzle.png".
Proof.
  apply (png_export_switch board15 1 [63] 1 OUTPUT_DIR false
           (mkWorld 0%nat zeros disk []) "puzzle.png").
  - reflexivity.
  - by left.
Defined.

(** Packaging on the empty disk: the record, the diagram and its PNG. *)
Lemma packaged_files_witness :
  let r := mkPuzzleResult true 1 1 (mkPath OUTPUT_DIR (base_name 1)) in
  let w' := (toy_save disk board15 1 [63]).2 in
  let svg := create_board_svg_with_title board15 (get_title_text board15 1)
               None (turn board15) 400 in
  toy_save disk board15 1 [63] = (Ok r, w')
  ∧ files (w_fs w') !! path_join toy_dir "puzzle_data.txt"
    = Some (puzzle_data_text board15 1 [63])
  ∧ files (w_fs w') !! path_join toy_dir "puzzle.svg" = Some svg
  ∧ files (w_fs w') !! path_join toy_dir "puzzle.png" = Some ("PNG " +:+ svg).
Proof.
  intros r w' svg.
  assert (Hsave : toy_save disk board15 1 [63] = (Ok r, w'))
    by (vm_compute; reflexivity).
  split; [exact Hsave|].
  destruct (packaged_files board15 1 [63] 1 OUTPUT_DIR true
              (mkWorld 0%nat zeros disk []) r w' Hsave) as (Hdata & Hsvg & Hpng).
  split; [exact Hdata|]. split; [exact Hsvg|].
  etrans; [exact Hpng|]. vm_compute. reflexivity.
Defined.

(** Two positions of the toy world drawn alike: the same title over the
    same picture. *)
Lemma diagram_determines_title_witness :
  create_board_svg_with_title board15 "Mate" None Black 400
  = create_board_svg_with_title board16 "Mate" (Some 63) White 400
  ∧ "Mate" = "Mate"
  ∧ svg_board board15 400 None Black = svg_board board16 400 (Some 63) White.
Proof.
  assert (Heq : create_board_svg_with_title board15 "Mate" None Black 400
                = create_board_svg_with_title board16 "Mate" (Some 63) White 400)
    by reflexivity.
  split; [exact Heq|].
  apply (diagram_determines_title board15 board16 "Mate" "Mate" None (Some 63)
           Black White 400); [reflexivity|reflexivity|exact Heq].
Defined.

(** The run for one puzzle on the tape [steady 0]. *)
Lemma run_accounting_witness :
  let st := mkRun 1 1 [mkPuzzleResult true 1 1 (mkPath OUTPUT_DIR (base_name 1))] [] in
  let w' := (toy_run 1 (steady 0)).2 in
  toy_run 1 (steady 0) = (Ok st, w')
  ∧ Forall result_ok (successes st)
  ∧ files (w_fs w') !! index_path
    = Some (index_text "2026-01-01 00:00:00" (successes st)).
Proof.
  intros st w'.
  assert (Hrun : toy_run 1 (steady 0) = (Ok st, w')) by (vm_compute; reflexivity).
  split; [exact Hrun|].
  destruct (run_accounting 1 "2026-01-01 00:00:00" (world (steady 0)) st w' Hrun)
    as (_ & _ & Hres & Hidx).
  split; [exact Hres|exact Hidx].
Defined.

Lemma index_folders_witness :
  let st := mkRun 1 1 [mkPuzzleResult true 1 1 (mkPath OUTPUT_DIR (base_name 1))] [] in
  toy_run 1 (steady 0) = (Ok st, (toy_run 1 (steady 0)).2)
  ∧ ∀ i r, successes st !! i = Some r -> folder r = folder_of (Z.of_nat i + 1).
Proof.
  intros st.
  assert (Hrun : toy_run 1 (steady 0) = (Ok st, (toy_run 1 (steady 0)).2))
    by (vm_compute; reflexivity).
  split; [exact Hrun|].
  destruct (index_folders 1 "2026-01-01 00:00:00" (world (steady 0)) st _ Hrun)
    as [_ Hall].
  apply Hall. reflexivity.
Defined.

Lemma saved_folders_distinct_witness :
  let st := mkRun 1 1 [mkPuzzleResult true 1 1 (mkPath OUTPUT_DIR (base_name 1))] [] in
  toy_run 1 (steady 0) = (Ok st, (toy_run 1 (steady 0)).2)
  ∧ NoDup (path_str ∘ folder <$> successes st).
Proof.
  intros st.
  assert (Hrun : toy_run 1 (steady 0) = (Ok st, (toy_run 1 (steady 0)).2))
    by (vm_compute; reflexivity).
  split; [exact Hrun|].
  exact (saved_folders_distinct 1 "2026-01-01 00:00:00" (world (steady 0)) st _ Hrun).
Defined.

End FurtherRuns.
